(** * EnhancePPTX: geometry and composition core

    A shallow embedding of the parts of the repository that its
    specification calls the geometry and composition core:

    - [tools/utils.py]: [pct_to_emu], [parse_geom];
    - [tools/renderers/decompose_boxes.py]: [render] with its inner
      functions [depth], [col_x], [col_width] and [layout];
    - [tools/renderers/component_diagram.py]:
      [_calc_conn_points_and_sites];
    - [render.py]: [_normalize_ir], the per-slide loop of
      [render_presentation], the grouping helpers and
      [_sanitize_module_name];
    - [tools/utils.py], colours: [hex_to_rgb], [rgb_to_hex],
      [tint_color], [mix_with_white], [get_contrast_color];
    - [tools/renderers/weighted_process_timeline.py]:
      [_get_lane_color].

    Python integers are [Z]; Python floats are IEEE 754 binary64 values,
    taken from the specification of floating-point arithmetic that comes
    with Rocq ([SpecFloat], precision 53, maximal exponent 1024), so that
    every definition below computes what CPython computes.  Python
    exceptions are the [Raise] results of an error monad. *)

From Stdlib Require Import ZArith Lia Bool QArith Qpower.
From Stdlib Require Import Floats.SpecFloat.
From stdpp Require Import gmap strings list pretty.
From Stdlib Require Sorted.

Set Warnings "-register-all".
Local Open Scope Z_scope.

(** ** Python values: exceptions, integers and binary64 floats *)

Module Py.

Inductive exn : Set :=
| ZeroDivisionError
| OverflowError
| ValueError
| TypeError
| IndexError.

Inductive result (A : Type) : Type :=
| Ok (a : A)
| Raise (e : exn).
Arguments Ok {A} a.
Arguments Raise {A} e.

Definition bind {A B} (r : result A) (k : A -> result B) : result B :=
  match r with
  | Ok a => k a
  | Raise e => Raise e
  end.

Definition float := spec_float.

Definition prec : Z := 53.
Definition emax : Z := 1024.

Definition fadd : float -> float -> float := SFadd prec emax.
Definition fsub : float -> float -> float := SFsub prec emax.
Definition fmul : float -> float -> float := SFmul prec emax.
Definition fabs : float -> float := SFabs.
Definition flt : float -> float -> bool := SFltb.
Definition fle : float -> float -> bool := SFleb.

Definition fzero : float := S754_zero false.

Definition is_zero (f : float) : bool :=
  match f with
  | S754_zero _ => true
  | _ => false
  end.

(** [float(z)] for an integer [z]: the nearest binary64 value, ties to
    even; CPython raises [OverflowError] when that is out of range. *)
Definition float_of_int (z : Z) : result float :=
  match binary_normalize prec emax z 0 false with
  | S754_infinity _ => Raise OverflowError
  | f => Ok f
  end.

(** The float literals of the sources are written [m / 10^k]: the
    correctly rounded quotient of two exactly representable integers is
    the binary64 value nearest to the decimal literal. *)
Definition lit (m d : positive) : float :=
  SFdiv prec emax (S754_finite false m 0) (S754_finite false d 0).

Definition f1_0 : float := Eval vm_compute in lit 1 1.
Definition f100_0 : float := Eval vm_compute in lit 100 1.

(** [x / y] on floats raises on a zero divisor. *)
Definition fdiv (x y : float) : result float :=
  if is_zero y then Raise ZeroDivisionError else Ok (SFdiv prec emax x y).

(** [a / b] on integers (true division): the correctly rounded
    quotient. *)
Definition int_truediv (a b : Z) : result float :=
  if b =? 0 then Raise ZeroDivisionError
  else
    match a with
    | Z0 => Ok (S754_zero (b <? 0))
    | _ =>
        match SFdiv prec emax
                (S754_finite (a <? 0) (Z.to_pos (Z.abs a)) 0)
                (S754_finite (b <? 0) (Z.to_pos (Z.abs b)) 0) with
        | S754_infinity _ => Raise OverflowError
        | q => Ok q
        end
    end.

(** [z * f] and [z + f] with an integer on the left: the integer is
    converted first. *)
Definition mul_int_float (z : Z) (f : float) : result float :=
  bind (float_of_int z) (fun x => Ok (fmul x f)).

Definition add_int_float (z : Z) (f : float) : result float :=
  bind (float_of_int z) (fun x => Ok (fadd x f)).

(** [int(f)]: truncation toward zero. *)
Definition int_of_float (f : float) : result Z :=
  match f with
  | S754_zero _ => Ok 0
  | S754_infinity _ => Raise OverflowError
  | S754_nan => Raise ValueError
  | S754_finite s m e => Ok (cond_Zopp s (Z.shiftl (Z.pos m) e))
  end.

(** [round(f)] with one argument: the nearest integer, ties to even. *)
Definition round_nat_half_even (m : positive) (e : Z) : Z :=
  match e with
  | Z.neg k =>
      let d := 2 ^ Z.pos k in
      let q := Z.pos m / d in
      let r := Z.pos m mod d in
      match 2 * r ?= d with
      | Lt => q
      | Gt => q + 1
      | Eq => if Z.even q then q else q + 1
      end
  | _ => Z.shiftl (Z.pos m) e
  end.

Definition round (f : float) : result Z :=
  match f with
  | S754_zero _ => Ok 0
  | S754_infinity _ => Raise OverflowError
  | S754_nan => Raise ValueError
  | S754_finite s m e => Ok (cond_Zopp s (round_nat_half_even m e))
  end.

(** A number read from YAML or built by a renderer: [int] or [float]. *)
Inductive num : Set :=
| Int (z : Z)
| Float (f : float).

(** [float(x)] *)
Definition to_float (x : num) : result float :=
  match x with
  | Int z => float_of_int z
  | Float f => Ok f
  end.

(** [max(w, 0.0)]: the second argument replaces the first only when it
    is strictly greater. *)
Definition max_with_zero (w : float) : float :=
  if flt w fzero then fzero else w.

(** [sum(w for w in ws if w > 0)]: left-to-right addition from [0], as
    CPython does up to 3.11 (later versions compensate the rounding
    errors of the partial sums). *)
Definition sum_positive (ws : list float) : float :=
  fold_left (fun acc w => if flt fzero w then fadd acc w else acc) ws fzero.

(** The exact rational value of a finite float. *)
Definition to_Q (f : float) : Q :=
  match f with
  | S754_finite s m e =>
      let v := (inject_Z (Z.pos m) * Qpower 2 e)%Q in
      if s then Qopp v else v
  | _ => 0%Q
  end.

Definition is_finite (f : float) : bool :=
  match f with
  | S754_zero _ | S754_finite _ _ _ => true
  | _ => false
  end.

(** A float as CPython holds it: a finite one is in canonical form. *)
Definition wf (f : float) : bool := valid_binary prec emax f.

(** The smallest exponent of a binary64 value, [-1074]. *)
Definition emin64 : Z := SpecFloat.emin prec emax.

(** The sign bit is clear, or the value is a zero or not a number. *)
Definition nonneg (f : float) : bool :=
  match f with
  | S754_finite true _ _ | S754_infinity true => false
  | _ => true
  end.

(** The exponent of a finite value is in range: so it is for every
    canonical float and for every result of an operation. *)
Definition exp_ok (f : float) : Prop :=
  match f with
  | S754_finite _ _ e => emin64 <= e
  | _ => True
  end.

(** What rounding a mantissa can give, with the sign it was asked for:
    [signed_as] any result, [rounded_pos] a positive finite value or an
    overflow. *)
Inductive signed_as (s : bool) : float -> Prop :=
| sa_zero : signed_as s (S754_zero s)
| sa_finite m e : signed_as s (S754_finite s m e)
| sa_inf : signed_as s (S754_infinity s)
| sa_nan : signed_as s S754_nan.

Inductive rounded_pos (s : bool) : float -> Prop :=
| rp_finite m e : emin64 <= e -> rounded_pos s (S754_finite s m e)
| rp_inf : rounded_pos s (S754_infinity s).

(** [0.0 < f], for a float whose exponent is in range. *)
Definition positive_float (f : float) : Prop := rounded_pos false f.

(** The result is not [ZeroDivisionError]. *)
Definition no_zde {A} (r : result A) : Prop := r <> Raise ZeroDivisionError.

(** The exceptions a result may be: [allowed] lists them. *)
Definition raises_only {A} (allowed : list exn) (r : result A) : Prop :=
  forall e, r = Raise e -> e ∈ allowed.

(** The exceptions of the conversions between integers and floats. *)
Definition conversion_errors : list exn := [OverflowError; ValueError].

(** A finite float in normal form: its mantissa has 53 bits and its
    exponent is in range. *)
Definition normal (m : positive) (e : Z) : Prop :=
  Z.pos (digits2_pos m) = prec /\ emin64 <= e <= emax - prec.

End Py.

Notation "x <- e1 ;; e2" := (Py.bind e1 (fun x => e2))
  (at level 100, e1 at next level, right associativity).

(** The absolute box [{left, top, width, height}] every renderer gets. *)
Record geom : Set := Geom { left : Z; top : Z; width : Z; height : Z }.

(** ** tools/utils.py *)

Module Utils.
Import Py.

(** [int(total_emu * (pct / 100.0))] *)
Definition pct_to_emu (pct : num) (total_emu : Z) : result Z :=
  p <- to_float pct ;;
  q <- fdiv p f100_0 ;;
  v <- mul_int_float total_emu q ;;
  int_of_float v.

(** The percent box [{x, y, w, h}]. *)
Record pos_pct : Set := PosPct { x : num; y : num; w : num; h : num }.

Definition parse_geom (pos : pos_pct) (slide_width slide_height : Z)
  : result geom :=
  l <- pct_to_emu (x pos) slide_width ;;
  t <- pct_to_emu (y pos) slide_height ;;
  wd <- pct_to_emu (w pos) slide_width ;;
  ht <- pct_to_emu (h pos) slide_height ;;
  Ok (Geom l t wd ht).

(** [round(parent_extent * pct / 100)], the conversion as the
    specification words it: the product is formed first, the quotient is
    rounded to the nearest integer. *)
Definition round_to_nearest (pct : num) (extent : Z) : result Z :=
  match pct with
  | Int p => q <- int_truediv (extent * p) 100 ;; round q
  | Float f => v <- mul_int_float extent f ;; q <- fdiv v f100_0 ;; round q
  end.

(** [0 <= pct <= 100] *)
Definition in_percent_range (pct : num) : bool :=
  match pct with
  | Int p => (0 <=? p) && (p <=? 100)
  | Float f => fle fzero f && fle f f100_0
  end.

(** [r] is the float product [extent * (pct / 100.0)] cut down to an
    integer: [r <= product < r + 1] on the exact values. *)
Definition truncated (pct : num) (extent r : Z) : Prop :=
  exists p q v,
    to_float pct = Ok p /\ fdiv p f100_0 = Ok q /\
    mul_int_float extent q = Ok v /\
    0 <= r /\ (inject_Z r <= to_Q v /\ to_Q v < inject_Z r + 1)%Q.

(** A percent box on a 16:9 slide (9144000 x 5143500 EMU). *)
Definition example_pos : pos_pct :=
  PosPct (Int 10) (Int 20) (Float (lit 333 10)) (Int 50).

(** The percent box that covers its parent. *)
Definition full_pos : pos_pct := PosPct (Int 0) (Int 0) (Int 100) (Int 100).

End Utils.

(** ** tools/renderers/decompose_boxes.py *)

Module DecomposeBoxes.
Import Py.

(** A node of the tree as [render] sees it after [model_dump]: a dict
    with [name], possibly [weight] ([None] when the key is absent) and
    [children] ([None] and the empty list are not told apart by the
    renderer). *)
Inductive node : Set :=
| Node (name : string) (weight : option num) (children : list node).

Definition name (nd : node) : string :=
  match nd with Node s _ _ => s end.
Definition weight (nd : node) : option num :=
  match nd with Node _ wt _ => wt end.
Definition children (nd : node) : list node :=
  match nd with Node _ _ chs => chs end.

(** [data.root] is one node or a list of top-level nodes. *)
Inductive root : Set :=
| Single (nd : node)
| Roots (nds : list node).

Record schema : Set :=
  Schema { data_root : root; column_headers : option (list string) }.

(** [DecomposeBoxNode] has the fields [name] and [children] only.  A
    node that went through the schema has no [weight] when [render]
    turns it into a dict with [model_dump()] (lines 21-33), whatever
    the document gave it.  A node that is handed to [render] as a plain
    dict is kept as it is, and may have one. *)
Fixpoint model_dump (nd : node) : node :=
  match nd with
  | Node s _ chs => Node s None (List.map model_dump chs)
  end.

(** The payload of a component as [render_presentation] passes it on,
    validated by [DecomposeBoxesSchema]. *)
Definition validated (data : schema) : schema :=
  Schema (match data_root data with
          | Single nd => Single (model_dump nd)
          | Roots nds => Roots (List.map model_dump nds)
          end)
         (column_headers data).

Definition col_gap_pct : float := Eval vm_compute in lit 3 100.
Definition row_gap_pct : float := Eval vm_compute in lit 1 100.
Definition header_band_pct : float := Eval vm_compute in lit 8 100.
Definition first_col_ratio : float := Eval vm_compute in lit 2 10.

Fixpoint depth (nd : node) : nat :=
  match nd with
  | Node _ _ chs =>
      match chs with
      | [] => 0%nat
      | _ => S (list_max (List.map depth chs))
      end
  end.

Definition depth_root (r : root) : nat :=
  match r with
  | Single nd => depth nd
  | Roots nds => list_max (List.map depth nds)
  end.

(** One entry of [boxes]: [(node, col, x, y, w, h)]. *)
Record box : Set :=
  Box { b_node : node; b_col : nat; b_x : Z; b_y : Z; b_w : Z; b_h : Z }.

(** The variables of [render] that its inner functions close over. *)
Record env : Set :=
  Env { e_left : Z;
        col_widths : list Z;
        col_gap : Z;
        cols : nat;
        content_top : Z;
        content_h : Z;
        gap_y : Z }.

Definition index {A} (l : list A) (i : nat) : result A :=
  match l !! i with
  | Some a => Ok a
  | None => Raise IndexError
  end.

Fixpoint col_x_loop (E : env) (idx : list nat) (x : Z) : result Z :=
  match idx with
  | [] => Ok x
  | i :: rest =>
      wi <- index (col_widths E) i ;;
      col_x_loop E rest (x + wi + col_gap E)
  end.

Definition col_x (E : env) (c : nat) : result Z :=
  match c with
  | O => Ok (e_left E)
  | _ =>
      w0 <- index (col_widths E) 0 ;;
      col_x_loop E (seq 1 (c - 1)) (e_left E + w0 + col_gap E)
  end.

Definition col_width (E : env) (c : nat) : result Z :=
  if (c <? length (col_widths E))%nat then index (col_widths E) c
  else
    match col_widths E with
    | [] => Raise IndexError
    | _ => index (col_widths E) (length (col_widths E) - 1)
    end.

(** [[float(ch.get("weight", 1.0)) for ch in children]] *)
Definition weight_of (ch : node) : result float :=
  match weight ch with
  | None => Ok f1_0
  | Some v => to_float v
  end.

Fixpoint weights_of (chs : list node) : result (list float) :=
  match chs with
  | [] => Ok []
  | ch :: rest =>
      wt <- weight_of ch ;;
      wts <- weights_of rest ;;
      Ok (wt :: wts)
  end.

(** [sum(wi for wi in weights if wi > 0) or float(n)] *)
Definition total_weight (weights : list float) (n : nat) : result float :=
  let s := sum_positive weights in
  if is_zero s then float_of_int (Z.of_nat n) else Ok s.

(** [usable] and [local_gap] of a level of extent [h] with [n]
    siblings. *)
Definition usable_extent (E : env) (h : Z) (n : nat) : Z :=
  let usable := h - gap_y E * (Z.of_nat n - 1) in
  if usable <? 0 then h else usable.

Definition local_gap (E : env) (h : Z) (n : nat) : Z :=
  let usable := h - gap_y E * (Z.of_nat n - 1) in
  if usable <? 0 then 0 else gap_y E.

(** [frac = (wi / total_w) if total_w > 0 else (1.0 / n)] with
    [wi = max(weights[i], 0.0)]. *)
Definition frac_of (weights : list float) (total_w : float) (n i : nat)
  : result float :=
  wt <- index weights i ;;
  let wi := max_with_zero wt in
  if flt fzero total_w then fdiv wi total_w
  else (nf <- float_of_int (Z.of_nat n) ;; fdiv f1_0 nf).

(** [int(round(usable * frac))] *)
Definition rounded_share (usable : Z) (frac : float) : result Z :=
  v <- mul_int_float usable frac ;;
  round v.

Section Siblings.
(** The loop over siblings, which [layout] runs over the children of
    a node (lines 157-169) and [render] over a list of roots (lines
    187-197, with column 0, [content_top] and [content_h]).  [lay] is
    the recursive call. *)
Variable lay : node -> nat -> Z -> Z -> Z -> Z -> list box ->
               result (list box).
Variable E : env.
Variable child_col : nat.
Variables y h : Z.
Variable n : nat.
Variable weights : list float.
Variable total_w : float.
Variables usable gap : Z.

Fixpoint place (i : nat) (sibs : list node) (cursor_y : Z)
  (boxes : list box) {struct sibs} : result (list box) :=
  match sibs with
  | [] => Ok boxes
  | ch :: rest =>
      frac <- frac_of weights total_w n i ;;
      ch_h <- (if (i <? n - 1)%nat then rounded_share usable frac
               else Ok (y + h - cursor_y)) ;;
      child_x <- col_x E child_col ;;
      cw <- col_width E child_col ;;
      boxes' <- lay ch child_col child_x cursor_y cw ch_h boxes ;;
      place (S i) rest
        (cursor_y + ch_h + (if (i <? n - 1)%nat then gap else 0))
        boxes'
  end.
End Siblings.

Definition siblings
  (lay : node -> nat -> Z -> Z -> Z -> Z -> list box -> result (list box))
  (E : env) (child_col : nat) (y h : Z) (sibs : list node)
  (boxes : list box) : result (list box) :=
  let n := length sibs in
  weights <- weights_of sibs ;;
  total_w <- total_weight weights n ;;
  place lay E child_col y h n weights total_w
    (usable_extent E h n) (local_gap E h n) 0 sibs y boxes.

Fixpoint layout (E : env) (nd : node) (col : nat) (x y w h : Z)
  (boxes : list box) {struct nd} : result (list box) :=
  let y := Z.max y (content_top E) in
  let bottom := content_top E + content_h E in
  let h := Z.min h (bottom - y) in
  let boxes := boxes ++ [Box nd col x y w h] in
  match nd with
  | Node _ _ chs =>
      match chs with
      | [] => Ok boxes
      | _ =>
          siblings (layout E) E (Nat.min (col + 1) (cols E - 1)) y h chs
            boxes
      end
  end.

Definition truthy_headers (hs : option (list string)) : bool :=
  match hs with
  | Some (_ :: _) => true
  | _ => false
  end.

(** [int(z * pct)] *)
Definition int_scaled (z : Z) (pct : float) : result Z :=
  v <- mul_int_float z pct ;;
  int_of_float v.

(** The geometry [render] computes before it lays the tree out. *)
Definition make_env (data : schema) (g : geom) : result env :=
  let cols := S (depth_root (data_root data)) in
  col_gap <- (if (1 <? cols)%nat then int_scaled (width g) col_gap_pct
              else Ok 0) ;;
  let total_col_gaps := col_gap * (Z.of_nat cols - 1) in
  col_widths <-
    (if (1 <? cols)%nat then
       let remaining_width := width g - total_col_gaps in
       first_col_w <- int_scaled remaining_width first_col_ratio ;;
       let other_col_w :=
         (remaining_width - first_col_w) / (Z.of_nat cols - 1) in
       Ok (first_col_w :: repeat other_col_w (cols - 1))
     else Ok [width g]) ;;
  header_h <- (if truthy_headers (column_headers data)
               then int_scaled (height g) header_band_pct
               else Ok 0) ;;
  gap_y <- int_scaled (height g) row_gap_pct ;;
  Ok (Env (left g) col_widths col_gap cols
        (top g + header_h) (height g - header_h) gap_y).

(** [render]: the boxes, in the order in which [add_box] draws them.
    The header text boxes and the fill, font and corner settings of
    the shapes are not part of the model. *)
Definition render (data : schema) (g : geom) : result (list box) :=
  E <- make_env data g ;;
  match data_root data with
  | Roots nds =>
      match nds with
      | [] => Ok []
      | _ => siblings (layout E) E 0 (content_top E) (content_h E) nds []
      end
  | Single nd =>
      x0 <- col_x E 0 ;;
      w0 <- col_width E 0 ;;
      layout E nd 0 x0 (content_top E) w0 (content_h E) []
  end.

(** *** The calls of the sibling loop

    [record_call] stands for the recursive call and only records its
    arguments, so that [sibling_calls] is the list of the calls
    [layout(ch, child_col, child_x, cursor_y, col_width, ch_h)] the loop
    makes, in order; [replay] runs a list of calls. *)
Definition record_call (ch : node) (col : nat) (x y w h : Z)
  (boxes : list box) : result (list box) :=
  Ok (boxes ++ [Box ch col x y w h]).

Definition sibling_calls (E : env) (child_col : nat) (y h : Z)
  (sibs : list node) : result (list box) :=
  siblings record_call E child_col y h sibs [].

Fixpoint replay
  (lay : node -> nat -> Z -> Z -> Z -> Z -> list box -> result (list box))
  (calls : list box) (boxes : list box) : result (list box) :=
  match calls with
  | [] => Ok boxes
  | c :: rest =>
      boxes' <- lay (b_node c) (b_col c) (b_x c) (b_y c) (b_w c) (b_h c)
                  boxes ;;
      replay lay rest boxes'
  end.

Definition sumZ (l : list Z) : Z := fold_right Z.add 0 l.
Definition heights (calls : list box) : list Z := List.map b_h calls.

(** The partition of a level of extent [h] that starts at [y]: sibling
    [k] starts where the extents and gaps before it end; each sibling
    but the last gets [int(round(usable * frac))]; the last one gets what
    remains; extents and gaps add up to [h]. *)
Definition level_ok (E : env) (y h : Z) (sibs : list node)
  (calls : list box) : Prop :=
  let n := length sibs in
  let gap := local_gap E h n in
  let usable := usable_extent E h n in
  exists weights total_w,
    weights_of sibs = Ok weights /\
    total_weight weights n = Ok total_w /\
    length calls = n /\
    (forall k b, calls !! k = Some b ->
       sibs !! k = Some (b_node b) /\
       b_y b = y + sumZ (take k (heights calls)) + gap * Z.of_nat k /\
       ((k < n - 1)%nat ->
        exists frac, frac_of weights total_w n k = Ok frac /\
                     rounded_share usable frac = Ok (b_h b)) /\
       (k = (n - 1)%nat -> b_h b = y + h - b_y b)) /\
    sumZ (heights calls) + gap * (Z.of_nat n - 1) = h.

(** The same partition with [usable] and the gaps as the specification
    states them for every level: always [h - gap_y * (n - 1)] and
    [gap_y]. *)
Definition stated_shares (E : env) (h : Z) (sibs : list node)
  (calls : list box) : Prop :=
  let n := length sibs in
  let usable := h - gap_y E * (Z.of_nat n - 1) in
  exists weights total_w,
    weights_of sibs = Ok weights /\
    total_weight weights n = Ok total_w /\
    forall k b, calls !! k = Some b -> (k < n - 1)%nat ->
      exists frac, frac_of weights total_w n k = Ok frac /\
                   rounded_share usable frac = Ok (b_h b).

Definition stated_sum (E : env) (h : Z) (sibs : list node)
  (calls : list box) : Prop :=
  sumZ (heights calls) + gap_y E * (Z.of_nat (length sibs) - 1) = h.

(** The specification's reading of a level whose gaps are dropped: no
    sibling is given a negative extent. *)
Definition no_negative_extent (calls : list box) : Prop :=
  Forall (fun b => 0 <= b_h b) calls.

(** The vertical content band. *)
Definition in_band (E : env) (b : box) : Prop :=
  content_top E <= b_y b /\ b_y b + b_h b <= content_top E + content_h E.

(** The same geometry with no gap between siblings. *)
Definition without_gap (E : env) : env :=
  Env (e_left E) (col_widths E) (col_gap E) (cols E) (content_top E)
    (content_h E) 0.

(** A weight given as a float is a canonical binary64 value. *)
Definition weight_wf (ch : node) : bool :=
  match weight ch with
  | Some (Float f) => wf f
  | _ => true
  end.

(** The specification's reading of a weight that is not positive: the
    share it is given is still a positive fraction. *)
Definition positive_floor (sibs : list node) : Prop :=
  forall ws t k w frac,
    weights_of sibs = Ok ws -> total_weight ws (length sibs) = Ok t ->
    ws !! k = Some w -> fle w fzero = true ->
    frac_of ws t (length sibs) k = Ok frac -> flt fzero frac = true.

(** *** Example trees *)
Definition leaf (s : string) : node := Node s None [].

Definition example_roots : schema :=
  Schema (Roots [Node "A" (Some (Int 1)) [leaf "a1"; leaf "a2"];
                 Node "B" (Some (Int 197)) []]) None.
Definition example_geom : geom := Geom 0 0 1000 1000.
Definition example_env : env := Env 0 [194; 776] 30 2 0 1000 10.

Definition seven : node :=
  Node "R" None [leaf "1"; leaf "2"; leaf "3"; leaf "4"; leaf "5"; leaf "6";
                 leaf "7"].
Definition seven_env : env := Env 0 [9; 40] 1 2 0 11 0.

Definition zero_weighted : node :=
  Node "R" None [Node "z" (Some (Int 0)) []; leaf "2"].

(** 102 roots without weights in a component 100 high, where the gap
    is 1, and the calls the root loop makes for them. *)
Definition crowded : list node := repeat (leaf "r") 102.
Definition crowded_env : env := Env 0 [100] 0 1 0 100 1.
Definition crowded_calls : list box :=
  List.map (fun k => Box (leaf "r") 0 0 (Z.of_nat k) 100 1) (seq 0 101)
  ++ [Box (leaf "r") 0 0 101 100 (-1)].

(** *** What the boxes are checked against *)

(** The nodes of a tree in the order of a depth-first walk, parents
    before children, each with its depth below the node the walk
    starts from, counted from [d]. *)
Fixpoint preorder_at (d : nat) (nd : node) : list (node * nat) :=
  match nd with
  | Node _ _ chs => (nd, d) :: flat_map (preorder_at (S d)) chs
  end.

Definition drawn (r : root) : list (node * nat) :=
  match r with
  | Single nd => preorder_at 0 nd
  | Roots nds => flat_map (preorder_at 0) nds
  end.

(** What [add_box] is given for a box: its node and its column. *)
Definition placed (b : box) : node * nat := (b_node b, b_col b).

(** The box is at the position and has the width of its column. *)
Definition in_column (E : env) (b : box) : Prop :=
  col_x E (b_col b) = Ok (b_x b) /\ col_width E (b_col b) = Ok (b_w b).

(** The box starts at the top edge of the component or below it, and
    [y + h], where it ends, is at the bottom edge or above it.  A box
    whose height is negative may then start below the bottom edge. *)
Definition inside (g : geom) (b : box) : Prop :=
  top g <= b_y b /\ b_y b + b_h b <= top g + height g.

(** Both edges of the box are between the top and the bottom edge of
    the component. *)
Definition within (g : geom) (b : box) : Prop :=
  top g <= b_y b <= top g + height g /\
  top g <= b_y b + b_h b <= top g + height g.

(** The boxes drawn for [seven] in a component 50 wide and 11 high. *)
Definition seven_geom : geom := Geom 0 0 50 11.
Definition seven_boxes : list box :=
  [Box seven 0 0 0 9 11; Box (leaf "1") 1 10 0 40 2;
   Box (leaf "2") 1 10 2 40 2; Box (leaf "3") 1 10 4 40 2;
   Box (leaf "4") 1 10 6 40 2; Box (leaf "5") 1 10 8 40 2;
   Box (leaf "6") 1 10 10 40 1; Box (leaf "7") 1 10 12 40 (-1)].

(** The geometry has a width for each of its columns, and at least one
    column. *)
Definition columns_ok (E : env) : Prop :=
  (0 < cols E)%nat /\ length (col_widths E) = cols E.

End DecomposeBoxes.

(** ** tools/renderers/component_diagram.py *)

Module ComponentDiagram.
Import Py.

(** The percent box of a node ([Position], four floats). *)
Record position : Set :=
  Position { rel_x : float; rel_y : float; rel_w : float; rel_h : float }.

(** The absolute box [{"x", "y", "w", "h"}] of a node. *)
Record node_geom : Set := NodeGeom { x : Z; y : Z; w : Z; h : Z }.

(** [int(extent * (pct / 100.0))] *)
Definition rel_part (extent : Z) (pct : float) : result Z :=
  q <- fdiv pct f100_0 ;;
  v <- mul_int_float extent q ;;
  int_of_float v.

Definition _rel_to_abs (g : geom) (rel : position) : result node_geom :=
  dx <- rel_part (width g) (rel_x rel) ;;
  dy <- rel_part (height g) (rel_y rel) ;;
  aw <- rel_part (width g) (rel_w rel) ;;
  ah <- rel_part (height g) (rel_h rel) ;;
  Ok (NodeGeom (left g + dx) (top g + dy) aw ah).

Inductive connector : Set := STRAIGHT | ELBOW.

Definition point : Set := (num * num)%type.

(** What the router returns:
    [((start_xy, end_xy), (begin_site, end_site), connector_type)],
    sites being 0 = top, 1 = left, 2 = bottom, 3 = right. *)
Definition routing : Set := ((point * point) * (nat * nat) * connector)%type.

(** [z + a / 2]: the centre coordinate of a box side. *)
Definition centre (z a : Z) : result float :=
  half <- int_truediv a 2 ;;
  add_int_float z half.

Definition _calc_conn_points_and_sites (from_g to_g : node_geom)
  (margin : Z) : result routing :=
  let fx := x from_g in let fy := y from_g in
  let fw := w from_g in let fh := h from_g in
  let tx := x to_g in let ty := y to_g in
  let tw := w to_g in let th := h to_g in
  let f_left := fx in let f_right := fx + fw in
  let f_top := fy in let f_bottom := fy + fh in
  let t_left := tx in let t_right := tx + tw in
  let t_top := ty in let t_bottom := ty + th in
  fc_x <- centre fx fw ;;
  fc_y <- centre fy fh ;;
  tc_x <- centre tx tw ;;
  tc_y <- centre ty th ;;
  let dx := fabs (fsub tc_x fc_x) in
  let dy := fabs (fsub tc_y fc_y) in
  quarter_h <- int_truediv (fh + th) 4 ;;
  let is_horizontal_aligned := flt dy quarter_h in
  quarter_w <- int_truediv (fw + tw) 4 ;;
  let is_vertical_aligned := flt dx quarter_w in
  if is_horizontal_aligned
     && ((f_right <=? t_left) || (t_right <=? f_left))
  then
    if f_right <=? t_left then
      Ok (((Int (f_right + margin), Float fc_y),
           (Int (t_left - margin), Float tc_y)), (3, 1)%nat, STRAIGHT)
    else
      Ok (((Int (f_left - margin), Float fc_y),
           (Int (t_right + margin), Float tc_y)), (1, 3)%nat, STRAIGHT)
  else if is_vertical_aligned
          && ((f_bottom <=? t_top) || (t_bottom <=? f_top))
  then
    if f_bottom <=? t_top then
      Ok (((Float fc_x, Int (f_bottom + margin)),
           (Float tc_x, Int (t_top - margin))), (2, 0)%nat, STRAIGHT)
    else
      Ok (((Float fc_x, Int (f_top - margin)),
           (Float tc_x, Int (t_bottom + margin))), (0, 2)%nat, STRAIGHT)
  else if fle dy dx then
    if flt fc_x tc_x then
      Ok (((Float fc_x, Float fc_y), (Float tc_x, Float tc_y)),
          (3, 1)%nat, ELBOW)
    else
      Ok (((Float fc_x, Float fc_y), (Float tc_x, Float tc_y)),
          (1, 3)%nat, ELBOW)
  else
    if flt fc_y tc_y then
      Ok (((Float fc_x, Float fc_y), (Float tc_x, Float tc_y)),
          (2, 0)%nat, ELBOW)
    else
      Ok (((Float fc_x, Float fc_y), (Float tc_x, Float tc_y)),
          (0, 2)%nat, ELBOW).

(** The symmetry the specification states for a pair of boxes: a
    straight route from [A] to [B] is the straight route from [B] to
    [A] with the sites mirrored and the end points exchanged. *)
Definition mirrored (A B : node_geom) (margin : Z) : Prop :=
  forall start stop site_a site_b,
    _calc_conn_points_and_sites A B margin =
      Ok ((start, stop), (site_a, site_b), STRAIGHT) ->
    _calc_conn_points_and_sites B A margin =
      Ok ((stop, start), (site_b, site_a), STRAIGHT).

(** The centres of two boxes coincide (on the exact values). *)
Definition same_centre (A B : node_geom) : Prop :=
  2 * x A + w A = 2 * x B + w B /\ 2 * y A + h A = 2 * y B + h B.

(** Nodes of zero width in a component of 1000 by 1000, as
    [_rel_to_abs] gives them for [w: 0]: [thin_b] is [thin_a] moved
    down, [thin_c] has the centre of [thin_a]. *)
Definition thin_a : node_geom := NodeGeom 100 100 0 200.
Definition thin_b : node_geom := NodeGeom 100 105 0 200.
Definition thin_c : node_geom := NodeGeom 100 150 0 100.

(** The four pairs of sites the router knows: right to left, left to
    right, bottom to top and top to bottom. *)
Definition site_pairs : list (nat * nat) :=
  [(3, 1); (1, 3); (2, 0); (0, 2)]%nat.

(** What a straight connector is: it leaves the side of the first box
    that faces the second one, which lies wholly beyond that side, and
    runs between the two facing sides at the heights (or abscissas) of
    the centres. *)
Definition straight_between (A B : node_geom) (margin : Z)
  (start stop : point) (sites : nat * nat) : Prop :=
  exists ax ay bx by_,
    centre (x A) (w A) = Ok ax /\ centre (y A) (h A) = Ok ay /\
    centre (x B) (w B) = Ok bx /\ centre (y B) (h B) = Ok by_ /\
    ((sites = (3, 1)%nat /\ x A + w A <= x B /\
      start = (Int (x A + w A + margin), Float ay) /\
      stop = (Int (x B - margin), Float by_)) \/
     (sites = (1, 3)%nat /\ x B + w B <= x A /\
      start = (Int (x A - margin), Float ay) /\
      stop = (Int (x B + w B + margin), Float by_)) \/
     (sites = (2, 0)%nat /\ y A + h A <= y B /\
      start = (Float ax, Int (y A + h A + margin)) /\
      stop = (Float bx, Int (y B - margin))) \/
     (sites = (0, 2)%nat /\ y B + h B <= y A /\
      start = (Float ax, Int (y A - margin)) /\
      stop = (Float bx, Int (y B + h B + margin)))).

(** An elbow connector runs from centre to centre. *)
Definition elbow_between (A B : node_geom) (start stop : point)
  (sites : nat * nat) : Prop :=
  exists ax ay bx by_,
    centre (x A) (w A) = Ok ax /\ centre (y A) (h A) = Ok ay /\
    centre (x B) (w B) = Ok bx /\ centre (y B) (h B) = Ok by_ /\
    start = (Float ax, Float ay) /\ stop = (Float bx, Float by_) /\
    sites ∈ site_pairs.

(** The interiors of the boxes meet. *)
Definition overlap (A B : node_geom) : Prop :=
  x A < x B + w B /\ x B < x A + w A /\
  y A < y B + h B /\ y B < y A + h A.

(** The percent box that covers its parent. *)
Definition full_position : position := Position fzero fzero f100_0 f100_0.

End ComponentDiagram.

(** ** render.py *)

(** A value loaded from YAML.  Mappings are keyed by strings. *)
Inductive value : Type :=
| VNone
| VBool (b : bool)
| VInt (z : Z)
| VFloat (f : Py.float)
| VStr (s : string)
| VList (l : list value)
| VDict (d : gmap string value).

Module Render.
Import Py.

(** *** IR normalizer *)

Definition is_dict (v : value) : bool :=
  match v with VDict _ => true | _ => false end.

Definition is_list (v : value) : bool :=
  match v with VList _ => true | _ => false end.

(** [key in d] for a value that is known to be a dict *)
Definition has_key (k : string) (v : value) : bool :=
  match v with
  | VDict d => bool_decide (is_Some (d !! k))
  | _ => false
  end.

Definition _mk_min (slides : value) : value :=
  VDict (<["version" := VInt 1]>
          (<["meta" := VDict ∅]>
            (<["theme" := VDict ∅]>
              (<["slides" := slides]> ∅)))).

(** [{"id": "auto_1", "background": "#FFFFFF", "components": ir}] *)
Definition wrap_components (comps : value) : value :=
  VDict (<["id" := VStr "auto_1"]>
          (<["background" := VStr "#FFFFFF"]>
            (<["components" := comps]> ∅))).

(** [d.setdefault(k, v)] *)
Definition setdefault (k : string) (v : value) (d : gmap string value)
  : gmap string value :=
  match d !! k with
  | Some _ => d
  | None => <[k := v]> d
  end.

(** [d.get(k, v)] *)
Definition get_default (k : string) (v : value) (d : gmap string value)
  : value :=
  match d !! k with
  | Some u => u
  | None => v
  end.

Definition _normalize_ir (ir : value) : result value :=
  match ir with
  | VList l =>
      match l with
      | first :: _ =>
          if forallb is_dict l then
            if has_key "tool" first || has_key "components" first then
              if has_key "tool" first then
                Ok (_mk_min (VList [wrap_components ir]))
              else Ok (_mk_min ir)
            else Ok (_mk_min (VList [wrap_components ir]))
          else Ok (_mk_min (VList [wrap_components ir]))
      | [] => Ok (_mk_min (VList [wrap_components ir]))
      end
  | VDict d =>
      let d := setdefault "version" (VInt 1) d in
      let d := setdefault "meta" (VDict ∅) d in
      let d := setdefault "theme" (VDict ∅) d in
      match d !! "slides" with
      | Some _ => Ok (VDict d)
      | None =>
          match d !! "components" with
          | Some comps =>
              let slide :=
                VDict (<["id" := get_default "id" (VStr "auto_1") d]>
                        (<["background" :=
                             get_default "background" (VStr "#FFFFFF") d]>
                          (<["layout" := get_default "layout" VNone d]>
                            (<["components" := comps]> ∅)))) in
              Ok (VDict (<["slides" := VList [slide]]> d))
          | None => Ok (VDict (<["slides" := VList []]> d))
          end
      end
  | _ => Raise TypeError
  end.

(** *** The slides and components the orchestrator iterates over

    The records follow [presentation_schema.py]; [None] stands for an
    absent key.  The keys the loop itself never reads ([pos],
    [style], ...) stay in [c_extra], for the layout resolver. *)
Record component : Type :=
  Component { c_tool : option string;
              c_id : option string;
              c_anchor : option string;
              c_z_index : option Z;
              c_data : option value;
              c_group : option bool;
              c_extra : gmap string value }.

Record slide_spec : Type :=
  SlideSpec { s_title : option string;
              s_components : list component;
              s_extra : gmap string value }.

(** Truthiness of an optional string: present and not empty. *)
Definition truthy (o : option string) : option string :=
  match o with
  | Some s => if String.eqb s "" then None else Some s
  | None => None
  end.

Definition is_title_tool (comp : component) : bool :=
  match c_tool comp with
  | Some t => String.eqb t "slide_title"
  | None => false
  end.

Definition auto_title_comp (slide_title : string) : component :=
  Component (Some "slide_title") (Some "auto_title") (Some "title")
    (Some (-1000)) (Some (VDict (<["title" := VStr slide_title]> ∅)))
    None ∅.

(** Lines 321-338: the component list of a slide, with the title
    component put in front when the slide has a title and no
    [slide_title] component of its own. *)
Definition inject_title (spec : slide_spec) : list component :=
  let components := s_components spec in
  match truthy (s_title spec) with
  | Some slide_title =>
      if existsb is_title_tool components then components
      else auto_title_comp slide_title :: components
  | None => components
  end.

Definition z_of (comp : component) : Z :=
  match c_z_index comp with
  | Some z => z
  | None => 0
  end.

(** [sorted(components, key=lambda c: c.get("z_index", 0))]: a stable
    sort, here by insertion (a component goes before the first one
    whose key is not smaller, so equal keys keep their order). *)
Fixpoint insert_by_z (c : component) (sorted : list component)
  : list component :=
  match sorted with
  | [] => [c]
  | d :: rest =>
      if z_of c <=? z_of d then c :: sorted
      else d :: insert_by_z c rest
  end.

Fixpoint sort_by_z (comps : list component) : list component :=
  match comps with
  | [] => []
  | c :: rest => insert_by_z c (sort_by_z rest)
  end.

(** *** Shapes and the registry *)

Inductive shape : Set :=
| Shape (shape_id : Z) (box : geom) (members : option (list shape)).

Definition shape_id (sh : shape) : Z :=
  match sh with Shape i _ _ => i end.
Definition shape_box (sh : shape) : geom :=
  match sh with Shape _ b _ => b end.
Definition members (sh : shape) : option (list shape) :=
  match sh with Shape _ _ m => m end.

Record entry : Set :=
  Entry { tool : string;
          shape_ids : list Z;
          bbox : option geom;
          is_group : bool }.

Record slide_state : Type :=
  SlideState { shapes : list shape; registry : gmap string entry }.

Definition _snapshot_ids (shs : list shape) : list Z :=
  List.map shape_id shs.

Definition _new_shapes (shs : list shape) (before_ids : list Z)
  : list shape :=
  List.filter (fun sh => negb (existsb (Z.eqb (shape_id sh)) before_ids))
    shs.

Definition min_list (d : Z) (l : list Z) : Z := fold_right Z.min d l.
Definition max_list (d : Z) (l : list Z) : Z := fold_right Z.max d l.

Definition _bbox (shs : list shape) : option geom :=
  match shs with
  | [] => None
  | s0 :: _ =>
      let b0 := shape_box s0 in
      let lefts := List.map (fun s => left (shape_box s)) shs in
      let tops := List.map (fun s => top (shape_box s)) shs in
      let rights :=
        List.map (fun s => left (shape_box s) + width (shape_box s)) shs in
      let bottoms :=
        List.map (fun s => top (shape_box s) + height (shape_box s)) shs in
      let l := min_list (left b0) lefts in
      let t := min_list (top b0) tops in
      Some (Geom l t
              (max_list (left b0 + width b0) rights - l)
              (max_list (top b0 + height b0) bottoms - t))
  end.

Fixpoint max_shape_id (sh : shape) : Z :=
  match sh with
  | Shape i _ m =>
      match m with
      | None => i
      | Some ms => fold_right (fun s acc => Z.max (max_shape_id s) acc) i ms
      end
  end.

(** [_add_group_shape_compat]: a new, empty group at the end of the
    shape list; the shape library numbers it one above the largest id
    in use, and the shape tree of the slide itself has the id 1. *)
Definition _add_group_shape_compat (shs : list shape) (g : geom)
  : list shape * Z :=
  let gid := 1 + fold_right (fun s acc => Z.max (max_shape_id s) acc) 1 shs in
  (shs ++ [Shape gid g (Some [])], gid).

Definition member_ids (shs : list shape) (gid : Z) : list Z :=
  match List.find (fun sh => Z.eqb (shape_id sh) gid) shs with
  | Some (Shape _ _ (Some ms)) => List.map shape_id ms
  | _ => []
  end.

Section Orchestrator.
(** The collaborators of the loop: the modules found by name
    ([load_schema], [load_renderer], [load_tool]), schema
    validation, the layout resolver and the renderers.  A renderer
    changes the shapes of the slide and may raise; it gets the id of
    the group it is to draw into, if any.  No renderer of the
    repository writes to the registry. *)
Variable schema_class : Type.
Variable model : Type.
Variable tool_module : Type.

Inductive payload : Type :=
| Validated (m : model)
| Unvalidated (raw : value).

Record outcome : Type :=
  Outcome { shapes_after : list shape; raised : bool }.

Variable load_schema : string -> option schema_class.
Variable load_renderer : string -> option tool_module.
Variable load_tool : string -> option tool_module.
Variable validate : schema_class -> value -> option model.
Variable resolve : slide_spec -> component -> result geom.
Variable tool_render :
  tool_module -> payload -> geom -> option Z -> list shape -> outcome.

(** Lines 423-487: the [try] block. *)
Definition dispatch (spec : slide_spec) (comp : component)
  (tool_name comp_id : string) (tl : tool_module) (data : payload)
  (st : slide_state) : slide_state :=
  match resolve spec comp with
  | Raise _ => st
  | Ok g =>
      let use_group :=
        if String.eqb tool_name "table" then false
        else match c_group comp with
             | Some b => b
             | None => true
             end in
      if use_group then
        let '(shs, gid) := _add_group_shape_compat (shapes st) g in
        let out := tool_render tl data g (Some gid) shs in
        if raised out then SlideState (shapes_after out) (registry st)
        else
          SlideState (shapes_after out)
            (<[comp_id :=
                 Entry tool_name
                   (gid :: member_ids (shapes_after out) gid)
                   (Some g) true]> (registry st))
      else
        let before_ids := _snapshot_ids (shapes st) in
        let out := tool_render tl data g None (shapes st) in
        if raised out then SlideState (shapes_after out) (registry st)
        else
          let new_shapes := _new_shapes (shapes_after out) before_ids in
          SlideState (shapes_after out)
            (<[comp_id :=
                 Entry tool_name (List.map shape_id new_shapes)
                   (_bbox new_shapes) false]> (registry st))
  end.

Definition comp_id_of (comp : component) (tool_name : string)
  (slide_idx comp_idx : nat) : string :=
  match truthy (c_id comp) with
  | Some i => i
  | None =>
      tool_name +:+ "_" +:+ pretty slide_idx +:+ "_" +:+ pretty comp_idx
  end.

Definition raw_data (comp : component) : value :=
  match c_data comp with
  | Some d => d
  | None => VDict ∅
  end.

(** Lines 369-487: the body of the loop over the components. *)
Definition render_component (spec : slide_spec)
  (slide_idx comp_idx : nat) (comp : component) (st : slide_state)
  : slide_state :=
  match truthy (c_tool comp) with
  | None => st
  | Some tool_name =>
      let comp_id := comp_id_of comp tool_name slide_idx comp_idx in
      match load_schema tool_name with
      | None =>
          match load_tool tool_name with
          | None => st
          | Some tl =>
              dispatch spec comp tool_name comp_id tl
                (Unvalidated (raw_data comp)) st
          end
      | Some sc =>
          match validate sc (raw_data comp) with
          | None => st
          | Some validated_data =>
              match load_renderer tool_name with
              | None =>
                  match load_tool tool_name with
                  | None => st
                  | Some tl =>
                      dispatch spec comp tool_name comp_id tl
                        (Validated validated_data) st
                  end
              | Some tl =>
                  dispatch spec comp tool_name comp_id tl
                    (Validated validated_data) st
              end
          end
      end
  end.

(** [for comp_idx, comp in enumerate(components, start=...)] *)
Fixpoint render_components (spec : slide_spec) (slide_idx comp_idx : nat)
  (comps : list component) (st : slide_state) : slide_state :=
  match comps with
  | [] => st
  | comp :: rest =>
      render_components spec slide_idx (S comp_idx) rest
        (render_component spec slide_idx comp_idx comp st)
  end.

(** The schema of the component's tool is found and rejects its data. *)
Definition validation_fails (comp : component) : Prop :=
  exists tool_name sc,
    truthy (c_tool comp) = Some tool_name /\
    load_schema tool_name = Some sc /\
    validate sc (raw_data comp) = None.

(** The component is validated, resolved and drawn without error. *)
Definition renders (spec : slide_spec) (comp : component)
  (tool_name : string) : Prop :=
  exists sc m tl g,
    truthy (c_tool comp) = Some tool_name /\
    load_schema tool_name = Some sc /\
    validate sc (raw_data comp) = Some m /\
    load_renderer tool_name = Some tl /\
    resolve spec comp = Ok g /\
    forall group shs, raised (tool_render tl (Validated m) g group shs)
                      = false.

(** The component is given up before anything is drawn: the schema of
    its tool rejects its data, or the resolver finds no box for it. *)
Definition given_up (spec : slide_spec) (comp : component) : Prop :=
  validation_fails comp \/ exists e, resolve spec comp = Raise e.

(** The component does not write under [key]: it is given up, or the
    key it writes under, if it has a tool, is another one. *)
Definition leaves_key (spec : slide_spec) (key : string)
  (slide_idx comp_idx : nat) (comp : component) : Prop :=
  given_up spec comp \/
  forall tool_name, truthy (c_tool comp) = Some tool_name ->
    comp_id_of comp tool_name slide_idx comp_idx <> key.

(** One turn of the loop over the slides: a fresh blank slide, the
    title component, the z-order and the components. *)
Definition render_slide (slide_idx : nat) (spec : slide_spec)
  : slide_state :=
  let components := sort_by_z (inject_title spec) in
  render_components spec slide_idx 1 components (SlideState [] ∅).

Fixpoint render_slides (slide_idx : nat) (specs : list slide_spec)
  : list slide_state :=
  match specs with
  | [] => []
  | spec :: rest =>
      render_slide slide_idx spec :: render_slides (S slide_idx) rest
  end.

(** The slides of [render_presentation], numbered from 1. *)
Definition render_presentation (specs : list slide_spec)
  : list slide_state :=
  render_slides 1 specs.

End Orchestrator.

Definition top_level_keys : list string :=
  ["version"; "meta"; "theme"; "slides"].

(** *** A slide with one valid and one broken component

    Collaborators for the scenario of the specification: the schema of
    ["valid"] accepts every payload, the schema of ["broken"] rejects
    every payload, both tools have a renderer that draws one shape. *)
Definition demo_load_schema (tool_name : string) : option bool :=
  if String.eqb tool_name "valid" then Some true
  else if String.eqb tool_name "broken" then Some false
  else None.

Definition demo_load_module (tool_name : string) : option unit :=
  if String.eqb tool_name "valid" then Some tt
  else if String.eqb tool_name "broken" then Some tt
  else None.

Definition demo_validate (accepts : bool) (raw : value) : option value :=
  if accepts then Some raw else None.

Definition demo_resolve (spec : slide_spec) (comp : component)
  : result geom := Ok (Geom 0 0 100 100).

Definition demo_render (tl : unit) (data : payload value) (g : geom)
  (group : option Z) (shs : list shape) : outcome :=
  Outcome (shs ++ [Shape 99 g None]) false.

Definition valid_comp : component :=
  Component (Some "valid") None None (Some 1) None None ∅.
Definition broken_comp : component :=
  Component (Some "broken") None None (Some 0) None None ∅.
Definition demo_slide : slide_spec :=
  SlideSpec None [valid_comp; broken_comp] ∅.

Definition q1_slide : slide_spec := SlideSpec (Some "Q1 Results") [] ∅.

(** Four components, three of them with the id ["hero"]: a group, a
    component with [group: false], one whose data is rejected, and a
    component without id. *)
Definition hero_group : component :=
  Component (Some "valid") (Some "hero") None None None None ∅.
Definition hero_flat : component :=
  Component (Some "valid") (Some "hero") None None None (Some false) ∅.
Definition hero_broken : component :=
  Component (Some "broken") (Some "hero") None None None None ∅.
Definition stale_entry : entry := Entry "old" [7] None false.

(** *** What the loop is checked against *)

(** The components of a list whose key is [z], in the order of the
    list. *)
Definition with_z (z : Z) (comps : list component) : list component :=
  List.filter (fun c => z_of c =? z) comps.

(** The right and the bottom edge of a shape. *)
Definition shape_right (sh : shape) : Z :=
  left (shape_box sh) + width (shape_box sh).
Definition shape_bottom (sh : shape) : Z :=
  top (shape_box sh) + height (shape_box sh).

(** The box [g] holds the shape. *)
Definition encloses (g : geom) (sh : shape) : Prop :=
  left g <= left (shape_box sh) /\ shape_right sh <= left g + width g /\
  top g <= top (shape_box sh) /\
  shape_bottom sh <= top g + height g.

Section Written.
Variable resolve : slide_spec -> component -> result geom.
(** What the loop writes for a component: the entry names the tool; a
    group entry has the resolved box as its bounding box and is not
    written for a table or with [group: false]. *)
Definition written_for (spec : slide_spec) (comp : component)
  (tool_name : string) (e : entry) : Prop :=
  truthy (c_tool comp) = Some tool_name /\
  tool e = tool_name /\
  exists g, resolve spec comp = Ok g /\
    if is_group e
    then bbox e = Some g /\ tool_name <> "table" /\
         c_group comp <> Some false
    else tool_name = "table" \/ c_group comp = Some false.

End Written.

End Render.

(** ** Python strings

    A [str] is the sequence of its code points; the strings of this
    development are those whose code points are below 256, one
    character of a Rocq string each. *)
Module PyStr.
Import Py Strings.Ascii.

(** [ord(c)] *)
Definition ord (c : ascii) : Z := Z.of_nat (nat_of_ascii c).

(** The characters [int()] skips around a number: the ASCII white
    space and, of the other characters below 256, the two that are
    white space. *)
Definition is_int_space (c : ascii) : bool :=
  let n := ord c in
  ((9 <=? n) && (n <=? 13)) || (n =? 32) || (n =? 133) || (n =? 160).

(** The value of a digit of base 16. *)
Definition hex_value (c : ascii) : option Z :=
  let n := ord c in
  if (48 <=? n) && (n <=? 57) then Some (n - 48)
  else if (97 <=? n) && (n <=? 102) then Some (n - 87)
  else if (65 <=? n) && (n <=? 70) then Some (n - 55)
  else None.

Fixpoint skip_spaces (s : string) : string :=
  match s with
  | String c r => if is_int_space c then skip_spaces r else s
  | EmptyString => s
  end.

(** The digits of a number, with single underscores between them: the
    value, the number of digits and what follows them; [None] for two
    underscores in a row or an underscore at the end. *)
Fixpoint scan_digits (s : string) (after_underscore : bool) (acc : Z)
  (digits : nat) : option (Z * nat * string) :=
  match s with
  | String c r =>
      if Ascii.eqb c "_" then
        if after_underscore then None else scan_digits r true acc digits
      else
        match hex_value c with
        | Some d => scan_digits r false (16 * acc + d) (S digits)
        | None => if after_underscore then None else Some (acc, digits, s)
        end
  | EmptyString => if after_underscore then None else Some (acc, digits, s)
  end.

Definition skip_sign (s : string) : bool * string :=
  match s with
  | String "+" r => (false, r)
  | String "-" r => (true, r)
  | _ => (false, s)
  end.

(** [0x] or [0X], and one underscore after it. *)
Definition skip_prefix (s : string) : string :=
  match s with
  | String "0" (String c r) =>
      if Ascii.eqb c "x" || Ascii.eqb c "X" then
        match r with
        | String "_" r' => r'
        | _ => r
        end
      else s
  | _ => s
  end.

(** [int(s, 16)] *)
Definition int_base16 (s : string) : result Z :=
  let '(negative, s1) := skip_sign (skip_spaces s) in
  let s2 := skip_prefix s1 in
  match s2 with
  | String "_" _ => Raise ValueError
  | _ =>
      match scan_digits s2 false 0 0 with
      | Some (v, S _, rest) =>
          match skip_spaces rest with
          | EmptyString => Ok (if negative then - v else v)
          | _ => Raise ValueError
          end
      | _ => Raise ValueError
      end
  end.

(** [s.lstrip("#")] *)
Fixpoint lstrip_hash (s : string) : string :=
  match s with
  | String "#" r => lstrip_hash r
  | _ => s
  end.

(** [s[i:j]] for [0 <= i <= j] *)
Definition slice (s : string) (i j : nat) : string := String.substring i (j - i) s.

(** The digit [d] of base 16, in upper case. *)
Definition hex_digit (d : Z) : ascii :=
  ascii_of_nat (Z.to_nat (if d <? 10 then 48 + d else 55 + d)).

(** [format(v, "02X")] for [0 <= v <= 255] *)
Definition format_02X (v : Z) : string :=
  String (hex_digit (v / 16)) (String (hex_digit (v mod 16)) EmptyString).

(** White space as [str.strip] sees it, among the characters below
    256. *)
Definition is_space (c : ascii) : bool :=
  let n := ord c in
  ((9 <=? n) && (n <=? 13)) || ((28 <=? n) && (n <=? 32))
  || (n =? 133) || (n =? 160).

Fixpoint lstrip (s : string) : string :=
  match s with
  | String c r => if is_space c then lstrip r else s
  | EmptyString => s
  end.

Fixpoint rstrip (s : string) : string :=
  match s with
  | String c r =>
      match rstrip r with
      | EmptyString => if is_space c then EmptyString
                       else String c EmptyString
      | r' => String c r'
      end
  | EmptyString => s
  end.

(** [s.strip()] *)
Definition strip (s : string) : string := rstrip (lstrip s).

Fixpoint map_chars (f : ascii -> ascii) (s : string) : string :=
  match s with
  | String c r => String (f c) (map_chars f r)
  | EmptyString => s
  end.

(** [s.replace(old, new)] for single characters *)
Definition replace_char (old new : ascii) (s : string) : string :=
  map_chars (fun c => if Ascii.eqb c old then new else c) s.

(** [s.lower()]: the letters [A-Z] and the upper-case letters between
    192 and 222 move up by 32. *)
Definition lower_char (c : ascii) : ascii :=
  let n := ord c in
  if ((65 <=? n) && (n <=? 90))
     || ((192 <=? n) && (n <=? 222) && negb (n =? 215))
  then ascii_of_nat (Z.to_nat (n + 32)) else c.

Definition lower (s : string) : string := map_chars lower_char s.

(** [all(p(c) for c in s)] *)
Fixpoint all_chars (p : ascii -> bool) (s : string) : bool :=
  match s with
  | String c r => p c && all_chars p r
  | EmptyString => true
  end.

(** The class [[0-9a-zA-Z_]] *)
Definition is_word_char (c : ascii) : bool :=
  let n := ord c in
  ((48 <=? n) && (n <=? 57)) || ((97 <=? n) && (n <=? 122))
  || ((65 <=? n) && (n <=? 90)) || (n =? 95).

End PyStr.

(** ** tools/utils.py: colours *)

Module Colors.
Import Py PyStr Strings.Ascii.

Definition rgb : Set := (Z * Z * Z)%type.

Definition hex_to_rgb (hex_color : string) : result rgb :=
  let hex_color := lstrip_hash hex_color in
  r <- int_base16 (slice hex_color 0 2) ;;
  g <- int_base16 (slice hex_color 2 4) ;;
  b <- int_base16 (slice hex_color 4 6) ;;
  Ok (r, g, b).

(** [int(x)] *)
Definition to_int (x : num) : result Z :=
  match x with
  | Int z => Ok z
  | Float f => int_of_float f
  end.

(** [max(0, min(255, v))] *)
Definition clamp_byte (v : Z) : Z := Z.max 0 (Z.min 255 v).

Definition rgb_to_hex (r g b : num) : result string :=
  r' <- to_int r ;;
  g' <- to_int g ;;
  b' <- to_int b ;;
  Ok ("#" +:+ format_02X (clamp_byte r') +:+ format_02X (clamp_byte g')
          +:+ format_02X (clamp_byte b')).

(** A colour as [rgb_to_hex] writes it: [#] and six digits of base
    16 in upper case. *)
Definition is_upper_hex (c : ascii) : bool :=
  let n := ord c in
  ((48 <=? n) && (n <=? 57)) || ((65 <=? n) && (n <=? 70)).

Definition well_formed (s : string) : bool :=
  match s with
  | String "#" r => (String.length r =? 6)%nat && all_chars is_upper_hex r
  | _ => false
  end.

(** Six digits of base 16, in either case, and the same digits in upper
    case. *)
Definition is_hex_digit (c : ascii) : bool :=
  match hex_value c with Some _ => true | None => false end.

Definition is_hex6 (s : string) : bool :=
  (String.length s =? 6)%nat && all_chars is_hex_digit s.

Definition upper_digit (c : ascii) : ascii :=
  match hex_value c with
  | Some d => hex_digit d
  | None => c
  end.

(** A shade of grey, [v] on each channel. *)
Definition grey (v : Z) : string :=
  "#" +:+ format_02X v +:+ format_02X v +:+ format_02X v.

(** Only [#] characters. *)
Definition hashes (s : string) : bool :=
  all_chars (fun c => Ascii.eqb c "#") s.

(** [factor >= 0] *)
Definition ge_zero (x : num) : bool :=
  match x with
  | Int k => 0 <=? k
  | Float f => fle fzero f
  end.

(** [_blend] of [tint_color]:
    [max(0, min(255, int(round(c + (toward - c) * abs(factor)))))] *)
Definition _blend (factor : num) (c toward : Z) : result Z :=
  v <- match factor with
       | Int k => Ok (c + (toward - c) * Z.abs k)
       | Float f =>
           x <- mul_int_float (toward - c) (fabs f) ;;
           s <- add_int_float c x ;;
           round s
       end ;;
  Ok (clamp_byte v).

Definition tint_color (hex_color : string) (factor : num) : result string :=
  let hex_color := lstrip_hash hex_color in
  r <- int_base16 (slice hex_color 0 2) ;;
  g <- int_base16 (slice hex_color 2 4) ;;
  b <- int_base16 (slice hex_color 4 6) ;;
  let toward := if ge_zero factor then 255 else 0 in
  nr <- _blend factor r toward ;;
  ng <- _blend factor g toward ;;
  nb <- _blend factor b toward ;;
  rgb_to_hex (Int nr) (Int ng) (Int nb).

(** [c + (255 - c) * ratio] *)
Definition toward_white (ratio : num) (c : Z) : result num :=
  match ratio with
  | Int k => Ok (Int (c + (255 - c) * k))
  | Float f =>
      x <- mul_int_float (255 - c) f ;;
      s <- add_int_float c x ;;
      Ok (Float s)
  end.

Definition mix_with_white (hex_color : string) (ratio : num)
  : result string :=
  channels <- hex_to_rgb hex_color ;;
  let '(r, g, b) := channels in
  r' <- toward_white ratio r ;;
  g' <- toward_white ratio g ;;
  b' <- toward_white ratio b ;;
  rgb_to_hex r' g' b'.

(** [f * z] with the integer on the right. *)
Definition mul_float_int (f : float) (z : Z) : result float :=
  x <- float_of_int z ;; Ok (fmul f x).

Definition black : rgb := (0, 0, 0).
Definition white : rgb := (255, 255, 255).

(** [get_contrast_color]: the [RGBColor] it returns is the triple of
    its channels. *)
Definition get_contrast_color (hex_bg_color : string) : result rgb :=
  channels <- hex_to_rgb hex_bg_color ;;
  let '(r, g, b) := channels in
  lr <- mul_float_int (lit 2126 10000) r ;;
  lg <- mul_float_int (lit 7152 10000) g ;;
  lb <- mul_float_int (lit 722 10000) b ;;
  f255 <- float_of_int 255 ;;
  luminance <- fdiv (fadd (fadd lr lg) lb) f255 ;;
  if flt (lit 5 10) luminance then Ok black else Ok white.

(** *** Checks that are run over all characters or all channel values *)

(** Two digits of base 16 are read as their value, and written back
    in upper case. *)
Definition pair_ok (a b : ascii) : bool :=
  if is_hex_digit a && is_hex_digit b then
    match int_base16 (String a (String b EmptyString)) with
    | Ok v =>
        (0 <=? v) && (v <=? 255)
        && String.eqb (format_02X v)
             (String (upper_digit a) (String (upper_digit b) EmptyString))
    | Raise _ => false
    end
  else true.

(** The value read from a string is between -15 and 255. *)
Definition short_ok (s : string) : bool :=
  match int_base16 s with
  | Ok v => (-15 <=? v) && (v <=? 255)
  | Raise _ => true
  end.

(** The result is the integer [v]. *)
Definition res_is (r : result Z) (v : Z) : bool :=
  match r with Ok u => u =? v | Raise _ => false end.

(** The result is a number that [int()] turns into [v]. *)
Definition num_is (r : result num) (v : Z) : bool :=
  match r with
  | Ok x => res_is (to_int x) v
  | Raise _ => false
  end.

(** The conversion succeeds. *)
Definition has_float (r : result float) : bool :=
  match r with Ok _ => true | Raise _ => false end.

(** The contrast colour of a grey is black from 128 on. *)
Definition grey_ok (v : Z) : bool :=
  match get_contrast_color (grey v) with
  | Ok c =>
      match c with
      | (r, g, b) =>
          if 128 <=? v then (r =? 0) && (g =? 0) && (b =? 0)
          else (r =? 255) && (g =? 255) && (b =? 255)
      end
  | Raise _ => false
  end.

End Colors.

(** ** tools/renderers/weighted_process_timeline.py *)

Module WeightedProcessTimeline.
Import Py.

Definition light_colors : list string :=
  ["#E3F2FD"; "#E8F5E8"; "#FFF9E1"; "#FFEBEE"; "#F3E5F5"; "#FFF3E0"].

(** [lane_color] is the [color] of the lane, [None] when it has
    none. *)
Definition _get_lane_color (lane_color : option string) (lane_idx : nat)
  : result string :=
  match lane_color with
  | Some (String c r) => Ok (String c r)
  | _ => DecomposeBoxes.index light_colors (lane_idx mod length light_colors)
  end.

End WeightedProcessTimeline.

(** ** render.py: module names *)

Module Loader.
Import PyStr Strings.Ascii.

(** [_sanitize_module_name] of [render.py]; [name or ""] is the
    empty string for [None]. *)
Definition _sanitize_module_name (name : option string) : string :=
  let n := strip (match name with
                  | Some s => s
                  | None => EmptyString
                  end) in
  let n := replace_char " " "_" (replace_char "-" "_" n) in
  let n := map_chars (fun c => if is_word_char c then c else "_"%char) n in
  lower n.

(** The characters of a sanitized name: digits, lower-case letters
    and the underscore. *)
Definition is_module_char (c : ascii) : bool :=
  let n := ord c in
  ((48 <=? n) && (n <=? 57)) || ((97 <=? n) && (n <=? 122)) || (n =? 95).

End Loader.

(** * Properties *)

Import Py.

(** ** Binary64 arithmetic *)

Section FloatFacts.

Lemma bind_ok {A B} (r : result A) (k : A -> result B) b :
  (x <- r ;; k x) = Ok b <-> exists a, r = Ok a /\ k a = Ok b.
Proof.
  destruct r; simpl; split.
  - eauto.
  - intros (a' & [= ->] & H). exact H.
  - discriminate.
  - intros (a' & [=] & _).
Qed.

Lemma binary_round_aux_signed s m e l :
  signed_as s (binary_round_aux prec emax s m e l).
Proof.
  unfold binary_round_aux.
  destruct (shr_fexp prec emax m e l) as [mrs' e'].
  destruct (shr_fexp prec emax _ e' loc_Exact) as [mrs'' e''].
  destruct (shr_m mrs''); [constructor | | constructor].
  destruct (e'' <=? emax - prec); constructor.
Qed.

Lemma binary_round_aux_abs s s' m e l :
  SFabs (binary_round_aux prec emax s m e l) =
  SFabs (binary_round_aux prec emax s' m e l).
Proof.
  unfold binary_round_aux.
  destruct (shr_fexp prec emax m e l) as [mrs' e'].
  destruct (shr_fexp prec emax _ e' loc_Exact) as [mrs'' e''].
  destruct (shr_m mrs''); [reflexivity| |reflexivity].
  destruct (e'' <=? emax - prec); reflexivity.
Qed.

(** One step of the right shift halves the mantissa. *)
Lemma shr_1_m mrs : 0 <= shr_m mrs -> shr_m (shr_1 mrs) = shr_m mrs / 2.
Proof.
  destruct mrs as [m r s]. simpl. intros Hm.
  destruct m as [|p|p]; [reflexivity | | lia].
  destruct p; simpl.
  - rewrite Pos2Z.inj_xI. apply Z.div_unique with 1; lia.
  - rewrite Pos2Z.inj_xO. apply Z.div_unique with 0; lia.
  - reflexivity.
Qed.

Lemma iter_pos_shr_1_m n : forall mrs,
  0 <= shr_m mrs ->
  shr_m (SpecFloat.iter_pos shr_1 n mrs) = shr_m mrs / 2 ^ Z.pos n.
Proof.
  induction n as [n IH|n IH|]; intros mrs Hm; simpl SpecFloat.iter_pos.
  - assert (H1 : 0 <= shr_m (shr_1 mrs))
      by (rewrite shr_1_m by lia; apply Z.div_pos; lia).
    assert (H2 : 0 <= shr_m (SpecFloat.iter_pos shr_1 n (shr_1 mrs)))
      by (rewrite IH by lia; apply Z.div_pos; lia).
    rewrite IH, IH, shr_1_m by lia.
    rewrite !Z.div_div by lia. f_equal.
    change (Z.pos n~1) with (2 * Z.pos n + 1).
    rewrite <- Z.pow_add_r by lia.
    rewrite <- (Z.pow_1_r 2) at 1.
    rewrite <- Z.pow_add_r by lia. f_equal. lia.
  - assert (H2 : 0 <= shr_m (SpecFloat.iter_pos shr_1 n mrs))
      by (rewrite IH by lia; apply Z.div_pos; lia).
    rewrite IH, IH by lia.
    rewrite !Z.div_div by lia. f_equal.
    change (Z.pos n~0) with (2 * Z.pos n).
    rewrite <- Z.pow_add_r by lia. f_equal. lia.
  - rewrite shr_1_m by lia. reflexivity.
Qed.

Lemma digits2_pos_lower p : 2 ^ (Z.pos (digits2_pos p) - 1) <= Z.pos p.
Proof.
  induction p as [p IH|p IH|]; simpl digits2_pos.
  - rewrite Pos2Z.inj_succ.
    replace (Z.succ (Z.pos (digits2_pos p)) - 1)
      with (Z.succ (Z.pos (digits2_pos p) - 1)) by lia.
    rewrite Z.pow_succ_r by lia. lia.
  - rewrite Pos2Z.inj_succ.
    replace (Z.succ (Z.pos (digits2_pos p)) - 1)
      with (Z.succ (Z.pos (digits2_pos p) - 1)) by lia.
    rewrite Z.pow_succ_r by lia. lia.
  - simpl. lia.
Qed.

Lemma shr_record_of_loc_m m l : shr_m (shr_record_of_loc m l) = m.
Proof. destruct l as [|[]]; reflexivity. Qed.

(** A positive mantissa whose exponent is in range keeps a positive
    mantissa when it is shifted into the format. *)
Lemma shr_fexp_pos m e l :
  0 < m -> emin64 <= e ->
  0 < shr_m (fst (shr_fexp prec emax m e l)) /\
  emin64 <= snd (shr_fexp prec emax m e l).
Proof.
  intros Hm He. unfold shr_fexp, shr.
  destruct m as [|p|p]; try lia. simpl Zdigits2.
  pose proof (digits2_pos_lower p) as Hd.
  set (d := Z.pos (digits2_pos p)) in *.
  assert (Hd1 : 1 <= d) by (unfold d; lia).
  destruct (fexp prec emax (d + e) - e) as [|n|n] eqn:Hn; simpl fst; simpl snd.
  - rewrite shr_record_of_loc_m. lia.
  - rewrite iter_pos_shr_1_m by (rewrite shr_record_of_loc_m; lia).
    rewrite shr_record_of_loc_m.
    unfold fexp, emin64, SpecFloat.emin, prec, emax in *.
    assert (Hn' : Z.pos n = d - 53) by lia.
    split; [|lia].
    apply Z.div_str_pos. split; [apply Z.pow_pos_nonneg; lia|].
    eapply Z.le_trans; [|exact Hd].
    apply Z.pow_le_mono_r; lia.
  - rewrite shr_record_of_loc_m. lia.
Qed.

Lemma round_nearest_even_ge m l : m <= round_nearest_even m l.
Proof.
  unfold round_nearest_even. destruct l as [|[]]; try lia.
  destruct (Z.even m); lia.
Qed.

Lemma binary_round_aux_pos s m e l :
  0 < m -> emin64 <= e -> rounded_pos s (binary_round_aux prec emax s m e l).
Proof.
  intros Hm He. unfold binary_round_aux.
  pose proof (shr_fexp_pos m e l Hm He) as [H1 H2].
  destruct (shr_fexp prec emax m e l) as [mrs' e']. simpl in H1, H2.
  pose proof (round_nearest_even_ge (shr_m mrs') (loc_of_shr_record mrs'))
    as Hr.
  set (m1 := round_nearest_even (shr_m mrs') (loc_of_shr_record mrs')) in *.
  assert (Hm1 : 0 < m1) by lia.
  pose proof (shr_fexp_pos m1 e' loc_Exact Hm1 H2) as [H3 H4].
  destruct (shr_fexp prec emax m1 e' loc_Exact) as [mrs'' e''].
  simpl in H3, H4.
  destruct (shr_m mrs'') as [|q|q]; try lia.
  destruct (e'' <=? emax - prec); constructor. exact H4.
Qed.

Lemma binary_round_pos s p e :
  emin64 <= e -> rounded_pos s (binary_round prec emax s p e).
Proof.
  intros He. unfold binary_round.
  destruct (shl_align p e (fexp prec emax (Z.pos (digits2_pos p) + e)))
    as [mz ez] eqn:Hs.
  apply binary_round_aux_pos; [lia|].
  unfold shl_align in Hs.
  assert (Hf : emin64 <= fexp prec emax (Z.pos (digits2_pos p) + e))
    by (unfold fexp, emin64; lia).
  destruct (fexp prec emax (Z.pos (digits2_pos p) + e) - e);
    injection Hs as <- <-; lia.
Qed.

(** [float(z)] is a zero or a finite value with the sign of [z]. *)
Lemma float_of_int_cases z f :
  float_of_int z = Ok f ->
  match z with
  | Z0 => f = fzero
  | Z.pos _ => exists m e, f = S754_finite false m e /\ emin64 <= e
  | Z.neg _ => exists m e, f = S754_finite true m e /\ emin64 <= e
  end.
Proof.
  unfold float_of_int, binary_normalize.
  assert (H0 : emin64 <= 0)
    by (unfold emin64, SpecFloat.emin, prec, emax; lia).
  destruct z as [|p|p].
  - intros [= <-]. reflexivity.
  - destruct (binary_round_pos false p 0 H0) as [m e He|];
      [intros [= <-]; eauto | discriminate].
  - destruct (binary_round_pos true p 0 H0) as [m e He|];
      [intros [= <-]; eauto | discriminate].
Qed.

Lemma float_of_int_raises z e : float_of_int z = Raise e -> e = OverflowError.
Proof.
  unfold float_of_int.
  destruct (binary_normalize prec emax z 0 false); congruence.
Qed.

Lemma float_of_int_nonneg z f :
  0 <= z -> float_of_int z = Ok f -> nonneg f = true.
Proof.
  intros Hz H. apply float_of_int_cases in H.
  destruct z; try lia.
  - subst. reflexivity.
  - destruct H as (m & e & -> & _). reflexivity.
Qed.

Lemma float_of_int_exp_ok z f : float_of_int z = Ok f -> exp_ok f.
Proof.
  intros H. apply float_of_int_cases in H.
  destruct z; [subst; exact I| |]; destruct H as (m & e & -> & He); exact He.
Qed.

Lemma wf_exp_ok f : wf f = true -> exp_ok f.
Proof.
  destruct f as [| | |s m e]; simpl; try exact (fun _ => I).
  unfold wf, valid_binary, bounded, canonical_mantissa. intros H.
  apply andb_true_iff in H as [H _]. apply Z.eqb_eq in H.
  unfold fexp in H. unfold emin64. lia.
Qed.

Lemma int_truediv_raises a b e :
  b <> 0 -> int_truediv a b = Raise e -> e = OverflowError.
Proof.
  intros Hb. unfold int_truediv.
  destruct (b =? 0) eqn:Eb; [apply Z.eqb_eq in Eb; contradiction|].
  destruct a; [discriminate| |];
    destruct (SFdiv prec emax _ _); congruence.
Qed.

(** *** Signs *)

Lemma signed_nonneg f : signed_as false f -> nonneg f = true.
Proof. destruct 1; reflexivity. Qed.

Lemma fmul_nonneg x y :
  nonneg x = true -> nonneg y = true -> nonneg (fmul x y) = true.
Proof.
  unfold fmul. intros Hx Hy.
  destruct x as [sx|sx| |sx mx ex], y as [sy|sy| |sy my ey];
    try destruct sx; try destruct sy;
    simpl in *; try reflexivity; try discriminate.
  apply signed_nonneg, binary_round_aux_signed.
Qed.

Lemma SFdiv_nonneg x my ey :
  nonneg x = true ->
  nonneg (SFdiv prec emax x (S754_finite false my ey)) = true.
Proof.
  intros Hx.
  destruct x as [sx|sx| |sx mx ex]; try destruct sx;
    simpl in *; try reflexivity; try discriminate.
  destruct (SFdiv_core_binary prec emax (Z.pos mx) ex (Z.pos my) ey)
    as [[mz ez] lz].
  apply signed_nonneg, binary_round_aux_signed.
Qed.

Lemma SFdiv_nonneg_inf x :
  nonneg x = true -> nonneg (SFdiv prec emax x (S754_infinity false)) = true.
Proof. destruct x as [s|s| |s m e]; try destruct s; simpl; auto. Qed.

Lemma max_with_zero_nonneg w : nonneg (max_with_zero w) = true.
Proof.
  unfold max_with_zero.
  destruct w as [s|s| |s m e]; try destruct s; reflexivity.
Qed.

Lemma max_with_zero_nonpositive w :
  fle w fzero = true -> is_zero (max_with_zero w) = true.
Proof.
  unfold max_with_zero.
  destruct w as [s|s| |s m e]; try destruct s; simpl; auto; discriminate.
Qed.

(** *** Positive values *)

Lemma flt_zero_positive f :
  exp_ok f -> flt fzero f = true -> positive_float f.
Proof.
  destruct f as [s|s| |s m e]; simpl; try discriminate.
  - destruct s; [discriminate|]. constructor.
  - destruct s; [discriminate|]. intros He _. constructor. exact He.
Qed.

Lemma positive_flt_zero f : positive_float f -> flt fzero f = true.
Proof. destruct 1; reflexivity. Qed.

Lemma positive_not_zero f : positive_float f -> is_zero f = false.
Proof. destruct 1; reflexivity. Qed.

(** Adding a positive float to zero or to a positive float gives a
    positive float: a sum of positive weights is never zero. *)
Lemma fadd_positive x y :
  x = fzero \/ positive_float x -> positive_float y ->
  positive_float (fadd x y).
Proof.
  intros [-> | Hx] Hy.
  - destruct Hy; simpl; constructor; assumption.
  - destruct Hx as [mx ex Hex|], Hy as [my ey Hey|]; simpl;
      try (constructor; assumption).
    unfold fadd, SFadd, cond_Zopp.
    set (ez := Z.min ex ey).
    destruct (shl_align mx ex ez) as [mx' ex'].
    destruct (shl_align my ey ez) as [my' ey']. simpl fst.
    change (Z.pos mx' + Z.pos my') with (Z.pos (mx' + my')).
    unfold binary_normalize. apply binary_round_pos. unfold ez. lia.
Qed.

(** *** Subtraction and absolute value *)

Lemma binary_normalize_opp_abs m e :
  SFabs (binary_normalize prec emax (- m) e false) =
  SFabs (binary_normalize prec emax m e false).
Proof.
  destruct m as [|p|p]; simpl; [reflexivity| |];
    unfold binary_round;
    destruct (shl_align p e _) as [mz ez]; apply binary_round_aux_abs.
Qed.

Lemma fabs_fsub_sym a b : fabs (fsub a b) = fabs (fsub b a).
Proof.
  unfold fabs, fsub.
  destruct a as [sa|sa| |sa ma ea], b as [sb|sb| |sb mb eb];
    try (destruct sa, sb; reflexivity); try reflexivity.
  unfold SFsub. rewrite (Z.min_comm eb ea).
  set (ez := Z.min ea eb).
  set (za := cond_Zopp sa (Z.pos (fst (shl_align ma ea ez)))).
  set (zb := cond_Zopp sb (Z.pos (fst (shl_align mb eb ez)))).
  replace (zb - za) with (- (za - zb)) by lia.
  symmetry. apply binary_normalize_opp_abs.
Qed.

(** *** Conversions to integers *)

Lemma shiftl_floor (m : positive) (e : Z) :
  (inject_Z (Z.shiftl (Z.pos m) e) <= inject_Z (Z.pos m) * Qpower 2 e /\
   inject_Z (Z.pos m) * Qpower 2 e < inject_Z (Z.shiftl (Z.pos m) e) + 1)%Q.
Proof.
  destruct e as [|k|k].
  - rewrite Z.shiftl_0_r. simpl Qpower. split.
    + rewrite Qmult_1_r. apply Qle_refl.
    + rewrite Qmult_1_r. rewrite <- (Qplus_0_r (inject_Z (Z.pos m))) at 1.
      apply Qplus_lt_r. reflexivity.
  - rewrite Z.shiftl_mul_pow2 by lia.
    assert (Hp : (Qpower 2 (Z.pos k) == inject_Z (2 ^ Z.pos k))%Q).
    { rewrite Zpower_Qpower by lia. reflexivity. }
    rewrite Hp, <- inject_Z_mult. split; [apply Qle_refl|].
    rewrite <- (Qplus_0_r (inject_Z _)) at 1. apply Qplus_lt_r. reflexivity.
  - change (Z.shiftl (Z.pos m) (Z.neg k)) with (Z.shiftr (Z.pos m) (Z.pos k)).
    rewrite Z.shiftr_div_pow2 by lia.
    assert (Hd : 0 < 2 ^ Z.pos k) by (apply Z.pow_pos_nonneg; lia).
    assert (Hp : (Qpower 2 (Z.neg k) == / inject_Z (2 ^ Z.pos k))%Q).
    { change (Z.neg k) with (- Z.pos k). rewrite Qpower_opp.
      rewrite Zpower_Qpower by lia. reflexivity. }
    rewrite Hp.
    assert (HdQ : (0 < inject_Z (2 ^ Z.pos k))%Q)
      by (rewrite <- (Zlt_Qlt 0); exact Hd).
    pose proof (Z.mul_div_le (Z.pos m) (2 ^ Z.pos k) Hd) as Hle.
    pose proof (Z.mul_succ_div_gt (Z.pos m) (2 ^ Z.pos k) Hd) as Hgt.
    split.
    + apply Qle_shift_div_l; [exact HdQ|].
      rewrite <- inject_Z_mult, <- Zle_Qle. lia.
    + apply Qlt_shift_div_r; [exact HdQ|].
      change 1%Q with (inject_Z 1).
      rewrite <- inject_Z_plus, <- inject_Z_mult, <- Zlt_Qlt. lia.
Qed.

Lemma int_of_float_floor v r :
  nonneg v = true -> int_of_float v = Ok r ->
  0 <= r /\ (inject_Z r <= to_Q v /\ to_Q v < inject_Z r + 1)%Q.
Proof.
  destruct v as [s|s| |s m e]; simpl; try discriminate.
  - intros _ [= <-]. split; [lia|]. split; [apply Qle_refl | reflexivity].
  - destruct s; [discriminate|]. intros _ [= <-]. simpl cond_Zopp.
    split; [apply Z.shiftl_nonneg; lia | apply shiftl_floor].
Qed.

Lemma round_nat_half_even_nonneg m e : 0 <= round_nat_half_even m e.
Proof.
  unfold round_nat_half_even. destruct e as [|k|k].
  - rewrite Z.shiftl_0_r. lia.
  - apply Z.shiftl_nonneg. lia.
  - assert (Hd : 0 < 2 ^ Z.pos k) by (apply Z.pow_pos_nonneg; lia).
    assert (Hq : 0 <= Z.pos m / 2 ^ Z.pos k) by (apply Z.div_pos; lia).
    destruct (2 * (Z.pos m mod 2 ^ Z.pos k) ?= 2 ^ Z.pos k); try lia.
    destruct (Z.even _); lia.
Qed.

Lemma round_nonneg v r : nonneg v = true -> round v = Ok r -> 0 <= r.
Proof.
  destruct v as [s|s| |s m e]; simpl; try discriminate.
  - intros _ [= <-]. lia.
  - destruct s; [discriminate|]. intros _ [= <-]. simpl.
    apply round_nat_half_even_nonneg.
Qed.

(** *** Results that are not a division by zero *)

Lemma bind_no_zde {A B} (r : result A) (k : A -> result B) :
  no_zde r -> (forall a, r = Ok a -> no_zde (k a)) -> no_zde (x <- r ;; k x).
Proof.
  unfold no_zde. destruct r as [a|e]; simpl; intros H1 H2; [eauto|].
  intros [= ->]. apply H1. reflexivity.
Qed.

Lemma float_of_int_no_zde z : no_zde (float_of_int z).
Proof. intros H. apply float_of_int_raises in H. discriminate. Qed.

Lemma round_no_zde v : no_zde (round v).
Proof. unfold no_zde. destruct v; simpl; discriminate. Qed.

Lemma int_of_float_no_zde v : no_zde (int_of_float v).
Proof. unfold no_zde. destruct v; simpl; discriminate. Qed.

End FloatFacts.

(** ** Percent to absolute conversion ([tools/utils.py]) *)

Section UtilsFacts.
Import Utils.

Lemma in_percent_range_nonneg pct p :
  in_percent_range pct = true -> to_float pct = Ok p -> nonneg p = true.
Proof.
  destruct pct as [z|f]; simpl.
  - intros H. apply andb_true_iff in H as [H _].
    apply float_of_int_nonneg. lia.
  - intros H [= <-]. apply andb_true_iff in H as [H _].
    destruct f as [|[]| |[]]; simpl in *; try reflexivity; discriminate.
Qed.

Lemma pct_to_emu_truncates pct extent r :
  in_percent_range pct = true -> 0 <= extent ->
  pct_to_emu pct extent = Ok r -> truncated pct extent r.
Proof.
  intros Hp He. unfold pct_to_emu.
  destruct (to_float pct) as [p|] eqn:E1; [|discriminate].
  pose proof (in_percent_range_nonneg _ _ Hp E1) as Hn.
  cbn [bind]. unfold fdiv. change (is_zero f100_0) with false.
  cbn [bind]. unfold mul_int_float.
  destruct (float_of_int extent) as [x|] eqn:E2; [|discriminate].
  cbn [bind]. intros E3.
  exists p, (SFdiv prec emax p f100_0), (fmul x (SFdiv prec emax p f100_0)).
  split; [exact E1|]. split; [reflexivity|].
  split; [unfold mul_int_float; rewrite E2; reflexivity|].
  apply int_of_float_floor; [|exact E3].
  apply fmul_nonneg; [eapply float_of_int_nonneg; eauto|].
  apply SFdiv_nonneg. exact Hn.
Qed.

(** C3, as stated, fails: the conversion does not round to the nearest
    integer.  33.3 percent of a slide 9144000 EMU wide is exactly
    3044952 EMU, which is also what [round(parent_extent * pct / 100)]
    gives; [pct_to_emu] returns 3044951.  90 percent of an extent of 1
    is converted to 0, not to 1. *)
Lemma pct_to_emu_not_nearest :
  in_percent_range (Float (lit 333 10)) = true /\
  pct_to_emu (Float (lit 333 10)) 9144000 = Ok 3044951 /\
  round_to_nearest (Float (lit 333 10)) 9144000 = Ok 3044952 /\
  9144000 * 333 = 3044952 * 1000 /\
  in_percent_range (Int 90) = true /\
  pct_to_emu (Int 90) 1 = Ok 0 /\
  round_to_nearest (Int 90) 1 = Ok 1.
Proof. vm_compute. repeat split. Qed.

(** C3, amended: for percent values in [[0, 100]] and non-negative
    parent extents, each of the four fields [left], [top], [width],
    [height] that [parse_geom] returns is the binary64 product
    [parent_extent * (pct / 100.0)] truncated toward zero: the integer
    [r] with [r <= product < r + 1]. *)
Theorem parse_geom_truncates pos W H g :
  in_percent_range (x pos) = true ->
  in_percent_range (y pos) = true ->
  in_percent_range (w pos) = true ->
  in_percent_range (h pos) = true ->
  0 <= W -> 0 <= H ->
  parse_geom pos W H = Ok g ->
  truncated (x pos) W (left g) /\
  truncated (y pos) H (top g) /\
  truncated (w pos) W (width g) /\
  truncated (h pos) H (height g).
Proof.
  intros Hx Hy Hw Hh HW HH. unfold parse_geom.
  destruct (pct_to_emu (x pos) W) as [l|] eqn:El; [|discriminate].
  destruct (pct_to_emu (y pos) H) as [t|] eqn:Et; [|discriminate].
  destruct (pct_to_emu (w pos) W) as [wd|] eqn:Ew; [|discriminate].
  destruct (pct_to_emu (h pos) H) as [ht|] eqn:Eh; [|discriminate].
  cbn [bind]. intros [= <-]. simpl.
  repeat split; apply pct_to_emu_truncates; assumption.
Qed.

Lemma parse_geom_truncates_witness :
  truncated (Int 10) 9144000 914400 /\
  truncated (Int 20) 5143500 1028700 /\
  truncated (Float (lit 333 10)) 9144000 3044951 /\
  truncated (Int 50) 5143500 2571750.
Proof.
  apply (parse_geom_truncates example_pos 9144000 5143500
           (Geom 914400 1028700 3044951 2571750));
    try reflexivity; try lia.
Defined.

End UtilsFacts.

(** ** Weighted partitioning ([tools/renderers/decompose_boxes.py]) *)

Section PartitionFacts.
Import DecomposeBoxes.

(** Induction on a tree, with the property known for every child. *)
Fixpoint node_ind' (P : node -> Prop)
  (Hnode : forall nm wt chs, Forall P chs -> P (Node nm wt chs))
  (nd : node) : P nd :=
  match nd with
  | Node nm wt chs =>
      Hnode nm wt chs
        ((fix go (l : list node) : Forall P l :=
            match l with
            | [] => @Stdlib.Lists.List.Forall_nil _ P
            | c :: r =>
                @Stdlib.Lists.List.Forall_cons _ P c r
                  (node_ind' P Hnode c) (go r)
            end) chs)
  end.

Lemma sumZ_app l1 l2 : sumZ (l1 ++ l2) = sumZ l1 + sumZ l2.
Proof. unfold sumZ. induction l1; simpl; lia. Qed.

Section PlaceFacts.
Variable lay : node -> nat -> Z -> Z -> Z -> Z -> list box ->
               result (list box).
Variable E : env.
Variable child_col : nat.
Variables y h : Z.
Variable n : nat.
Variable weights : list float.
Variable total_w : float.
Variables usable gap : Z.

Local Abbreviation place_rec :=
  (place record_call E child_col y h n weights total_w usable gap).
Local Abbreviation place_lay :=
  (place lay E child_col y h n weights total_w usable gap).

(** The recorded calls do not depend on the boxes already there. *)
Lemma place_record_acc sibs : forall i cursor acc out,
  place_rec i sibs cursor acc = Ok out <->
  exists calls, place_rec i sibs cursor [] = Ok calls /\ out = acc ++ calls.
Proof.
  induction sibs as [|ch rest IH]; intros i cursor acc out; simpl.
  - split.
    + intros [= <-]. exists []. rewrite app_nil_r. auto.
    + intros (calls & [= <-] & ->). rewrite app_nil_r. reflexivity.
  - destruct (frac_of weights total_w n i) as [frac|]; simpl;
      [|split; [discriminate | intros (? & [=] & _)]].
    destruct (if (i <? n - 1)%nat then rounded_share usable frac
              else Ok (y + h - cursor)) as [ch_h|]; simpl;
      [|split; [discriminate | intros (? & [=] & _)]].
    destruct (col_x E child_col) as [cx|]; simpl;
      [|split; [discriminate | intros (? & [=] & _)]].
    destruct (col_width E child_col) as [cw|]; simpl;
      [|split; [discriminate | intros (? & [=] & _)]].
    unfold record_call; simpl. split.
    + intros H. apply IH in H as (calls & Hc & ->).
      exists (Box ch child_col cx cursor cw ch_h :: calls). split.
      * apply IH. eauto.
      * rewrite <- app_assoc. reflexivity.
    + intros (calls & Hc & ->). apply IH in Hc as (calls' & Hc & ->).
      apply IH. exists calls'. split; [exact Hc|].
      rewrite <- app_assoc. reflexivity.
Qed.

(** The loop with the recursive call is the replay of its calls. *)
Lemma place_replay sibs : forall i cursor boxes out,
  place_lay i sibs cursor boxes = Ok out <->
  exists calls, place_rec i sibs cursor [] = Ok calls /\
                replay lay calls boxes = Ok out.
Proof.
  induction sibs as [|ch rest IH]; intros i cursor boxes out; simpl.
  - split.
    + intros [= <-]. exists []. auto.
    + intros (calls & [= <-] & H). exact H.
  - destruct (frac_of weights total_w n i) as [frac|]; simpl;
      [|split; [discriminate | intros (? & [=] & _)]].
    destruct (if (i <? n - 1)%nat then rounded_share usable frac
              else Ok (y + h - cursor)) as [ch_h|]; simpl;
      [|split; [discriminate | intros (? & [=] & _)]].
    destruct (col_x E child_col) as [cx|]; simpl;
      [|split; [discriminate | intros (? & [=] & _)]].
    destruct (col_width E child_col) as [cw|]; simpl;
      [|split; [discriminate | intros (? & [=] & _)]].
    unfold record_call; simpl. split.
    + intros H. apply bind_ok in H as (b1 & Hl & H).
      apply IH in H as (calls & Hc & Hr).
      exists (Box ch child_col cx cursor cw ch_h :: calls). split.
      * apply place_record_acc. eauto.
      * simpl. rewrite Hl. exact Hr.
    + intros (calls & Hc & Hr).
      apply place_record_acc in Hc as (calls' & Hc & ->).
      simpl in Hr. apply bind_ok in Hr as (b1 & Hl & Hr).
      apply bind_ok. exists b1. split; [exact Hl|].
      apply IH. eauto.
Qed.

(** What the loop passes to each call, from index [i] and cursor
    [cursor] on. *)
Lemma place_record_spec sibs : forall i cursor calls,
  (i + length sibs = n)%nat ->
  place_rec i sibs cursor [] = Ok calls ->
  length calls = length sibs /\
  forall k b, calls !! k = Some b ->
    sibs !! k = Some (b_node b) /\ b_col b = child_col /\
    col_x E child_col = Ok (b_x b) /\ col_width E child_col = Ok (b_w b) /\
    b_y b = cursor + sumZ (take k (heights calls)) + gap * Z.of_nat k /\
    ((i + k < n - 1)%nat ->
     exists frac, frac_of weights total_w n (i + k) = Ok frac /\
                  rounded_share usable frac = Ok (b_h b)) /\
    ((i + k)%nat = (n - 1)%nat -> b_h b = y + h - b_y b).
Proof.
  induction sibs as [|ch rest IH]; intros i cursor calls Hn; simpl.
  - intros [= <-]. split; [reflexivity|]. intros k b Hk. discriminate.
  - destruct (frac_of weights total_w n i) as [frac|] eqn:Ef; simpl;
      [|discriminate].
    destruct (if (i <? n - 1)%nat then rounded_share usable frac
              else Ok (y + h - cursor)) as [ch_h|] eqn:Eh; simpl;
      [|discriminate].
    destruct (col_x E child_col) as [cx|] eqn:Ex; simpl; [|discriminate].
    destruct (col_width E child_col) as [cw|] eqn:Ew; simpl; [|discriminate].
    intros Hp. apply place_record_acc in Hp as (calls' & Hp & ->).
    simpl in Hn.
    apply IH in Hp as [Hlen Hspec]; [|lia].
    split; [simpl; lia|].
    intros [|k] b Hk; simpl in Hk.
    + injection Hk as <-. simpl.
      rewrite Nat.add_0_r. repeat split; try reflexivity.
      * unfold sumZ. simpl. lia.
      * intros Hi. apply Nat.ltb_lt in Hi. rewrite Hi in Eh. eauto.
      * intros Hi. assert (Hi' : (i <? n - 1)%nat = false)
          by (apply Nat.ltb_ge; lia).
        rewrite Hi' in Eh. congruence.
    + pose proof (lookup_lt_Some _ _ _ Hk) as Hlt.
      destruct (Hspec k b Hk) as (H1 & H2 & H3 & H4 & H5 & H6 & H7).
      assert (Hi : (i <? n - 1)%nat = true) by (apply Nat.ltb_lt; lia).
      rewrite Hi in H5.
      replace (i + S k)%nat with (S i + k)%nat by lia.
      repeat split; try assumption.
      rewrite H5. unfold sumZ. simpl. lia.
Qed.

End PlaceFacts.

Lemma siblings_replay lay E c y h sibs boxes out :
  siblings lay E c y h sibs boxes = Ok out <->
  exists calls, sibling_calls E c y h sibs = Ok calls /\
                replay lay calls boxes = Ok out.
Proof.
  unfold sibling_calls, siblings.
  destruct (weights_of sibs) as [ws|]; simpl;
    [|split; [discriminate | intros (? & [=] & _)]].
  destruct (total_weight ws (length sibs)) as [t|]; simpl;
    [|split; [discriminate | intros (? & [=] & _)]].
  apply place_replay.
Qed.

(** The calls of a level are its partition. *)
Lemma sibling_calls_level E c y h sibs calls :
  sibs <> [] -> sibling_calls E c y h sibs = Ok calls ->
  level_ok E y h sibs calls.
Proof.
  intros Hne. unfold sibling_calls, siblings, level_ok.
  destruct (weights_of sibs) as [ws|] eqn:Ews; simpl; [|discriminate].
  destruct (total_weight ws (length sibs)) as [t|] eqn:Et; simpl;
    [|discriminate].
  intros Hp. exists ws, t. split; [reflexivity|]. split; [exact Et|].
  apply place_record_spec in Hp as [Hlen Hspec]; [|reflexivity].
  split; [exact Hlen|].
  assert (Hk : forall k b, calls !! k = Some b ->
     sibs !! k = Some (b_node b) /\
     b_y b = y + sumZ (take k (heights calls))
             + local_gap E h (length sibs) * Z.of_nat k /\
     ((k < length sibs - 1)%nat ->
      exists frac, frac_of ws t (length sibs) k = Ok frac /\
        rounded_share (usable_extent E h (length sibs)) frac = Ok (b_h b)) /\
     (k = (length sibs - 1)%nat -> b_h b = y + h - b_y b)).
  { intros k b Hb. destruct (Hspec k b Hb) as (H1 & _ & _ & _ & H5 & H6 & H7).
    simpl in H6, H7. auto. }
  split; [exact Hk|].
  assert (Hn : (0 < length sibs)%nat)
    by (destruct sibs; simpl; [congruence|lia]).
  destruct (lookup_lt_is_Some_2 calls (length sibs - 1)) as [b Hb]; [lia|].
  destruct (Hk _ _ Hb) as (_ & Hy & _ & Hh).
  specialize (Hh eq_refl).
  assert (Hs : heights calls
               = take (length sibs - 1) (heights calls) ++ [b_h b]).
  { unfold heights.
    rewrite <- (take_drop (length sibs - 1) (List.map b_h calls)) at 1.
    f_equal. erewrite drop_S by (rewrite list_lookup_fmap, Hb; reflexivity).
    rewrite drop_ge by (rewrite length_fmap; lia). reflexivity. }
  rewrite Hs at 1. rewrite sumZ_app. unfold sumZ at 2. simpl.
  replace (Z.of_nat (length sibs - 1)) with (Z.of_nat (length sibs) - 1)
    in Hy by lia.
  rewrite Hh, Hy. lia.
Qed.

Lemma sibling_calls_nodes E c y h sibs calls :
  sibling_calls E c y h sibs = Ok calls ->
  Forall (fun b => b_node b ∈ sibs) calls.
Proof.
  destruct sibs as [|s0 sibs'] eqn:Es.
  - unfold sibling_calls, siblings. simpl. intros [= <-]. constructor.
  - rewrite <- Es. intros H.
    apply sibling_calls_level in H; [|subst; discriminate].
    destruct H as (ws & t & _ & _ & _ & Hk & _).
    apply Forall_lookup. intros k b Hb.
    destruct (Hk k b Hb) as (Hs & _). eapply list_elem_of_lookup_2; eauto.
Qed.

(** *** The content band *)

Lemma replay_appends (Q : box -> Prop) lay calls :
  Forall (fun c => forall boxes out,
            lay (b_node c) (b_col c) (b_x c) (b_y c) (b_w c) (b_h c) boxes
            = Ok out ->
            exists new, out = boxes ++ new /\ Forall Q new) calls ->
  forall boxes out, replay lay calls boxes = Ok out ->
  exists new, out = boxes ++ new /\ Forall Q new.
Proof.
  induction 1 as [|c calls Hc Hcs IH]; simpl; intros boxes out.
  - intros [= <-]. exists []. rewrite app_nil_r. auto.
  - intros H. apply bind_ok in H as (b1 & Hl & Hr).
    apply Hc in Hl as (new1 & -> & Hq1).
    apply IH in Hr as (new2 & -> & Hq2).
    exists (new1 ++ new2). rewrite app_assoc. split; [reflexivity|].
    apply Forall_app. auto.
Qed.

(** [layout] appends the clamped box of its node, then boxes that lie
    in the band. *)
Lemma layout_boxes E nd : forall col x y w h boxes out,
  layout E nd col x y w h boxes = Ok out ->
  let y' := Z.max y (content_top E) in
  let h' := Z.min h (content_top E + content_h E - y') in
  exists rest,
    out = boxes ++ Box nd col x y' w h' :: rest /\ Forall (in_band E) rest.
Proof.
  induction nd as [nm wt chs IH] using node_ind'.
  intros col x y w h boxes out. simpl.
  set (y' := Z.max y (content_top E)).
  set (h' := Z.min h (content_top E + content_h E - y')).
  destruct chs as [|ch chs'].
  - intros [= <-]. exists []. split; [reflexivity | constructor].
  - set (chs := ch :: chs') in *. intros H.
    apply siblings_replay in H as (calls & Hc & Hr).
    apply sibling_calls_nodes in Hc.
    eapply (replay_appends (in_band E)) in Hr as (new & -> & Hq).
    + exists new. rewrite <- app_assoc. split; [reflexivity | exact Hq].
    + eapply Forall_impl; [exact Hc|]. intros b Hin bs o Ho. simpl in Hin.
      rewrite Forall_forall in IH.
      apply (IH _ Hin) in Ho as (rest & -> & Hrest).
      eexists. split; [reflexivity|]. constructor; [|exact Hrest].
      unfold in_band. simpl. lia.
Qed.

Lemma layout_in_band E nd col x y w h boxes out :
  layout E nd col x y w h boxes = Ok out ->
  exists new, out = boxes ++ new /\ Forall (in_band E) new.
Proof.
  intros H. apply layout_boxes in H as (rest & -> & Hrest).
  eexists. split; [reflexivity|]. constructor; [|exact Hrest].
  unfold in_band. simpl. lia.
Qed.

(** *** Weights *)

Lemma sum_positive_spec ws :
  Forall exp_ok ws ->
  forall acc, acc = fzero \/ positive_float acc ->
  let s := fold_left (fun acc w => if flt fzero w then fadd acc w else acc)
             ws acc in
  s = fzero \/ positive_float s.
Proof.
  induction 1 as [|w ws Hw Hws IH]; intros acc Hacc; simpl; [exact Hacc|].
  apply IH. destruct (flt fzero w) eqn:Ew; [|exact Hacc].
  right. apply fadd_positive; [exact Hacc|].
  apply flt_zero_positive; assumption.
Qed.

(** [total_w] is positive: the sum of the positive weights, or [n]. *)
Lemma total_weight_positive ws n t :
  Forall exp_ok ws -> (0 < n)%nat ->
  total_weight ws n = Ok t -> positive_float t.
Proof.
  intros Hws Hn. unfold total_weight.
  destruct (sum_positive_spec ws Hws fzero (or_introl eq_refl)) as [H|H];
    fold (sum_positive ws) in H.
  - rewrite H. simpl. intros Ht.
    apply float_of_int_cases in Ht.
    destruct (Z.of_nat n) eqn:En; try lia.
    destruct Ht as (m & e & -> & He). constructor. exact He.
  - rewrite (positive_not_zero _ H). intros [= <-]. exact H.
Qed.

Lemma weights_of_spec sibs : forall ws,
  weights_of sibs = Ok ws ->
  length ws = length sibs /\
  forall k ch, sibs !! k = Some ch ->
    exists w, ws !! k = Some w /\ weight_of ch = Ok w.
Proof.
  induction sibs as [|ch rest IH]; simpl; intros ws.
  - intros [= <-]. split; [reflexivity|]. intros k c Hk. discriminate.
  - destruct (weight_of ch) as [w|] eqn:Ew; simpl; [|discriminate].
    destruct (weights_of rest) as [ws'|]; simpl; [|discriminate].
    intros [= <-]. destruct (IH ws' eq_refl) as [Hl Hs].
    split; [simpl; lia|]. intros [|k] c Hk; simpl in *.
    + injection Hk as <-. eauto.
    + eauto.
Qed.

Lemma weights_of_exp_ok sibs ws :
  forallb weight_wf sibs = true -> weights_of sibs = Ok ws ->
  Forall exp_ok ws.
Proof.
  revert ws. induction sibs as [|ch rest IH]; simpl; intros ws Hwf.
  - intros [= <-]. constructor.
  - apply andb_true_iff in Hwf as [Hc Hr].
    destruct (weight_of ch) as [w|] eqn:Ew; simpl; [|discriminate].
    destruct (weights_of rest) as [ws'|]; simpl; [|discriminate].
    intros [= <-]. constructor; [|apply IH; auto].
    unfold weight_of, weight_wf in *. destruct (weight ch) as [[z|f]|].
    + eapply float_of_int_exp_ok; eauto.
    + injection Ew as <-. apply wf_exp_ok. exact Hc.
    + injection Ew as <-.
      unfold exp_ok, f1_0, emin64, SpecFloat.emin, prec, emax. lia.
Qed.

Lemma frac_of_nonneg ws t n k frac :
  frac_of ws t n k = Ok frac -> nonneg frac = true.
Proof.
  unfold frac_of. destruct (index ws k) as [wt|]; simpl; [|discriminate].
  pose proof (max_with_zero_nonneg wt) as Hw.
  destruct (flt fzero t) eqn:Et.
  - unfold fdiv. destruct (is_zero t); [discriminate|]. intros [= <-].
    destruct t as [s|s| |s m e]; try destruct s; try discriminate.
    + apply SFdiv_nonneg_inf. exact Hw.
    + apply SFdiv_nonneg. exact Hw.
  - destruct (float_of_int (Z.of_nat n)) as [nf|] eqn:En; simpl;
      [|discriminate].
    unfold fdiv. destruct (is_zero nf) eqn:Ez; [discriminate|].
    intros [= <-]. apply float_of_int_nonneg in En as Hn; [|lia].
    destruct nf as [s|s| |s m e]; try destruct s; try discriminate;
      reflexivity || exact (SFdiv_nonneg f1_0 m e eq_refl).
Qed.

Lemma rounded_share_nonneg usable frac r :
  0 <= usable -> nonneg frac = true ->
  rounded_share usable frac = Ok r -> 0 <= r.
Proof.
  intros Hu Hf. unfold rounded_share, mul_int_float.
  destruct (float_of_int usable) as [x|] eqn:Ex; simpl; [|discriminate].
  apply round_nonneg. apply fmul_nonneg; [|exact Hf].
  eapply float_of_int_nonneg; eauto.
Qed.

(** A weight that is not positive gets a share of [0]. *)
Lemma zero_share ws t n k usable frac r w :
  positive_float t -> ws !! k = Some w -> fle w fzero = true ->
  frac_of ws t n k = Ok frac -> rounded_share usable frac = Ok r -> r = 0.
Proof.
  intros Ht Hk Hw. unfold frac_of, index. rewrite Hk. simpl.
  rewrite (positive_flt_zero _ Ht).
  pose proof (max_with_zero_nonpositive w Hw) as Hz.
  destruct (max_with_zero w) as [s| | |]; try discriminate.
  unfold fdiv. rewrite (positive_not_zero _ Ht). intros [= <-].
  unfold rounded_share, mul_int_float.
  destruct (float_of_int usable) as [x|] eqn:Ex; simpl; [|discriminate].
  apply float_of_int_cases in Ex.
  destruct Ht as [mt et _|];
    destruct usable; subst; try destruct Ex as (m & e & -> & _); simpl;
    intros [= <-]; reflexivity.
Qed.

(** *** Gap suppression *)

Lemma col_x_loop_without_gap E idx : forall x,
  col_x_loop (without_gap E) idx x = col_x_loop E idx x.
Proof.
  induction idx as [|i idx IH]; intros x; simpl; [reflexivity|].
  destruct (index (col_widths E) i); simpl; [apply IH | reflexivity].
Qed.

Lemma col_x_without_gap E c : col_x (without_gap E) c = col_x E c.
Proof.
  destruct c; simpl; [reflexivity|].
  destruct (index (col_widths E) 0); simpl; [|reflexivity].
  apply col_x_loop_without_gap.
Qed.

Lemma place_without_gap lay E c y h n ws t usable gap sibs :
  forall i cursor boxes,
  place lay (without_gap E) c y h n ws t usable gap i sibs cursor boxes =
  place lay E c y h n ws t usable gap i sibs cursor boxes.
Proof.
  induction sibs as [|ch rest IH]; intros i cursor boxes; simpl;
    [reflexivity|].
  rewrite col_x_without_gap.
  change (col_width (without_gap E) c) with (col_width E c).
  destruct (frac_of ws t n i); simpl; [|reflexivity].
  destruct (if (i <? n - 1)%nat then _ else _) as [ch_h|]; simpl;
    [|reflexivity].
  destruct (col_x E c) as [cx|]; simpl; [|reflexivity].
  destruct (col_width E c) as [cw|]; simpl; [|reflexivity].
  destruct (lay ch c cx cursor cw ch_h boxes); simpl;
    [apply IH | reflexivity].
Qed.

Lemma suppressed_usable E h n :
  h - gap_y E * (Z.of_nat n - 1) < 0 ->
  usable_extent E h n = h /\ local_gap E h n = 0.
Proof.
  intros H. unfold usable_extent, local_gap.
  apply Z.ltb_lt in H. rewrite H. auto.
Qed.

Lemma without_gap_usable E h n :
  usable_extent (without_gap E) h n = h /\ local_gap (without_gap E) h n = 0.
Proof.
  unfold usable_extent, local_gap. simpl.
  destruct (h - 0 * (Z.of_nat n - 1) <? 0); split; lia.
Qed.

Lemma siblings_suppressed lay E c y h sibs boxes :
  h - gap_y E * (Z.of_nat (length sibs) - 1) < 0 ->
  siblings lay E c y h sibs boxes =
  siblings lay (without_gap E) c y h sibs boxes.
Proof.
  intros H. unfold siblings.
  destruct (suppressed_usable E h _ H) as [-> ->].
  destruct (without_gap_usable E h (length sibs)) as [-> ->].
  destruct (weights_of sibs) as [ws|]; simpl; [|reflexivity].
  destruct (total_weight ws (length sibs)); simpl; [|reflexivity].
  symmetry. apply place_without_gap.
Qed.

(** *** No division by zero *)

Lemma index_no_zde {A} (l : list A) i : no_zde (index l i).
Proof. unfold no_zde, index. destruct (l !! i); discriminate. Qed.

Lemma rounded_share_no_zde usable frac : no_zde (rounded_share usable frac).
Proof.
  unfold rounded_share, mul_int_float. apply bind_no_zde.
  - apply bind_no_zde; [apply float_of_int_no_zde | discriminate].
  - intros; apply round_no_zde.
Qed.

Lemma int_scaled_no_zde z pct : no_zde (int_scaled z pct).
Proof.
  unfold int_scaled, mul_int_float. apply bind_no_zde.
  - apply bind_no_zde; [apply float_of_int_no_zde | discriminate].
  - intros; apply int_of_float_no_zde.
Qed.

(** The guard [total_w > 0] keeps the divisor away from zero, and
    [float(n)] is not zero for [n >= 1]. *)
Lemma frac_of_no_zde ws t n k : (0 < n)%nat -> no_zde (frac_of ws t n k).
Proof.
  intros Hn. unfold frac_of. apply bind_no_zde; [apply index_no_zde|].
  intros wt _. destruct (flt fzero t) eqn:Et.
  - unfold fdiv. destruct t as [s|s| |s m e]; try destruct s;
      try discriminate.
  - apply bind_no_zde; [apply float_of_int_no_zde|].
    intros nf Hnf. apply float_of_int_cases in Hnf.
    destruct (Z.of_nat n) eqn:En; try lia.
    destruct Hnf as (m & e & -> & _). discriminate.
Qed.

Lemma col_x_loop_no_zde E idx : forall x, no_zde (col_x_loop E idx x).
Proof.
  induction idx as [|i idx IH]; intros x; simpl; [discriminate|].
  apply bind_no_zde; [apply index_no_zde | intros; apply IH].
Qed.

Lemma col_x_no_zde E c : no_zde (col_x E c).
Proof.
  destruct c; simpl; [discriminate|].
  apply bind_no_zde; [apply index_no_zde | intros; apply col_x_loop_no_zde].
Qed.

Lemma col_width_no_zde E c : no_zde (col_width E c).
Proof.
  unfold col_width. destruct (_ <? _)%nat; [apply index_no_zde|].
  destruct (col_widths E); [discriminate | apply index_no_zde].
Qed.

Lemma weights_of_no_zde sibs : no_zde (weights_of sibs).
Proof.
  induction sibs as [|ch rest IH]; simpl; [discriminate|].
  apply bind_no_zde.
  - unfold weight_of. destruct (weight ch) as [[z|f]|]; simpl;
      [apply float_of_int_no_zde | discriminate | discriminate].
  - intros w _. apply bind_no_zde; [exact IH | discriminate].
Qed.

Lemma total_weight_no_zde ws n : no_zde (total_weight ws n).
Proof.
  unfold total_weight. destruct (is_zero _);
    [apply float_of_int_no_zde | discriminate].
Qed.

Lemma place_no_zde lay E c y h n ws t usable gap sibs :
  (0 < n)%nat ->
  Forall (fun ch => forall col x y w h boxes,
            no_zde (lay ch col x y w h boxes)) sibs ->
  forall i cursor boxes,
    no_zde (place lay E c y h n ws t usable gap i sibs cursor boxes).
Proof.
  intros Hn. induction 1 as [|ch rest Hch Hrest IH]; intros i cursor boxes;
    simpl; [discriminate|].
  apply bind_no_zde; [apply frac_of_no_zde; exact Hn|]. intros frac _.
  apply bind_no_zde.
  { destruct (_ <? _)%nat; [apply rounded_share_no_zde | discriminate]. }
  intros ch_h _.
  apply bind_no_zde; [apply col_x_no_zde|]. intros cx _.
  apply bind_no_zde; [apply col_width_no_zde|]. intros cw _.
  apply bind_no_zde; [apply Hch|]. intros b' _. apply IH.
Qed.

Lemma siblings_no_zde lay E c y h sibs boxes :
  Forall (fun ch => forall col x y w h boxes,
            no_zde (lay ch col x y w h boxes)) sibs ->
  no_zde (siblings lay E c y h sibs boxes).
Proof.
  intros Hl. unfold siblings.
  destruct sibs as [|s0 rest] eqn:Es; [simpl; discriminate|].
  rewrite <- Es in *.
  apply bind_no_zde; [apply weights_of_no_zde|]. intros ws _.
  apply bind_no_zde; [apply total_weight_no_zde|]. intros t _.
  apply place_no_zde; [subst; simpl; lia | exact Hl].
Qed.

Lemma layout_no_zde E nd : forall col x y w h boxes,
  no_zde (layout E nd col x y w h boxes).
Proof.
  induction nd as [nm wt chs IH] using node_ind'.
  intros col x y w h boxes. simpl.
  destruct chs as [|ch chs']; [discriminate|].
  apply siblings_no_zde. exact IH.
Qed.

Lemma make_env_no_zde data g : no_zde (make_env data g).
Proof.
  unfold make_env.
  apply bind_no_zde.
  { destruct (_ <? _)%nat; [apply int_scaled_no_zde | discriminate]. }
  intros cg _. apply bind_no_zde.
  { destruct (_ <? _)%nat; [|discriminate].
    apply bind_no_zde; [apply int_scaled_no_zde | discriminate]. }
  intros cws _. apply bind_no_zde.
  { destruct (truthy_headers _); [apply int_scaled_no_zde | discriminate]. }
  intros hh _. apply bind_no_zde; [apply int_scaled_no_zde | discriminate].
Qed.

Lemma render_no_zde data g : no_zde (render data g).
Proof.
  unfold render. apply bind_no_zde; [apply make_env_no_zde|]. intros E _.
  destruct (data_root data) as [nd|nds].
  - apply bind_no_zde; [apply col_x_no_zde|]. intros x0 _.
    apply bind_no_zde; [apply col_width_no_zde|]. intros w0 _.
    apply layout_no_zde.
  - destruct nds as [|n0 nds']; [discriminate|].
    apply siblings_no_zde. apply Forall_forall. intros ch _.
    apply layout_no_zde.
Qed.

(** *** The claims *)

(** C1, as stated, fails where the gaps do not fit.  102 roots without
    weights share a component 100 high, whose gap is 1: 101 gaps do not
    fit, the gap is dropped and [usable] is 100, so each of the first
    101 roots is given [int(round(100 * (1.0 / 102.0))) = 1].  With
    [usable = h - gap * (n - 1) = -1] each would be given
    [int(round(-1 * (1.0 / 102.0))) = 0], and with 101 gaps of 1 the
    extents and gaps would add up to 201, not 100. *)
Lemma stated_level_fails :
  make_env (Schema (Roots crowded) None) (Geom 0 0 100 100)
    = Ok crowded_env /\
  sibling_calls crowded_env 0 0 100 crowded = Ok crowded_calls /\
  rounded_share (100 - 1 * (102 - 1)) (lit 1 102) = Ok 0 /\
  ~ stated_shares crowded_env 100 crowded crowded_calls /\
  ~ stated_sum crowded_env 100 crowded crowded_calls.
Proof.
  split; [vm_compute; reflexivity|].
  split; [vm_compute; reflexivity|].
  split; [vm_compute; reflexivity|].
  split.
  - intros (ws & t & Hws & Ht & Hk).
    vm_compute in Hws. injection Hws as <-.
    vm_compute in Ht. injection Ht as <-.
    destruct (Hk 0%nat (Box (leaf "r") 0 0 0 100 1) eq_refl)
      as (frac & Hf & Hr); [simpl; lia|].
    vm_compute in Hf. injection Hf as <-.
    vm_compute in Hr. discriminate.
  - unfold stated_sum. vm_compute. discriminate.
Qed.

(** The same below the roots, with weights: in a component 1000 high
    the gap is 10; root ["A"] (weight 1 against 197) is 5 high and its
    two children are given 2 and 3, where [usable = -5] would give the
    first [int(round(-5 * 0.5)) = -2]. *)
Example stated_level_fails_below :
  render example_roots example_geom =
    Ok [Box (Node "A" (Some (Int 1)) [leaf "a1"; leaf "a2"]) 0 0 0 194 5;
        Box (leaf "a1") 1 224 0 776 2;
        Box (leaf "a2") 1 224 2 776 3;
        Box (Node "B" (Some (Int 197)) []) 0 0 15 194 985] /\
  make_env example_roots example_geom = Ok example_env /\
  sibling_calls example_env 1 0 5 [leaf "a1"; leaf "a2"] =
    Ok [Box (leaf "a1") 1 224 0 776 2; Box (leaf "a2") 1 224 2 776 3] /\
  rounded_share (5 - 10 * (2 - 1)) (lit 1 2) = Ok (-2).
Proof. repeat split; vm_compute; reflexivity. Qed.

(** C1, amended: at every level with [n >= 1] siblings and extent [h],
    whatever the weights, each of the first [n - 1] siblings is given
    [int(round(usable * frac))], where [frac = max(weight, 0.0) /
    total_w], [total_w] is the sum of the positive weights ([n] if there
    is none) and [usable = h - gap * (n - 1)] with the configured gap,
    unless that is negative: then [usable = h] and the gap of the level
    is 0.  The last sibling is given exactly what remains, so the
    extents plus [n - 1] gaps of the level add up to [h].  This holds
    for the children of every node, for a list of roots, which shares
    the whole content height, and for a single root, whose own box spans
    the whole content height. *)
Theorem drift_free_partition (E : env) :
  (forall nm wt chs col x y w h boxes out,
     chs <> [] ->
     layout E (Node nm wt chs) col x y w h boxes = Ok out ->
     let y' := Z.max y (content_top E) in
     let h' := Z.min h (content_top E + content_h E - y') in
     exists calls,
       level_ok E y' h' chs calls /\
       replay (layout E) calls
         (boxes ++ [Box (Node nm wt chs) col x y' w h']) = Ok out) /\
  (forall data g nds out,
     make_env data g = Ok E -> data_root data = Roots nds -> nds <> [] ->
     render data g = Ok out ->
     exists calls,
       level_ok E (content_top E) (content_h E) nds calls /\
       replay (layout E) calls [] = Ok out) /\
  (forall data g nd out,
     make_env data g = Ok E -> data_root data = Single nd ->
     render data g = Ok out ->
     exists x0 w0 rest,
       layout E nd 0 x0 (content_top E) w0 (content_h E) [] = Ok out /\
       out = Box nd 0 x0 (content_top E) w0 (content_h E) :: rest).
Proof.
  split; [|split].
  - intros nm wt chs col x y w h boxes out Hne. simpl.
    destruct chs as [|ch chs']; [congruence|].
    intros H. apply siblings_replay in H as (calls & Hc & Hr).
    exists calls. split; [|exact Hr].
    eapply sibling_calls_level; eauto.
  - intros data g nds out HE Hroot Hne. unfold render. rewrite HE, Hroot.
    simpl. destruct nds as [|n0 nds']; [congruence|].
    intros H. apply siblings_replay in H as (calls & Hc & Hr).
    exists calls. split; [|exact Hr].
    eapply sibling_calls_level; eauto.
  - intros data g nd out HE Hroot. unfold render. rewrite HE, Hroot.
    cbn [bind]. change (col_x E 0) with (Ok (e_left E)). cbn [bind].
    set (x0 := e_left E).
    destruct (col_width E 0) as [w0|]; cbn [bind]; [|discriminate].
    intros H. exists x0, w0.
    destruct (layout_boxes E nd 0 x0 (content_top E) w0 (content_h E) []
                out H) as (rest & Hout & _).
    exists rest. split; [exact H|]. rewrite Hout. simpl.
    repeat f_equal; lia.
Qed.

Lemma drift_free_partition_witness :
  exists calls,
    level_ok example_env 0 1000
      [Node "A" (Some (Int 1)) [leaf "a1"; leaf "a2"];
       Node "B" (Some (Int 197)) []] calls /\
    replay (layout example_env) calls [] =
      Ok [Box (Node "A" (Some (Int 1)) [leaf "a1"; leaf "a2"]) 0 0 0 194 5;
          Box (leaf "a1") 1 224 0 776 2;
          Box (leaf "a2") 1 224 2 776 3;
          Box (Node "B" (Some (Int 197)) []) 0 0 15 194 985].
Proof.
  apply (proj1 (proj2 (drift_free_partition example_env))
           example_roots example_geom).
  - vm_compute. reflexivity.
  - reflexivity.
  - discriminate.
  - vm_compute. reflexivity.
Defined.

(** C7, as stated, fails for the last sibling.  102 roots without
    weights share a component 100 high, whose gap is 1: the 101 gaps do
    not fit, so the gap of the level is 0 and the whole extent of 100
    is shared.  Each of the first 101 roots is given
    [int(round(100 * (1.0 / 102.0))) = 1], and the last root, which
    takes what remains, is given [100 - 101 = -1]: it is drawn at
    [y = 101] with the height -1. *)
Lemma suppressed_level_negative :
  make_env (Schema (Roots crowded) None) (Geom 0 0 100 100)
    = Ok crowded_env /\
  100 - gap_y crowded_env * (Z.of_nat (length crowded) - 1) < 0 /\
  local_gap crowded_env 100 (length crowded) = 0 /\
  usable_extent crowded_env 100 (length crowded) = 100 /\
  sibling_calls crowded_env 0 0 100 crowded = Ok crowded_calls /\
  crowded_calls !! 101%nat = Some (Box (leaf "r") 0 0 101 100 (-1)) /\
  ~ no_negative_extent crowded_calls /\
  exists out,
    render (Schema (Roots crowded) None) (Geom 0 0 100 100) = Ok out /\
    last out = Some (Box (leaf "r") 0 0 101 100 (-1)).
Proof.
  split; [vm_compute; reflexivity|].
  split; [vm_compute; reflexivity|].
  split; [vm_compute; reflexivity|].
  split; [vm_compute; reflexivity|].
  split; [vm_compute; reflexivity|].
  split; [reflexivity|].
  split.
  - intros H.
    pose proof (Forall_lookup_1 _ _ 101%nat
                  (Box (leaf "r") 0 0 101 100 (-1)) H eq_refl) as Hlast.
    simpl in Hlast. lia.
  - eexists. split; [vm_compute; reflexivity | reflexivity].
Qed.

(** C7, amended: at a level where [h - gap * (n - 1)] is negative the
    gap of the level is 0 and [usable] is the whole extent [h]; the
    level is laid out exactly as with no gap configured, and the
    extents add up to [h].  For [h >= 0] none of the siblings but the
    last is given a negative extent.  The last sibling takes what
    remains, [h] minus the extents before it, which is negative when
    the rounded shares add up to more than [h]. *)
Theorem gaps_suppressed E c y h sibs :
  sibs <> [] ->
  h - gap_y E * (Z.of_nat (length sibs) - 1) < 0 ->
  let n := length sibs in
  local_gap E h n = 0 /\ usable_extent E h n = h /\
  (forall lay boxes,
     siblings lay E c y h sibs boxes =
     siblings lay (without_gap E) c y h sibs boxes) /\
  (forall calls,
     sibling_calls E c y h sibs = Ok calls ->
     sumZ (heights calls) = h /\
     (0 <= h -> forall k b, calls !! k = Some b -> (k < n - 1)%nat ->
                0 <= b_h b) /\
     (forall b, calls !! (n - 1)%nat = Some b ->
        b_h b = h - sumZ (take (n - 1) (heights calls)))).
Proof.
  intros Hne Hneg. cbv zeta.
  destruct (suppressed_usable E h _ Hneg) as [Hu Hg].
  split; [exact Hg|]. split; [exact Hu|].
  split; [intros; apply siblings_suppressed; exact Hneg|].
  intros calls Hc. apply sibling_calls_level in Hc; [|exact Hne].
  destruct Hc as (ws & t & _ & _ & _ & Hk & Hsum).
  cbv zeta in Hsum, Hk. rewrite Hg in Hsum. split; [lia|]. split.
  - intros Hh k b Hb Hlt. destruct (Hk k b Hb) as (_ & _ & Hshare & _).
    destruct (Hshare Hlt) as (frac & Hf & Hr).
    rewrite Hu in Hr.
    eapply rounded_share_nonneg; eauto. eapply frac_of_nonneg; eauto.
  - intros b Hb. destruct (Hk _ b Hb) as (_ & Hy & _ & Hlast).
    specialize (Hlast eq_refl). rewrite Hg in Hy. lia.
Qed.

(** The 102 roots again: the first 101 are given 1 each, the last one
    [100 - 101]. *)
Lemma gaps_suppressed_witness :
  local_gap crowded_env 100 102 = 0 /\
  usable_extent crowded_env 100 102 = 100 /\
  (forall lay boxes,
     siblings lay crowded_env 0 0 100 crowded boxes =
     siblings lay (without_gap crowded_env) 0 0 100 crowded boxes) /\
  (forall calls,
     sibling_calls crowded_env 0 0 100 crowded = Ok calls ->
     sumZ (heights calls) = 100 /\
     (0 <= 100 -> forall k b, calls !! k = Some b -> (k < 102 - 1)%nat ->
                  0 <= b_h b) /\
     (forall b, calls !! (102 - 1)%nat = Some b ->
        b_h b = 100 - sumZ (take (102 - 1) (heights calls)))).
Proof.
  apply (gaps_suppressed crowded_env 0 0 100 crowded).
  - discriminate.
  - vm_compute. reflexivity.
Defined.

(** C6, as stated, fails where a node has a weight that is not
    positive: the weight is not raised to a positive floor.
    [max(0.0, 0.0)] is [0.0], the fraction of a child of weight 0 is
    [0.0], and in a component 100 high the child ["z"] of weight 0 gets
    an extent of 0 next to a sibling of 99.  A node has a weight only
    when [render] is given its nodes as plain dicts, which it keeps as
    they are; through the schema the weight of ["z"] is dropped, and
    ["z"] gets 50 as a node without weight does. *)
Lemma positive_floor_fails :
  ~ positive_floor (children zero_weighted) /\
  max_with_zero fzero = fzero /\
  frac_of [fzero; f1_0] f1_0 2 0 = Ok fzero /\
  render (Schema (Single zero_weighted) None) (Geom 0 0 50 100) =
    Ok [Box zero_weighted 0 0 0 9 100;
        Box (Node "z" (Some (Int 0)) []) 1 10 0 40 0;
        Box (leaf "2") 1 10 1 40 99] /\
  render (validated (Schema (Single zero_weighted) None)) (Geom 0 0 50 100) =
    Ok [Box (model_dump zero_weighted) 0 0 0 9 100;
        Box (leaf "z") 1 10 0 40 50;
        Box (leaf "2") 1 10 51 40 49].
Proof.
  split; [|repeat split; vm_compute; reflexivity].
  intros H.
  specialize (H [fzero; f1_0] f1_0 0%nat fzero fzero).
  discriminate H; vm_compute; reflexivity.
Qed.

Lemma model_dump_weights sibs :
  weights_of (List.map model_dump sibs) = Ok (repeat f1_0 (length sibs)).
Proof.
  induction sibs as [|[nm wt chs] rest IH]; simpl; [reflexivity|].
  rewrite IH. reflexivity.
Qed.

(** C6, amended: an omitted weight is 1.0; neither [layout] nor
    [render] ever raises [ZeroDivisionError]; for canonical weights
    [total_w], the sum of the positive weights or [n] when there is
    none, is positive; and a weight [<= 0] is clamped to zero, so next
    to a sibling of positive weight a sibling that carries it and is
    not the last one gets an extent of 0 (the last sibling gets what
    remains).  Nothing is said of a level none of whose weights is
    positive.  Through the schema no node has a weight, at any level
    of the tree: the partitioner reads 1.0 for every sibling, and the
    siblings of a level but the last get one and the same extent. *)
Theorem weight_handling :
  (forall ch, weight ch = None -> weight_of ch = Ok f1_0) /\
  (forall data g, render data g <> Raise ZeroDivisionError) /\
  (forall E nd col x y w h boxes,
     layout E nd col x y w h boxes <> Raise ZeroDivisionError) /\
  (forall sibs ws t,
     sibs <> [] -> forallb weight_wf sibs = true ->
     weights_of sibs = Ok ws -> total_weight ws (length sibs) = Ok t ->
     flt fzero t = true) /\
  (forall E c y h sibs calls,
     forallb weight_wf sibs = true ->
     sibling_calls E c y h sibs = Ok calls ->
     forall k ch w b j chj wj,
       (k < length sibs - 1)%nat -> sibs !! k = Some ch ->
       weight_of ch = Ok w -> fle w fzero = true ->
       sibs !! j = Some chj -> weight_of chj = Ok wj ->
       flt fzero wj = true ->
       calls !! k = Some b -> b_h b = 0) /\
  (forall nd,
     weight (model_dump nd) = None /\
     children (model_dump nd) = List.map model_dump (children nd)) /\
  (forall sibs,
     weights_of (List.map model_dump sibs) = Ok (repeat f1_0 (length sibs))) /\
  (forall E c y h sibs calls,
     sibling_calls E c y h (List.map model_dump sibs) = Ok calls ->
     forall k k' b b',
       (k < length sibs - 1)%nat -> (k' < length sibs - 1)%nat ->
       calls !! k = Some b -> calls !! k' = Some b' -> b_h b = b_h b').
Proof.
  split; [intros ch H; unfold weight_of; rewrite H; reflexivity|].
  split; [exact render_no_zde|].
  split; [intros; apply layout_no_zde|].
  assert (Hpos : forall sibs ws t,
     sibs <> [] -> forallb weight_wf sibs = true ->
     weights_of sibs = Ok ws -> total_weight ws (length sibs) = Ok t ->
     positive_float t).
  { intros sibs ws t Hne Hwf Hws Ht.
    eapply total_weight_positive; [| |exact Ht].
    - eapply weights_of_exp_ok; eauto.
    - destruct sibs; simpl; [congruence | lia]. }
  split; [intros sibs ws t Hne Hwf Hws Ht; apply positive_flt_zero; eauto|].
  split.
  - intros E c y h sibs calls Hwf Hc k ch w b j chj wj Hlt Hch Hw Hle
      _ _ _ Hb.
    assert (Hne : sibs <> [])
      by (destruct sibs; [simpl in Hlt; lia | discriminate]).
    apply sibling_calls_level in Hc; [|exact Hne].
    destruct Hc as (ws & t & Hws & Ht & _ & Hk & _).
    destruct (Hk k b Hb) as (_ & _ & Hshare & _).
    destruct (Hshare Hlt) as (frac & Hf & Hr).
    destruct (weights_of_spec _ _ Hws) as [_ Hspec].
    destruct (Hspec k ch Hch) as (w' & Hw' & Hwo).
    assert (w' = w) by congruence. subst w'.
    eapply zero_share; eauto.
  - split; [intros [nm wt chs]; split; reflexivity|].
    split; [exact model_dump_weights|].
    intros E c y h sibs calls Hc k k' b b' Hlt Hlt' Hb Hb'.
    assert (Hne : List.map model_dump sibs <> [])
      by (destruct sibs; [simpl in Hlt; lia | discriminate]).
    apply sibling_calls_level in Hc; [|exact Hne].
    destruct Hc as (ws & t & Hws & _ & _ & Hk & _).
    rewrite model_dump_weights in Hws. injection Hws as <-.
    rewrite length_map in Hk.
    assert (Hfrac : forall i, (i < length sibs - 1)%nat ->
              frac_of (repeat f1_0 (length sibs)) t (length sibs) i
              = frac_of (repeat f1_0 (length sibs)) t (length sibs) 0).
    { intros i Hi. unfold frac_of, index.
      assert (Hrep : forall n m, (m < n)%nat ->
                repeat f1_0 n !! m = Some f1_0).
      { induction n as [|n IH]; intros [|m] Hm; simpl; try lia;
          [reflexivity | apply IH; lia]. }
      rewrite !Hrep by lia. reflexivity. }
    destruct (Hk k b Hb) as (_ & _ & Hshare & _).
    destruct (Hshare Hlt) as (frac & Hf & Hr).
    destruct (Hk k' b' Hb') as (_ & _ & Hshare' & _).
    destruct (Hshare' Hlt') as (frac' & Hf' & Hr').
    rewrite Hfrac in Hf, Hf' by assumption.
    assert (frac' = frac) by congruence. subst frac'. congruence.
Qed.

Lemma weight_handling_witness :
  b_h (Box (Node "z" (Some (Int 0)) []) 1 10 0 40 0) = 0.
Proof.
  apply (proj1 (proj2 (proj2 (proj2 (proj2 weight_handling))))
           (Env 0 [9; 40] 1 2 0 100 1) 1%nat 0 100
           (children zero_weighted)
           [Box (Node "z" (Some (Int 0)) []) 1 10 0 40 0;
            Box (leaf "2") 1 10 1 40 99]
           eq_refl eq_refl 0%nat (Node "z" (Some (Int 0)) []) fzero
           (Box (Node "z" (Some (Int 0)) []) 1 10 0 40 0)
           1%nat (leaf "2") f1_0).
  - simpl. lia.
  - reflexivity.
  - reflexivity.
  - reflexivity.
  - reflexivity.
  - reflexivity.
  - reflexivity.
  - reflexivity.
Defined.

(** C10: every box that [layout] records, for its node and at every
    depth below it, lies in the content band: its top is at least
    [content_top] and its bottom, top plus height, at most
    [content_top + content_h]. *)
Theorem layout_stays_in_band E nd col x y w h boxes out :
  layout E nd col x y w h boxes = Ok out ->
  exists new, out = boxes ++ new /\ Forall (in_band E) new.
Proof. apply layout_in_band. Qed.

Lemma layout_stays_in_band_witness :
  exists new,
    [Box seven 0 0 0 9 11; Box (leaf "1") 1 10 0 40 2;
     Box (leaf "2") 1 10 2 40 2; Box (leaf "3") 1 10 4 40 2;
     Box (leaf "4") 1 10 6 40 2; Box (leaf "5") 1 10 8 40 2;
     Box (leaf "6") 1 10 10 40 1; Box (leaf "7") 1 10 12 40 (-1)]
    = [] ++ new /\ Forall (in_band seven_env) new.
Proof.
  apply (layout_stays_in_band seven_env seven 0 0 0 9 11 []).
  vm_compute. reflexivity.
Defined.

(** The same for everything [render] draws. *)
Lemma render_stays_in_band data g out :
  render data g = Ok out ->
  exists E, make_env data g = Ok E /\ Forall (in_band E) out.
Proof.
  unfold render. destruct (make_env data g) as [E|]; [|discriminate].
  cbn [bind]. intros H. exists E. split; [reflexivity|].
  destruct (data_root data) as [nd|nds].
  - change (col_x E 0) with (Ok (e_left E)) in H. cbn [bind] in H.
    destruct (col_width E 0) as [w0|]; [|discriminate]. cbn [bind] in H.
    apply layout_in_band in H as (new & -> & Hn). exact Hn.
  - destruct nds as [|n0 nds']; [injection H as <-; constructor|].
    apply siblings_replay in H as (calls & _ & Hr).
    eapply (replay_appends (in_band E)) in Hr as (new & -> & Hn);
      [exact Hn|].
    apply Forall_forall. intros c _ bs o Ho.
    apply layout_in_band in Ho. exact Ho.
Qed.

(** A root with no children: one box over the whole content height. *)
Example single_leaf_spans_content :
  render (Schema (Single (leaf "only")) None) (Geom 5 7 300 200) =
    Ok [Box (leaf "only") 0 5 7 300 200].
Proof. vm_compute. reflexivity. Qed.

(** With equal weights the rounded shares can overshoot: the last of
    seven siblings in an extent of 11 is left with -1. *)
Example rounding_overshoot :
  sibling_calls seven_env 1 0 11 (children seven) =
    Ok [Box (leaf "1") 1 10 0 40 2; Box (leaf "2") 1 10 2 40 2;
        Box (leaf "3") 1 10 4 40 2; Box (leaf "4") 1 10 6 40 2;
        Box (leaf "5") 1 10 8 40 2; Box (leaf "6") 1 10 10 40 2;
        Box (leaf "7") 1 10 12 40 (-1)].
Proof. vm_compute. reflexivity. Qed.

End PartitionFacts.

(** ** Connector routing ([tools/renderers/component_diagram.py]) *)

Section RouterFacts.
Import ComponentDiagram.

Lemma centre_raises z a e : centre z a = Raise e -> e = OverflowError.
Proof.
  unfold centre, add_int_float.
  destruct (int_truediv a 2) as [half|e'] eqn:Eh; simpl.
  - destruct (float_of_int z) as [zf|e'] eqn:Ez; simpl; [discriminate|].
    intros [= <-]. eapply float_of_int_raises; eauto.
  - intros [= <-]. eapply int_truediv_raises; [|eauto]. lia.
Qed.

(** Boxes of zero width reach the router: [int()] of a zero percent
    width is 0. *)
Example zero_width_nodes :
  _rel_to_abs (Geom 0 0 1000 1000)
    (Position (lit 10 1) (lit 10 1) fzero (lit 20 1)) = Ok thin_a /\
  _rel_to_abs (Geom 0 0 1000 1000)
    (Position (lit 10 1) (lit 105 10) fzero (lit 20 1)) = Ok thin_b /\
  _rel_to_abs (Geom 0 0 1000 1000)
    (Position (lit 10 1) (lit 15 1) fzero (lit 10 1)) = Ok thin_c.
Proof. vm_compute. repeat split. Qed.

(** C4, as stated, fails for boxes of zero width on one vertical line:
    each is to the left of the other ([f_right <= t_left] both ways), so
    both directions take the first branch and both get the sites
    [(3, 1)]; the site pair of the reverse route is not mirrored. *)
Lemma degenerate_boxes_not_mirrored :
  _calc_conn_points_and_sites thin_a thin_b 0 =
    Ok ((Int 100, Float (S754_finite false 7036874417766400 (-45))),
        (Int 100, Float (S754_finite false 7212796278210560 (-45))),
        (3, 1)%nat, STRAIGHT) /\
  _calc_conn_points_and_sites thin_b thin_a 0 =
    Ok ((Int 100, Float (S754_finite false 7212796278210560 (-45))),
        (Int 100, Float (S754_finite false 7036874417766400 (-45))),
        (3, 1)%nat, STRAIGHT) /\
  ~ mirrored thin_a thin_b 0.
Proof.
  assert (H1 : _calc_conn_points_and_sites thin_a thin_b 0 =
    Ok ((Int 100, Float (S754_finite false 7036874417766400 (-45))),
        (Int 100, Float (S754_finite false 7212796278210560 (-45))),
        (3, 1)%nat, STRAIGHT)) by (vm_compute; reflexivity).
  assert (H2 : _calc_conn_points_and_sites thin_b thin_a 0 =
    Ok ((Int 100, Float (S754_finite false 7212796278210560 (-45))),
        (Int 100, Float (S754_finite false 7036874417766400 (-45))),
        (3, 1)%nat, STRAIGHT)) by (vm_compute; reflexivity).
  split; [exact H1|]. split; [exact H2|].
  intros Hm. specialize (Hm _ _ _ _ H1). rewrite H2 in Hm. discriminate.
Qed.

(** C4, amended: for two boxes whose widths are not both zero and whose
    heights are not both zero ([w_A + w_B > 0], [h_A + h_B > 0]), if
    the route from [A] to [B] is straight, then so is the route from
    [B] to [A], with the site pair mirrored and the end points
    exchanged. *)
Theorem straight_routes_mirror A B margin start stop site_a site_b :
  0 < w A + w B -> 0 < h A + h B ->
  _calc_conn_points_and_sites A B margin =
    Ok ((start, stop), (site_a, site_b), STRAIGHT) ->
  _calc_conn_points_and_sites B A margin =
    Ok ((stop, start), (site_b, site_a), STRAIGHT).
Proof.
  intros Hw Hh. unfold _calc_conn_points_and_sites. cbv zeta.
  destruct (centre (x A) (w A)) as [ax|]; [|discriminate].
  destruct (centre (y A) (h A)) as [ay|]; [|discriminate].
  destruct (centre (x B) (w B)) as [bx|]; [|discriminate].
  destruct (centre (y B) (h B)) as [by_|]; [|discriminate].
  cbn [bind].
  rewrite (Z.add_comm (h B) (h A)), (Z.add_comm (w B) (w A)).
  destruct (int_truediv (h A + h B) 4) as [qh|]; [|discriminate].
  destruct (int_truediv (w A + w B) 4) as [qw|]; [|discriminate].
  cbn [bind].
  rewrite (fabs_fsub_sym ax bx), (fabs_fsub_sym ay by_).
  destruct (flt (fabs (fsub by_ ay)) qh);
    destruct (flt (fabs (fsub bx ax)) qw);
    cbn [andb];
    destruct (Z.leb_spec (x A + w A) (x B));
    destruct (Z.leb_spec (x B + w B) (x A));
    destruct (Z.leb_spec (y A + h A) (y B));
    destruct (Z.leb_spec (y B + h B) (y A));
    cbn [orb andb]; try lia;
    repeat match goal with
           | |- context [if ?c then _ else _] => destruct c
           end;
    intros [= <- <- <- <-]; reflexivity.
Qed.

Lemma straight_routes_mirror_witness :
  _calc_conn_points_and_sites (NodeGeom 20 1 10 4) (NodeGeom 0 0 10 4) 0 =
    Ok ((Int 20, Float (S754_finite false 6755399441055744 (-51))),
        (Int 10, Float (S754_finite false 4503599627370496 (-51))),
        (1, 3)%nat, STRAIGHT).
Proof.
  apply (straight_routes_mirror (NodeGeom 0 0 10 4) (NodeGeom 20 1 10 4) 0);
    try (simpl; lia).
  vm_compute. reflexivity.
Defined.

(** C5, as stated, fails for boxes of zero width: [thin_a] and [thin_c]
    have the same centre, and the router joins them by a straight
    connector between their right and left sides. *)
Lemma coincident_degenerate_straight :
  same_centre thin_a thin_c /\
  _calc_conn_points_and_sites thin_a thin_c 0 =
    Ok ((Int 100, Float (S754_finite false 7036874417766400 (-45))),
        (Int 100, Float (S754_finite false 7036874417766400 (-45))),
        (3, 1)%nat, STRAIGHT).
Proof. split; [split; reflexivity | vm_compute; reflexivity]. Qed.

(** C5, amended: for two boxes with the same centre whose widths are
    not both zero and whose heights are not both zero, the router
    returns an elbow connector from the centre of the first to the
    centre of the second (or raises [OverflowError], when a coordinate
    is beyond the range of a float). *)
Theorem coincident_centres_elbow A B margin :
  0 < w A + w B -> 0 < h A + h B ->
  same_centre A B ->
  match _calc_conn_points_and_sites A B margin with
  | Ok (pts, _, style) =>
      style = ELBOW /\
      exists ax ay bx by_,
        centre (x A) (w A) = Ok ax /\ centre (y A) (h A) = Ok ay /\
        centre (x B) (w B) = Ok bx /\ centre (y B) (h B) = Ok by_ /\
        pts = ((Float ax, Float ay), (Float bx, Float by_))
  | Raise e => e = OverflowError
  end.
Proof.
  intros Hw Hh [Hx Hy]. unfold _calc_conn_points_and_sites. cbv zeta.
  destruct (centre (x A) (w A)) as [ax|e] eqn:E1;
    [|cbn [bind]; eapply centre_raises; eauto].
  destruct (centre (y A) (h A)) as [ay|e] eqn:E2;
    [|cbn [bind]; eapply centre_raises; eauto].
  destruct (centre (x B) (w B)) as [bx|e] eqn:E3;
    [|cbn [bind]; eapply centre_raises; eauto].
  destruct (centre (y B) (h B)) as [by_|e] eqn:E4;
    [|cbn [bind]; eapply centre_raises; eauto].
  cbn [bind].
  destruct (int_truediv (h A + h B) 4) as [qh|e] eqn:E5;
    [|cbn [bind]; eapply int_truediv_raises; [|eauto]; lia].
  destruct (int_truediv (w A + w B) 4) as [qw|e] eqn:E6;
    [|cbn [bind]; eapply int_truediv_raises; [|eauto]; lia].
  cbn [bind].
  destruct (Z.leb_spec (x A + w A) (x B)); [lia|].
  destruct (Z.leb_spec (x B + w B) (x A)); [lia|].
  destruct (Z.leb_spec (y A + h A) (y B)); [lia|].
  destruct (Z.leb_spec (y B + h B) (y A)); [lia|].
  cbn [orb]. rewrite !andb_false_r.
  repeat match goal with
         | |- context [if ?c then _ else _] => destruct c
         end;
    (split; [reflexivity|]; exists ax, ay, bx, by_; auto).
Qed.

Lemma coincident_centres_elbow_witness :
  match _calc_conn_points_and_sites (NodeGeom 0 0 10 4) (NodeGeom 2 1 6 2) 0
  with
  | Ok (pts, _, style) =>
      style = ELBOW /\
      exists ax ay bx by_,
        centre 0 10 = Ok ax /\ centre 0 4 = Ok ay /\
        centre 2 6 = Ok bx /\ centre 1 2 = Ok by_ /\
        pts = ((Float ax, Float ay), (Float bx, Float by_))
  | Raise e => e = OverflowError
  end.
Proof.
  apply (coincident_centres_elbow (NodeGeom 0 0 10 4) (NodeGeom 2 1 6 2) 0);
    [simpl; lia | simpl; lia | split; reflexivity].
Defined.

End RouterFacts.

(** ** Normalizer and orchestrator ([render.py]) *)

Section NormalizerFacts.
Import Render.

Lemma setdefault_same k v (d : gmap string value) :
  is_Some (setdefault k v d !! k).
Proof.
  unfold setdefault. destruct (d !! k) eqn:E.
  - rewrite E. eauto.
  - rewrite lookup_insert_eq. eauto.
Qed.

Lemma setdefault_keeps k v (d : gmap string value) k' u :
  d !! k' = Some u -> setdefault k v d !! k' = Some u.
Proof.
  intros H. unfold setdefault. destruct (d !! k) eqn:E; [exact H|].
  rewrite lookup_insert_ne; [exact H|]. intros ->. congruence.
Qed.

Lemma setdefault_new k v (d : gmap string value) k' :
  d !! k' = None -> is_Some (setdefault k v d !! k') -> k' = k.
Proof.
  intros H. unfold setdefault. destruct (d !! k) eqn:E.
  - rewrite H. intros [? ?]. discriminate.
  - destruct (decide (k = k')) as [->|Hne]; [reflexivity|].
    rewrite lookup_insert_ne by exact Hne. rewrite H.
    intros [? ?]. discriminate.
Qed.

Lemma setdefault_is_Some k v (d : gmap string value) k' :
  is_Some (d !! k') -> is_Some (setdefault k v d !! k').
Proof. intros [u Hu]. exists u. apply setdefault_keeps. exact Hu. Qed.

Lemma _mk_min_keys slides :
  exists d, _mk_min slides = VDict d /\
    is_Some (d !! "version") /\ is_Some (d !! "meta") /\
    is_Some (d !! "theme") /\ is_Some (d !! "slides").
Proof.
  eexists. split; [reflexivity|].
  repeat split; eexists; reflexivity.
Qed.

Lemma normalize_dict d :
  exists d',
    _normalize_ir (VDict d) = Ok (VDict d') /\
    (is_Some (d' !! "version") /\ is_Some (d' !! "meta") /\
     is_Some (d' !! "theme") /\ is_Some (d' !! "slides")) /\
    (forall k v, d !! k = Some v -> d' !! k = Some v) /\
    (forall k, d !! k = None -> is_Some (d' !! k) -> k ∈ top_level_keys).
Proof.
  unfold _normalize_ir.
  set (d1 := setdefault "version" (VInt 1) d).
  set (d2 := setdefault "meta" (VDict ∅) d1).
  set (d3 := setdefault "theme" (VDict ∅) d2).
  assert (Hv : is_Some (d3 !! "version"))
    by (do 2 apply setdefault_is_Some; apply setdefault_same).
  assert (Hm : is_Some (d3 !! "meta"))
    by (apply setdefault_is_Some; apply setdefault_same).
  assert (Ht : is_Some (d3 !! "theme")) by apply setdefault_same.
  assert (Hkeep : forall k v, d !! k = Some v -> d3 !! k = Some v)
    by (intros k v H; do 3 apply setdefault_keeps; exact H).
  assert (Hnew : forall k, d !! k = None -> is_Some (d3 !! k) ->
                           k ∈ top_level_keys).
  { intros k Hk Hs. unfold top_level_keys.
    destruct (d1 !! k) eqn:E1.
    - assert (k = "version") as -> by
        (apply (setdefault_new _ (VInt 1) d);
         [exact Hk | fold d1; rewrite E1; eauto]).
      set_solver.
    - destruct (d2 !! k) eqn:E2.
      + assert (k = "meta") as -> by
          (apply (setdefault_new _ (VDict ∅) d1);
           [exact E1 | fold d2; rewrite E2; eauto]).
        set_solver.
      + assert (k = "theme") as -> by
          (apply (setdefault_new _ (VDict ∅) d2); [exact E2 | exact Hs]).
        set_solver. }
  assert (Hins : forall s,
    (is_Some (<["slides" := s]> d3 !! "version") /\
     is_Some (<["slides" := s]> d3 !! "meta") /\
     is_Some (<["slides" := s]> d3 !! "theme") /\
     is_Some (<["slides" := s]> d3 !! "slides")) /\
    (d3 !! "slides" = None ->
     (forall k v, d !! k = Some v -> <["slides" := s]> d3 !! k = Some v) /\
     (forall k, d !! k = None -> is_Some (<["slides" := s]> d3 !! k) ->
                k ∈ top_level_keys))).
  { intros s. split.
    - rewrite !lookup_insert_ne by discriminate. rewrite lookup_insert_eq.
      eauto.
    - intros Hno. split.
      + intros k v H. rewrite lookup_insert_ne; [auto|].
        intros <-. apply Hkeep in H. congruence.
      + intros k Hk. destruct (decide ("slides" = k)) as [<-|Hne].
        * intros _. unfold top_level_keys. set_solver.
        * rewrite lookup_insert_ne by exact Hne. auto. }
  destruct (d3 !! "slides") as [s|] eqn:Es.
  - exists d3. split; [reflexivity|]. rewrite Es. eauto 10.
  - destruct (d3 !! "components") as [comps|].
    + eexists. split; [reflexivity|].
      destruct (Hins (VList [VDict
        (<["id" := get_default "id" (VStr "auto_1") d3]>
          (<["background" := get_default "background" (VStr "#FFFFFF") d3]>
            (<["layout" := get_default "layout" VNone d3]>
              (<["components" := comps]> ∅))))])) as [H1 H2].
      destruct (H2 eq_refl). auto.
    + eexists. split; [reflexivity|].
      destruct (Hins (VList [])) as [H1 H2]. destruct (H2 eq_refl). auto.
Qed.

Lemma normalize_list l :
  exists slides, _normalize_ir (VList l) = Ok (_mk_min slides).
Proof.
  unfold _normalize_ir. destruct l as [|first rest]; [eauto|].
  destruct (forallb is_dict (first :: rest)); [|eauto].
  destruct (has_key "tool" first || has_key "components" first); [|eauto].
  destruct (has_key "tool" first); eauto.
Qed.

(** C8: [_normalize_ir] raises exactly when the root is neither a list
    nor a dict; for a list or a dict it returns a dict with the keys
    [version], [meta], [theme] and [slides]; for a dict root every key
    that was present keeps its value, and every key that was added is
    one of these four. *)
Theorem normalize_ir_fails_only_on_scalars :
  (forall ir,
     (exists e, _normalize_ir ir = Raise e) <->
     is_list ir = false /\ is_dict ir = false) /\
  (forall ir,
     is_list ir = true \/ is_dict ir = true ->
     exists d,
       _normalize_ir ir = Ok (VDict d) /\
       is_Some (d !! "version") /\ is_Some (d !! "meta") /\
       is_Some (d !! "theme") /\ is_Some (d !! "slides")) /\
  (forall d,
     exists d',
       _normalize_ir (VDict d) = Ok (VDict d') /\
       (forall k v, d !! k = Some v -> d' !! k = Some v) /\
       (forall k, d !! k = None -> is_Some (d' !! k) ->
                  k ∈ top_level_keys)).
Proof.
  split; [|split].
  - intros ir. split.
    + intros [e He]. destruct ir; simpl; auto.
      * destruct (normalize_list l) as [s Hs]. congruence.
      * destruct (normalize_dict d) as (d' & Hd & _). congruence.
    + intros [Hl Hd]. destruct ir; simpl in *; try discriminate;
        exists TypeError; reflexivity.
  - intros ir [H|H]; destruct ir; simpl in H; try discriminate.
    + destruct (normalize_list l) as [s Hs].
      destruct (_mk_min_keys s) as (d & Hd & Hk).
      exists d. rewrite Hs, Hd. auto.
    + destruct (normalize_dict d) as (d' & Hd & Hk & _). eauto.
  - intros d. destruct (normalize_dict d) as (d' & Hd & _ & Hk). eauto.
Qed.

(** The inputs the specification lists: a bare list of components, and
    a dict with [components] and no [slides]. *)
Example normalize_bare_components :
  _normalize_ir (VList [VDict {[ "tool" := VStr "x" ]}]) =
  Ok (_mk_min (VList [wrap_components
                        (VList [VDict {[ "tool" := VStr "x" ]}])])).
Proof. reflexivity. Qed.

Example normalize_scalar_root :
  _normalize_ir (VStr "slides") = Raise TypeError /\
  _normalize_ir VNone = Raise TypeError.
Proof. split; reflexivity. Qed.

End NormalizerFacts.

Section OrchestratorFacts.
Import Render.

(** C9: for a slide with a title (present and not empty) and no
    component whose tool is [slide_title], the component list of the
    slide becomes one synthesized component, with tool [slide_title] and
    z-index -1000, followed by the components of the slide; it is then
    the only title component.  A slide that has a [slide_title]
    component keeps its component list. *)
Theorem auto_title_injection spec :
  (forall slide_title,
     truthy (s_title spec) = Some slide_title ->
     existsb is_title_tool (s_components spec) = false ->
     inject_title spec = auto_title_comp slide_title :: s_components spec /\
     c_tool (auto_title_comp slide_title) = Some "slide_title" /\
     c_z_index (auto_title_comp slide_title) = Some (-1000) /\
     length (List.filter is_title_tool (inject_title spec)) = 1%nat) /\
  (existsb is_title_tool (s_components spec) = true ->
   inject_title spec = s_components spec).
Proof.
  unfold inject_title. split.
  - intros t Ht Hno. rewrite Ht, Hno. repeat split.
    simpl. f_equal.
    induction (s_components spec) as [|c cs IH]; [reflexivity|].
    simpl in *. apply orb_false_iff in Hno as [Hc Hcs].
    rewrite Hc. auto.
  - intros Hhas. rewrite Hhas. destruct (truthy (s_title spec)); reflexivity.
Qed.

Lemma auto_title_injection_witness :
  inject_title q1_slide = [auto_title_comp "Q1 Results"] /\
  c_tool (auto_title_comp "Q1 Results") = Some "slide_title" /\
  c_z_index (auto_title_comp "Q1 Results") = Some (-1000) /\
  length (List.filter is_title_tool (inject_title q1_slide)) = 1%nat.
Proof.
  apply (proj1 (auto_title_injection q1_slide) "Q1 Results"); reflexivity.
Defined.

(** The title component is drawn first when no z-index is below
    -1000. *)
Example title_sorted_first :
  sort_by_z (inject_title
               (SlideSpec (Some "Q1 Results") [valid_comp; broken_comp] ∅)) =
  [auto_title_comp "Q1 Results"; broken_comp; valid_comp].
Proof. reflexivity. Qed.

Variable schema_class : Type.
Variable model : Type.
Variable tool_module : Type.
Variable load_schema : string -> option schema_class.
Variable load_renderer : string -> option tool_module.
Variable load_tool : string -> option tool_module.
Variable validate : schema_class -> value -> option model.
Variable resolve : slide_spec -> component -> result geom.
Variable tool_render :
  tool_module -> payload model -> geom -> option Z -> list shape ->
  outcome.

Local Abbreviation render_component' :=
  (render_component schema_class model tool_module load_schema
     load_renderer load_tool validate resolve tool_render).
Local Abbreviation render_components' :=
  (render_components schema_class model tool_module load_schema
     load_renderer load_tool validate resolve tool_render).
Local Abbreviation render_slide' :=
  (render_slide schema_class model tool_module load_schema
     load_renderer load_tool validate resolve tool_render).
Local Abbreviation validation_fails' :=
  (validation_fails schema_class model load_schema validate).
Local Abbreviation renders' :=
  (renders schema_class model tool_module load_schema load_renderer
     validate resolve tool_render).

Lemma failing_component_skipped spec slide_idx comp_idx comp st :
  validation_fails' comp ->
  render_component' spec slide_idx comp_idx comp st = st.
Proof.
  intros (tool_name & sc & Ht & Hs & Hv).
  unfold render_component. rewrite Ht, Hs, Hv. reflexivity.
Qed.

Lemma render_components_app spec slide_idx pre : forall i post st,
  render_components' spec slide_idx i (pre ++ post) st =
  render_components' spec slide_idx (i + length pre) post
    (render_components' spec slide_idx i pre st).
Proof.
  induction pre as [|c pre IH]; intros i post st; simpl.
  - rewrite Nat.add_0_r. reflexivity.
  - rewrite IH. f_equal. lia.
Qed.

Lemma rendered_component_registered spec slide_idx comp_idx comp tool_name
  st :
  renders' spec comp tool_name ->
  exists shs e,
    render_component' spec slide_idx comp_idx comp st =
    SlideState shs
      (<[comp_id_of comp tool_name slide_idx comp_idx := e]> (registry st)).
Proof.
  intros (sc & m & tl & g & Ht & Hs & Hv & Hl & Hr & Hok).
  unfold render_component. rewrite Ht, Hs, Hv, Hl.
  unfold dispatch. rewrite Hr.
  destruct (if String.eqb tool_name "table" then false
            else match c_group comp with Some b => b | None => true end).
  - destruct (_add_group_shape_compat (shapes st) g) as [shs gid].
    rewrite Hok. eauto.
  - rewrite Hok. eauto.
Qed.

(** C2: a component whose data its schema rejects leaves the slide as
    it was, shapes and registry; the components after it in z-order are
    processed as if it were not there, under the same numbers; and for
    a slide with no title and the two components [valid; broken], the
    broken one first in z-order, the registry of the slide has exactly
    one entry, under the id of the valid component. *)
Theorem validation_failure_is_local spec slide_idx :
  (forall comp_idx comp st,
     validation_fails' comp ->
     render_component' spec slide_idx comp_idx comp st = st) /\
  (forall pre comp post i st,
     validation_fails' comp ->
     render_components' spec slide_idx i (pre ++ comp :: post) st =
     render_components' spec slide_idx (i + length pre + 1) post
       (render_components' spec slide_idx i pre st)) /\
  (forall valid broken tool_name,
     truthy (s_title spec) = None ->
     s_components spec = [valid; broken] ->
     z_of broken < z_of valid ->
     validation_fails' broken ->
     renders' spec valid tool_name ->
     exists e,
       registry (render_slide' slide_idx spec) =
       {[ comp_id_of valid tool_name slide_idx 2 := e ]}).
Proof.
  split; [|split].
  - intros. apply failing_component_skipped. assumption.
  - intros pre comp post i st Hf. rewrite render_components_app. simpl.
    rewrite failing_component_skipped by exact Hf. f_equal. lia.
  - intros valid broken tool_name Ht Hc Hz Hf Hr.
    unfold render_slide, inject_title. rewrite Ht, Hc. simpl.
    assert (Hlt : (z_of valid <=? z_of broken) = false)
      by (apply Z.leb_gt; lia).
    rewrite Hlt. simpl.
    rewrite (failing_component_skipped spec slide_idx 1 broken _ Hf).
    destruct (rendered_component_registered spec slide_idx 2 valid
                tool_name (SlideState [] ∅) Hr) as (shs & e & ->).
    exists e. reflexivity.
Qed.

End OrchestratorFacts.

Lemma validation_failure_is_local_witness :
  exists e,
    Render.registry
      (Render.render_slide bool value unit Render.demo_load_schema
         Render.demo_load_module Render.demo_load_module
         Render.demo_validate Render.demo_resolve Render.demo_render
         1 Render.demo_slide) =
    {[ "valid_1_2" := e ]}.
Proof.
  apply (proj2 (proj2 (validation_failure_is_local bool value unit
           Render.demo_load_schema Render.demo_load_module
           Render.demo_load_module Render.demo_validate Render.demo_resolve
           Render.demo_render Render.demo_slide 1))
           Render.valid_comp Render.broken_comp "valid").
  - reflexivity.
  - reflexivity.
  - vm_compute. reflexivity.
  - exists "broken", false. repeat split.
  - exists true, (VDict ∅), tt, (Geom 0 0 100 100). repeat split.
Defined.

(** The scenario of the specification, run: one group with one shape,
    and one registry entry, for ["valid_1_2"]. *)
Example one_valid_one_broken :
  Render.render_slide bool value unit Render.demo_load_schema
    Render.demo_load_module Render.demo_load_module Render.demo_validate
    Render.demo_resolve Render.demo_render 1 Render.demo_slide =
  Render.SlideState
    [Render.Shape 2 (Geom 0 0 100 100) (Some []);
     Render.Shape 99 (Geom 0 0 100 100) None]
    {[ "valid_1_2" :=
         Render.Entry "valid" [2] (Some (Geom 0 0 100 100)) true ]}.
Proof. vm_compute. reflexivity. Qed.

(** ** The tree and its boxes ([tools/renderers/decompose_boxes.py]) *)

Section TreeFacts.
Import DecomposeBoxes.

Lemma sibling_calls_columns E c y h sibs calls :
  sibling_calls E c y h sibs = Ok calls ->
  length calls = length sibs /\
  forall k b, calls !! k = Some b ->
    sibs !! k = Some (b_node b) /\ b_col b = c /\ in_column E b.
Proof.
  unfold sibling_calls, siblings.
  destruct (weights_of sibs) as [ws|]; simpl; [|discriminate].
  destruct (total_weight ws (length sibs)) as [t|]; simpl; [|discriminate].
  intros Hp. apply place_record_spec in Hp as [Hlen Hspec]; [|reflexivity].
  split; [exact Hlen|]. intros k b Hb.
  destruct (Hspec k b Hb) as (H1 & H2 & H3 & H4 & _).
  unfold in_column. rewrite H2. auto.
Qed.

Lemma replay_collect {T} (key : box -> T) (want : box -> list T) lay calls :
  Forall (fun c => forall boxes out,
            lay (b_node c) (b_col c) (b_x c) (b_y c) (b_w c) (b_h c) boxes
            = Ok out ->
            exists new, out = boxes ++ new /\ List.map key new = want c)
    calls ->
  forall boxes out, replay lay calls boxes = Ok out ->
  exists new, out = boxes ++ new /\ List.map key new = flat_map want calls.
Proof.
  induction 1 as [|c calls Hc Hcs IH]; simpl; intros boxes out.
  - intros [= <-]. exists []. rewrite app_nil_r. auto.
  - intros H. apply bind_ok in H as (b1 & Hl & Hr).
    apply Hc in Hl as (new1 & -> & Hq1).
    apply IH in Hr as (new2 & -> & Hq2).
    exists (new1 ++ new2). rewrite app_assoc. split; [reflexivity|].
    rewrite List.map_app, Hq1, Hq2. reflexivity.
Qed.

Lemma calls_walk c : forall calls sibs,
  length calls = length sibs ->
  (forall k b, calls !! k = Some b ->
     sibs !! k = Some (b_node b) /\ b_col b = c) ->
  flat_map (fun b => preorder_at (b_col b) (b_node b)) calls
  = flat_map (preorder_at c) sibs.
Proof.
  induction calls as [|b calls IH]; intros [|s sibs] Hlen Hk;
    simpl in *; try lia; [reflexivity|].
  destruct (Hk 0%nat b eq_refl) as [Hs Hc]. simpl in Hs.
  injection Hs as ->. rewrite Hc. f_equal.
  apply IH; [lia|]. intros k b' Hb'. apply (Hk (S k) b' Hb').
Qed.

Lemma depth_child nm wt chs ch :
  ch ∈ chs -> (depth ch < depth (Node nm wt chs))%nat.
Proof.
  intros Hin. simpl. destruct chs as [|c0 chs']; [inversion Hin|].
  set (chs := c0 :: chs') in *.
  assert (H : (depth ch <= list_max (List.map depth chs))%nat).
  { pose proof (proj1 (list_max_le (List.map depth chs) _) (Nat.le_refl _))
      as Hall.
    rewrite List.Forall_forall in Hall. apply Hall.
    apply List.in_map. apply list_elem_of_In. exact Hin. }
  lia.
Qed.

(** [layout] walks the tree below its node; as long as the columns
    suffice for the depth of the tree, a child is one column to the
    right of its parent. *)
Lemma layout_walk E nd : forall col x y w h boxes out,
  (col + depth nd < cols E)%nat ->
  layout E nd col x y w h boxes = Ok out ->
  exists new, out = boxes ++ new /\ List.map placed new = preorder_at col nd.
Proof.
  induction nd as [nm wt chs IH] using node_ind'.
  intros col x y w h boxes out Hd. simpl layout.
  destruct chs as [|ch chs'].
  - intros [= <-]. eexists. split; reflexivity.
  - set (chs := ch :: chs') in *.
    assert (Hpos : (0 < depth (Node nm wt chs))%nat) by (simpl; lia).
    replace (Nat.min (col + 1) (cols E - 1)) with (S col) by lia.
    intros H. apply siblings_replay in H as (calls & Hc & Hr).
    apply sibling_calls_columns in Hc as [Hlen Hk].
    eapply (replay_collect placed
              (fun b => preorder_at (b_col b) (b_node b))) in Hr
      as (new & -> & Hq).
    + exists (Box (Node nm wt chs) col x (Z.max y (content_top E)) w
               (Z.min h (content_top E + content_h E
                         - Z.max y (content_top E))) :: new).
      rewrite <- app_assoc. split; [reflexivity|].
      change (preorder_at col (Node nm wt chs))
        with ((Node nm wt chs, col) :: flat_map (preorder_at (S col)) chs).
      cbn [List.map]. f_equal. rewrite Hq.
      apply calls_walk; [exact Hlen|].
      intros k b Hb. destruct (Hk k b Hb) as (H1 & H2 & _). auto.
    + apply Forall_lookup. intros k b Hb bs o Ho.
      destruct (Hk k b Hb) as (H1 & H2 & _).
      apply list_elem_of_lookup_2 in H1.
      rewrite Forall_forall in IH.
      apply (IH _ H1) in Ho; [exact Ho|].
      pose proof (depth_child nm wt chs _ H1). rewrite H2. lia.
Qed.

Lemma make_env_cols data g E :
  make_env data g = Ok E ->
  cols E = S (depth_root (data_root data)) /\
  e_left E = left g /\
  content_top E + content_h E = top g + height g.
Proof.
  unfold make_env. intros H.
  apply bind_ok in H as (cg & _ & H).
  apply bind_ok in H as (cws & _ & H).
  apply bind_ok in H as (hh & _ & H).
  apply bind_ok in H as (gy & _ & H).
  injection H as <-. simpl. repeat split. lia.
Qed.

(** X1: [render] draws one box for each node of the tree, in the order
    of a depth-first walk with every parent before its children, and
    the box of a node is in the column of its depth: since
    [cols = depth + 1], the bound [min(col + 1, cols - 1)] on the column
    of a child is never reached.  For an empty list of roots nothing is
    drawn. *)
Theorem boxes_follow_tree data g out :
  render data g = Ok out ->
  List.map placed out = drawn (data_root data).
Proof.
  unfold render. destruct (make_env data g) as [E|] eqn:HE; [|discriminate].
  cbn [bind]. apply make_env_cols in HE as (Hcols & _ & _).
  unfold drawn. destruct (data_root data) as [nd|nds]; simpl in Hcols.
  - change (col_x E 0) with (Ok (e_left E)). cbn [bind].
    destruct (col_width E 0) as [w0|]; [|discriminate]. cbn [bind].
    intros H. apply layout_walk in H as (new & -> & Hn); [exact Hn | lia].
  - destruct nds as [|n0 nds']; [intros [= <-]; reflexivity|].
    set (nds := n0 :: nds') in *.
    intros H. apply siblings_replay in H as (calls & Hc & Hr).
    apply sibling_calls_columns in Hc as [Hlen Hk].
    eapply (replay_collect placed
              (fun b => preorder_at (b_col b) (b_node b))) in Hr
      as (new & -> & Hq).
    + rewrite app_nil_l, Hq. apply calls_walk; [exact Hlen|].
      intros k b Hb. destruct (Hk k b Hb) as (H1 & H2 & _). auto.
    + apply Forall_lookup. intros k b Hb bs o Ho.
      destruct (Hk k b Hb) as (H1 & H2 & _).
      apply list_elem_of_lookup_2 in H1.
      apply layout_walk in Ho; [exact Ho|]. rewrite H2, Hcols.
      assert (depth (b_node b) <= list_max (List.map depth nds))%nat; [|lia].
      pose proof (proj1 (list_max_le (List.map depth nds) _) (Nat.le_refl _))
        as Hall.
      rewrite List.Forall_forall in Hall. apply Hall.
      apply List.in_map. apply list_elem_of_In. exact H1.
Qed.

(** *** Columns *)

Lemma layout_columns E nd : forall col x y w h boxes out,
  col_x E col = Ok x -> col_width E col = Ok w ->
  layout E nd col x y w h boxes = Ok out ->
  exists new, out = boxes ++ new /\ Forall (in_column E) new.
Proof.
  induction nd as [nm wt chs IH] using node_ind'.
  intros col x y w h boxes out Hx Hw. simpl layout.
  destruct chs as [|ch chs'].
  - intros [= <-]. eexists. split; [reflexivity|].
    constructor; [split; assumption | constructor].
  - set (chs := ch :: chs') in *.
    intros H. apply siblings_replay in H as (calls & Hc & Hr).
    apply sibling_calls_columns in Hc as [Hlen Hk].
    eapply (replay_appends (in_column E)) in Hr as (new & -> & Hq).
    + eexists. rewrite <- app_assoc. split; [reflexivity|].
      constructor; [split; assumption | exact Hq].
    + apply Forall_lookup. intros k b Hb bs o Ho.
      destruct (Hk k b Hb) as (H1 & H2 & H3 & H4).
      apply list_elem_of_lookup_2 in H1.
      rewrite Forall_forall in IH.
      apply (IH _ H1) in Ho; assumption.
Qed.

(** X2: every box that [render] draws is at the position [col_x] and
    has the width [col_width] of its column, so two boxes of one column
    have the same [x] and the same width. *)
Theorem boxes_aligned_in_columns data g out :
  render data g = Ok out ->
  exists E, make_env data g = Ok E /\
    (forall b, b ∈ out -> in_column E b) /\
    (forall b1 b2, b1 ∈ out -> b2 ∈ out -> b_col b1 = b_col b2 ->
       b_x b1 = b_x b2 /\ b_w b1 = b_w b2).
Proof.
  intros H.
  assert (Hall : exists E, make_env data g = Ok E /\
                           Forall (in_column E) out).
  { revert H. unfold render.
    destruct (make_env data g) as [E|]; [|discriminate].
    cbn [bind]. intros H. exists E. split; [reflexivity|].
    destruct (data_root data) as [nd|nds].
    - change (col_x E 0) with (Ok (e_left E)) in H. cbn [bind] in H.
      destruct (col_width E 0) as [w0|] eqn:Ew; [|discriminate].
      cbn [bind] in H.
      apply layout_columns in H as (new & -> & Hn);
        [exact Hn | reflexivity | exact Ew].
    - destruct nds as [|n0 nds']; [injection H as <-; constructor|].
      apply siblings_replay in H as (calls & Hc & Hr).
      apply sibling_calls_columns in Hc as [Hlen Hk].
      eapply (replay_appends (in_column E)) in Hr as (new & -> & Hn);
        [exact Hn|].
      apply Forall_lookup. intros k b Hb bs o Ho.
      destruct (Hk k b Hb) as (H1 & H2 & H3 & H4).
      apply layout_columns in Ho; assumption. }
  destruct Hall as (E & HE & Hall). rewrite Forall_forall in Hall.
  exists E. split; [exact HE|]. split; [exact Hall|].
  intros b1 b2 H1 H2 Hc.
  destruct (Hall _ H1) as [Hx1 Hw1], (Hall _ H2) as [Hx2 Hw2].
  rewrite Hc in Hx1, Hw1. split; congruence.
Qed.

(** *** Exceptions *)

Lemma raises_only_bind {A B} L (r : result A) (k : A -> result B) :
  raises_only L r -> (forall a, r = Ok a -> raises_only L (k a)) ->
  raises_only L (x <- r ;; k x).
Proof.
  unfold raises_only. destruct r as [a|e]; simpl; intros H1 H2; [eauto|].
  intros e' [= <-]. apply H1. reflexivity.
Qed.

Lemma raises_only_ok {A} L (a : A) : raises_only L (Ok a).
Proof. intros e. discriminate. Qed.

Lemma float_of_int_errors z : raises_only conversion_errors (float_of_int z).
Proof.
  intros e H. apply float_of_int_raises in H as ->.
  unfold conversion_errors. set_solver.
Qed.

Lemma int_of_float_errors v : raises_only conversion_errors (int_of_float v).
Proof.
  intros e. unfold conversion_errors.
  destruct v; simpl; intros [= <-]; set_solver.
Qed.

Lemma round_errors v : raises_only conversion_errors (round v).
Proof.
  intros e. unfold conversion_errors.
  destruct v; simpl; intros [= <-]; set_solver.
Qed.

Lemma mul_int_float_errors z f :
  raises_only conversion_errors (mul_int_float z f).
Proof.
  unfold mul_int_float. apply raises_only_bind;
    [apply float_of_int_errors | intros; apply raises_only_ok].
Qed.

Lemma int_scaled_errors z pct : raises_only conversion_errors (int_scaled z pct).
Proof.
  unfold int_scaled. apply raises_only_bind;
    [apply mul_int_float_errors | intros; apply int_of_float_errors].
Qed.

Lemma rounded_share_errors usable frac :
  raises_only conversion_errors (rounded_share usable frac).
Proof.
  unfold rounded_share. apply raises_only_bind;
    [apply mul_int_float_errors | intros; apply round_errors].
Qed.

Lemma index_in_range {A} L (l : list A) i :
  (i < length l)%nat -> raises_only L (index l i).
Proof.
  intros Hi e. unfold index.
  destruct (lookup_lt_is_Some_2 l i Hi) as [a ->]. discriminate.
Qed.

Lemma weights_of_errors sibs :
  raises_only conversion_errors (weights_of sibs) /\
  forall ws, weights_of sibs = Ok ws -> length ws = length sibs.
Proof.
  induction sibs as [|ch rest [IH1 IH2]]; simpl.
  - split; [apply raises_only_ok | intros ws [= <-]; reflexivity].
  - split.
    + apply raises_only_bind.
      * unfold weight_of. destruct (weight ch) as [[z|f]|]; simpl;
          [apply float_of_int_errors | apply raises_only_ok
          | apply raises_only_ok].
      * intros w _. apply raises_only_bind;
          [exact IH1 | intros; apply raises_only_ok].
    + intros ws H. apply bind_ok in H as (w & _ & H).
      apply bind_ok in H as (ws' & Hws & H). injection H as <-.
      simpl. f_equal. apply IH2. exact Hws.
Qed.

Lemma total_weight_errors ws n :
  raises_only conversion_errors (total_weight ws n).
Proof.
  unfold total_weight. destruct (is_zero _);
    [apply float_of_int_errors | apply raises_only_ok].
Qed.

Lemma frac_of_errors ws t n k :
  (0 < n)%nat -> (k < length ws)%nat ->
  raises_only conversion_errors (frac_of ws t n k).
Proof.
  intros Hn Hk. unfold frac_of.
  apply raises_only_bind; [apply index_in_range; exact Hk|].
  intros wt _. destruct (flt fzero t) eqn:Et.
  - unfold fdiv. destruct t as [s|s| |s m e]; try destruct s;
      try discriminate; apply raises_only_ok.
  - apply raises_only_bind; [apply float_of_int_errors|].
    intros nf Hnf. apply float_of_int_cases in Hnf.
    destruct (Z.of_nat n) eqn:En; try lia.
    destruct Hnf as (m & e & -> & _). apply raises_only_ok.
Qed.

Lemma col_x_loop_in_range L E : forall idx x,
  Forall (fun i => (i < length (col_widths E))%nat) idx ->
  raises_only L (col_x_loop E idx x).
Proof.
  induction idx as [|i idx IH]; intros x Hidx; simpl;
    [apply raises_only_ok|].
  inversion Hidx; subst.
  apply raises_only_bind; [apply index_in_range; assumption|].
  intros; apply IH; assumption.
Qed.

Lemma col_x_in_range L E c :
  columns_ok E -> (c < cols E)%nat -> raises_only L (col_x E c).
Proof.
  intros [Hpos Hlen] Hc. destruct c; simpl; [apply raises_only_ok|].
  apply raises_only_bind; [apply index_in_range; lia|].
  intros w0 _. apply col_x_loop_in_range.
  apply Forall_forall. intros i Hi.
  apply list_elem_of_In, in_seq in Hi. lia.
Qed.

Lemma col_width_in_range L E c :
  columns_ok E -> raises_only L (col_width E c).
Proof.
  intros [Hpos Hlen]. unfold col_width.
  destruct (c <? length (col_widths E))%nat eqn:Ec.
  - apply Nat.ltb_lt in Ec. apply index_in_range. exact Ec.
  - destruct (col_widths E) as [|w0 ws] eqn:Ews; [simpl in Hlen; lia|].
    apply index_in_range. simpl. lia.
Qed.

Lemma place_errors lay E c y h n ws t usable gap sibs :
  columns_ok E -> (c < cols E)%nat -> length ws = n ->
  Forall (fun ch => forall col x y w h boxes,
            (col < cols E)%nat ->
            raises_only conversion_errors (lay ch col x y w h boxes)) sibs ->
  forall i cursor boxes, (i + length sibs = n)%nat ->
    raises_only conversion_errors
      (place lay E c y h n ws t usable gap i sibs cursor boxes).
Proof.
  intros HE Hc Hws.
  induction 1 as [|ch rest Hch Hrest IH]; intros i cursor boxes Hn;
    simpl; [apply raises_only_ok|].
  simpl in Hn.
  apply raises_only_bind; [apply frac_of_errors; lia|]. intros frac _.
  apply raises_only_bind.
  { destruct (_ <? _)%nat; [apply rounded_share_errors | apply raises_only_ok]. }
  intros ch_h _.
  apply raises_only_bind; [apply col_x_in_range; assumption|]. intros cx _.
  apply raises_only_bind; [apply col_width_in_range; assumption|].
  intros cw _.
  apply raises_only_bind; [apply Hch; exact Hc|]. intros b' _.
  apply IH. lia.
Qed.

Lemma siblings_errors lay E c y h sibs boxes :
  columns_ok E -> (c < cols E)%nat ->
  Forall (fun ch => forall col x y w h boxes,
            (col < cols E)%nat ->
            raises_only conversion_errors (lay ch col x y w h boxes)) sibs ->
  raises_only conversion_errors (siblings lay E c y h sibs boxes).
Proof.
  intros HE Hc Hl. unfold siblings.
  destruct (weights_of_errors sibs) as [Hw1 Hw2].
  apply raises_only_bind; [exact Hw1|]. intros ws Hws.
  apply raises_only_bind; [apply total_weight_errors|]. intros t _.
  apply place_errors; auto.
Qed.

Lemma layout_errors E nd : columns_ok E -> forall col x y w h boxes,
  (col < cols E)%nat ->
  raises_only conversion_errors (layout E nd col x y w h boxes).
Proof.
  intros HE. induction nd as [nm wt chs IH] using node_ind'.
  intros col x y w h boxes Hc. simpl.
  destruct chs as [|ch chs']; [apply raises_only_ok|].
  apply siblings_errors; [exact HE | destruct HE; lia | exact IH].
Qed.

Lemma make_env_columns data g E :
  make_env data g = Ok E -> columns_ok E.
Proof.
  unfold make_env, columns_ok. intros H.
  apply bind_ok in H as (cg & _ & H).
  apply bind_ok in H as (cws & Hcws & H).
  apply bind_ok in H as (hh & _ & H).
  apply bind_ok in H as (gy & _ & H).
  injection H as <-. simpl. split; [lia|].
  destruct (1 <? S (depth_root (data_root data)))%nat eqn:Ec.
  - apply bind_ok in Hcws as (f & _ & Hcws). injection Hcws as <-.
    simpl. rewrite repeat_length. lia.
  - injection Hcws as <-. apply Nat.ltb_ge in Ec. simpl. lia.
Qed.

Lemma make_env_errors data g :
  raises_only conversion_errors (make_env data g).
Proof.
  unfold make_env.
  apply raises_only_bind.
  { destruct (_ <? _)%nat; [apply int_scaled_errors | apply raises_only_ok]. }
  intros cg _. apply raises_only_bind.
  { destruct (_ <? _)%nat; [|apply raises_only_ok].
    apply raises_only_bind;
      [apply int_scaled_errors | intros; apply raises_only_ok]. }
  intros cws _. apply raises_only_bind.
  { destruct (truthy_headers _);
      [apply int_scaled_errors | apply raises_only_ok]. }
  intros hh _. apply raises_only_bind;
    [apply int_scaled_errors | intros; apply raises_only_ok].
Qed.

(** X3: the layout of [render] raises no [IndexError], the lookups
    [col_widths[i]] and [weights[i]] being always in range, and no
    [ZeroDivisionError]: for a tree whose weights are numbers its only
    exceptions are [OverflowError] and [ValueError], raised by the
    conversions between integers and floats. *)
Theorem render_raises_only_conversion_errors data g e :
  render data g = Raise e -> e = OverflowError \/ e = ValueError.
Proof.
  assert (H : raises_only conversion_errors (render data g)).
  { unfold render. apply raises_only_bind; [apply make_env_errors|].
    intros E HE. apply make_env_columns in HE.
    assert (H0 : (0 < cols E)%nat) by (destruct HE; lia).
    destruct (data_root data) as [nd|nds].
    - apply raises_only_bind; [apply col_x_in_range; assumption|].
      intros x0 _.
      apply raises_only_bind; [apply col_width_in_range; assumption|].
      intros w0 _. apply layout_errors; assumption.
    - destruct nds as [|n0 nds']; [apply raises_only_ok|].
      apply siblings_errors; [assumption | assumption|].
      apply Forall_forall. intros ch _ col x y w h boxes Hc.
      apply layout_errors; assumption. }
  intros He. apply H in He. unfold conversion_errors in He.
  apply elem_of_cons in He as [->|He]; [left; reflexivity|].
  apply elem_of_cons in He as [->|He]; [right; reflexivity|].
  inversion He.
Qed.

(** *** The columns across the width *)

Lemma col_x_loop_steps E o : forall k a x,
  (forall i, (a <= i < a + k)%nat -> col_widths E !! i = Some o) ->
  col_x_loop E (seq a k) x = Ok (x + Z.of_nat k * (o + col_gap E)).
Proof.
  induction k as [|k IH]; intros a x Hi; simpl seq; simpl col_x_loop.
  - f_equal. lia.
  - unfold index. rewrite (Hi a) by lia. cbn [bind].
    rewrite IH by (intros i Hr; apply Hi; lia). f_equal. lia.
Qed.

Lemma lookup_repeat {A} (a : A) : forall n i,
  (i < n)%nat -> repeat a n !! i = Some a.
Proof.
  induction n as [|n IH]; intros [|i] Hi; simpl; try lia; [reflexivity|].
  apply IH. lia.
Qed.

Lemma make_env_widths data g E :
  make_env data g = Ok E ->
  (cols E = 1%nat /\ col_widths E = [width g]) \/
  ((1 < cols E)%nat /\
   exists first,
     col_widths E =
       first :: repeat ((width g - col_gap E * (Z.of_nat (cols E) - 1)
                         - first) / (Z.of_nat (cols E) - 1))
                  (cols E - 1)).
Proof.
  unfold make_env. intros H.
  apply bind_ok in H as (cg & _ & H).
  apply bind_ok in H as (cws & Hcws & H).
  apply bind_ok in H as (hh & _ & H).
  apply bind_ok in H as (gy & _ & H).
  injection H as <-. simpl.
  destruct (1 <? S (depth_root (data_root data)))%nat eqn:Ec.
  - right. apply Nat.ltb_lt in Ec. split; [exact Ec|].
    apply bind_ok in Hcws as (f & _ & Hcws). injection Hcws as <-.
    exists f. reflexivity.
  - left. apply Nat.ltb_ge in Ec. injection Hcws as <-.
    split; [lia | reflexivity].
Qed.

(** X4: the columns lie side by side from the left edge of the
    component: column 0 starts at [left], every next column starts
    [col_gap] after the end of the one before it, and the last column
    ends at the right edge [left + width] or less than [cols - 1] units
    before it (with one column: exactly there), never beyond. *)
Theorem columns_tile_width data g E c :
  make_env data g = Ok E -> (c < cols E)%nat ->
  exists x w,
    col_x E c = Ok x /\ col_width E c = Ok w /\
    (c = 0%nat -> x = left g) /\
    ((S c < cols E)%nat -> col_x E (S c) = Ok (x + w + col_gap E)) /\
    (S c = cols E ->
     x + w <= left g + width g < x + w + Z.max 1 (Z.of_nat c)).
Proof.
  intros HE Hc.
  destruct (make_env_cols _ _ _ HE) as (_ & Hleft & _).
  destruct (make_env_widths _ _ _ HE) as [[H1 Hws]|[H1 [first Hws]]].
  - assert (c = 0%nat) as -> by lia.
    exists (left g), (width g). unfold col_width. rewrite Hws. simpl.
    rewrite Hleft. repeat split; try reflexivity; try lia.
  - set (m := Z.of_nat (cols E) - 1) in *.
    set (o := (width g - col_gap E * m - first) / m) in *.
    assert (Hm : 0 < m) by (unfold m; lia).
    assert (Hlen : length (col_widths E) = cols E).
    { rewrite Hws. simpl. rewrite repeat_length. lia. }
    assert (Ho : forall i, (1 <= i < cols E)%nat ->
                           col_widths E !! i = Some o).
    { intros i Hi. rewrite Hws. destruct i as [|i]; [lia|]. simpl.
      apply lookup_repeat. lia. }
    assert (H0 : col_widths E !! 0%nat = Some first)
      by (rewrite Hws; reflexivity).
    assert (Hx : forall k, (k < cols E)%nat ->
              col_x E (S k) =
              Ok (e_left E + first + col_gap E
                  + Z.of_nat k * (o + col_gap E))).
    { intros k Hk. unfold col_x, index. rewrite H0. cbn [bind].
      replace (S k - 1)%nat with k by lia.
      apply col_x_loop_steps. intros i Hi. apply Ho. lia. }
    assert (Hw : forall k, (k < cols E)%nat ->
              col_width E k = Ok (if k is O then first else o)).
    { intros k Hk. unfold col_width.
      assert ((k <? length (col_widths E))%nat = true) as ->
        by (apply Nat.ltb_lt; lia).
      unfold index. destruct k as [|k]; [rewrite H0 | rewrite Ho by lia];
        reflexivity. }
    destruct c as [|c].
    + exists (e_left E), first. rewrite Hw by lia.
      repeat split; try reflexivity; try lia.
      intros Hs. rewrite (Hx 0%nat) by lia. f_equal. lia.
    + exists (e_left E + first + col_gap E + Z.of_nat c * (o + col_gap E)), o.
      rewrite Hx by lia. rewrite Hw by lia.
      repeat split; try reflexivity; try lia.
      * intros Hs. rewrite Hx by lia. f_equal. lia.
      * pose proof (Z.mul_div_le (width g - col_gap E * m - first) m Hm).
        fold o in H. nia.
      * pose proof (Z.mul_succ_div_gt (width g - col_gap E * m - first) m Hm).
        fold o in H. nia.
Qed.

(** *** The component's top and bottom *)

Lemma int_scaled_nonneg z pct r :
  0 <= z -> nonneg pct = true -> int_scaled z pct = Ok r -> 0 <= r.
Proof.
  intros Hz Hp. unfold int_scaled, mul_int_float. intros H.
  apply bind_ok in H as (v & Hv & H).
  apply bind_ok in Hv as (x & Hx & Hv). injection Hv as <-.
  apply float_of_int_nonneg in Hx; [|exact Hz].
  apply int_of_float_floor in H; [tauto|].
  apply fmul_nonneg; assumption.
Qed.

Lemma make_env_band data g E :
  0 <= height g -> make_env data g = Ok E ->
  top g <= content_top E /\
  (truthy_headers (column_headers data) = false ->
   content_top E = top g /\ content_h E = height g).
Proof.
  intros Hh. unfold make_env. intros H.
  apply bind_ok in H as (cg & _ & H).
  apply bind_ok in H as (cws & _ & H).
  apply bind_ok in H as (hh & Hhh & H).
  apply bind_ok in H as (gy & _ & H).
  injection H as <-. simpl.
  destruct (truthy_headers (column_headers data)).
  - apply int_scaled_nonneg in Hhh; [|exact Hh | reflexivity].
    split; [lia | discriminate].
  - injection Hhh as <-. split; [lia|]. intros _. split; lia.
Qed.

(** X5: in a component whose height is not negative, every box that
    [render] draws starts at the top edge of the component or below it,
    and its end [y + h] is at the bottom edge or above it, the header
    band being inside the component; so a box whose height is not
    negative lies wholly between the two edges.  A box of negative
    height, which the last sibling gets when the rounded shares
    overshoot, is not covered by that: it may start below the bottom
    edge.  Without column headers the box of a single root starts at
    the top edge and has the whole height. *)
Theorem boxes_inside_component data g out :
  0 <= height g -> render data g = Ok out ->
  Forall (inside g) out /\
  (forall b, b ∈ out -> 0 <= b_h b -> within g b) /\
  (truthy_headers (column_headers data) = false ->
   forall nd, data_root data = Single nd ->
     exists b rest, out = b :: rest /\ b_node b = nd /\
                    b_y b = top g /\ b_h b = height g).
Proof.
  intros Hh H.
  assert (Hin : Forall (inside g) out).
  { apply render_stays_in_band in H as (E & HE & Hall).
    destruct (make_env_cols _ _ _ HE) as (_ & _ & Hb).
    destruct (make_env_band _ _ _ Hh HE) as [Ht _].
    eapply Forall_impl; [exact Hall|].
    intros b [H1 H2]. unfold inside. lia. }
  split; [exact Hin|]. split.
  - intros b Hb Hnn.
    apply List.Forall_forall with (x := b) in Hin;
      [|apply list_elem_of_In; exact Hb].
    destruct Hin as [H1 H2]. unfold within. lia.
  - intros Hhd nd Hnd. revert H. unfold render.
    destruct (make_env data g) as [E|] eqn:HE; [|discriminate].
    cbn [bind]. rewrite Hnd.
    destruct (make_env_band _ _ _ Hh HE) as [_ Hb].
    destruct (Hb Hhd) as [Hct Hch].
    change (col_x E 0) with (Ok (e_left E)). cbn [bind].
    destruct (col_width E 0) as [w0|]; [|discriminate]. cbn [bind].
    intros H. apply layout_boxes in H as (rest & -> & _).
    eexists _, rest. split; [reflexivity|]. simpl.
    repeat split; lia.
Qed.

(** *** An only child *)

(** X6: an only child is given the vertical extent of its parent,
    whatever its weight: its box has the [y] and the height of the box
    of the parent. *)
Theorem only_child_fills_parent E nm wt ch col x y w h boxes out :
  layout E (Node nm wt [ch]) col x y w h boxes = Ok out ->
  exists p c rest,
    out = boxes ++ p :: c :: rest /\
    b_node p = Node nm wt [ch] /\ b_node c = ch /\
    b_y c = b_y p /\ b_h c = b_h p.
Proof.
  simpl layout.
  set (y' := Z.max y (content_top E)).
  set (h' := Z.min h (content_top E + content_h E - y')).
  intros H. apply siblings_replay in H as (calls & Hc & Hr).
  apply sibling_calls_level in Hc; [|discriminate].
  destruct Hc as (ws & t & _ & _ & Hlen & Hk & _). simpl in Hlen.
  destruct calls as [|b [|b' calls]]; simpl in Hlen; try lia.
  destruct (Hk 0%nat b eq_refl) as (Hn & Hy & _ & Hh).
  specialize (Hh eq_refl). simpl in Hn. injection Hn as Hn.
  unfold sumZ in Hy. simpl in Hy.
  simpl in Hr. apply bind_ok in Hr as (o & Hl & Ho). injection Ho as <-.
  apply layout_boxes in Hl as (rest & -> & _).
  eexists _, _, rest. rewrite <- app_assoc. split; [reflexivity|].
  simpl. repeat split; [symmetry; exact Hn | |]; lia.
Qed.

End TreeFacts.

Section TreeWitnesses.
Import DecomposeBoxes.

Lemma boxes_follow_tree_witness :
  List.map placed
    [Box (Node "A" (Some (Int 1)) [leaf "a1"; leaf "a2"]) 0 0 0 194 5;
     Box (leaf "a1") 1 224 0 776 2;
     Box (leaf "a2") 1 224 2 776 3;
     Box (Node "B" (Some (Int 197)) []) 0 0 15 194 985]
  = drawn (data_root example_roots).
Proof.
  apply (boxes_follow_tree example_roots example_geom).
  vm_compute. reflexivity.
Defined.

Lemma boxes_aligned_in_columns_witness :
  exists E, make_env example_roots example_geom = Ok E /\
    (forall b,
       b ∈ [Box (Node "A" (Some (Int 1)) [leaf "a1"; leaf "a2"]) 0 0 0 194 5;
            Box (leaf "a1") 1 224 0 776 2;
            Box (leaf "a2") 1 224 2 776 3;
            Box (Node "B" (Some (Int 197)) []) 0 0 15 194 985] ->
       in_column E b) /\
    (forall b1 b2,
       b1 ∈ [Box (Node "A" (Some (Int 1)) [leaf "a1"; leaf "a2"]) 0 0 0 194 5;
             Box (leaf "a1") 1 224 0 776 2;
             Box (leaf "a2") 1 224 2 776 3;
             Box (Node "B" (Some (Int 197)) []) 0 0 15 194 985] ->
       b2 ∈ [Box (Node "A" (Some (Int 1)) [leaf "a1"; leaf "a2"]) 0 0 0 194 5;
             Box (leaf "a1") 1 224 0 776 2;
             Box (leaf "a2") 1 224 2 776 3;
             Box (Node "B" (Some (Int 197)) []) 0 0 15 194 985] ->
       b_col b1 = b_col b2 -> b_x b1 = b_x b2 /\ b_w b1 = b_w b2).
Proof.
  apply (boxes_aligned_in_columns example_roots example_geom).
  vm_compute. reflexivity.
Defined.

Lemma render_raises_only_conversion_errors_witness :
  OverflowError = OverflowError \/ OverflowError = ValueError.
Proof.
  apply (render_raises_only_conversion_errors
           (Schema (Single (leaf "r")) None) (Geom 0 0 100 (2 ^ 1024))).
  vm_compute. reflexivity.
Defined.

(** Both exceptions occur: a height beyond the range of a float, and a
    weight that is not a number. *)
Example render_conversion_errors :
  render (Schema (Single (leaf "r")) None) (Geom 0 0 100 (2 ^ 1024))
  = Raise OverflowError /\
  render (Schema (Roots [Node "a" (Some (Float S754_nan)) []; leaf "b"]) None)
    (Geom 0 0 100 100)
  = Raise ValueError.
Proof. split; vm_compute; reflexivity. Qed.

Lemma columns_tile_width_witness :
  exists x w,
    col_x example_env 1 = Ok x /\ col_width example_env 1 = Ok w /\
    (1%nat = 0%nat -> x = left example_geom) /\
    ((2 < cols example_env)%nat ->
     col_x example_env 2 = Ok (x + w + col_gap example_env)) /\
    (2%nat = cols example_env ->
     x + w <= left example_geom + width example_geom
     < x + w + Z.max 1 (Z.of_nat 1)).
Proof.
  apply (columns_tile_width example_roots example_geom example_env 1).
  - vm_compute. reflexivity.
  - simpl. lia.
Defined.

(** A single root with seven leaves in a component 11 high: the root
    has the whole height, the first six leaves lie between the edges,
    and the seventh, of height -1, starts at 12, below the bottom edge,
    and ends at it. *)
Lemma boxes_inside_component_witness :
  Forall (inside seven_geom) seven_boxes /\
  within seven_geom (Box (leaf "6") 1 10 10 40 1) /\
  (exists b rest, seven_boxes = b :: rest /\ b_node b = seven /\
                  b_y b = top seven_geom /\ b_h b = height seven_geom) /\
  ~ within seven_geom (Box (leaf "7") 1 10 12 40 (-1)).
Proof.
  destruct (boxes_inside_component (Schema (Single seven) None) seven_geom
              seven_boxes) as (Hin & Hw & Hroot).
  - simpl. lia.
  - vm_compute. reflexivity.
  - split; [exact Hin|]. split; [|split].
    + apply Hw; [|simpl; lia].
      apply list_elem_of_In. simpl. tauto.
    + apply (Hroot eq_refl seven eq_refl).
    + unfold within. simpl. lia.
Defined.

Lemma only_child_fills_parent_witness :
  exists p c rest,
    [Box (Node "p" None [Node "c" (Some (Int 0)) []]) 0 0 0 194 1000;
     Box (Node "c" (Some (Int 0)) []) 1 224 0 776 1000]
    = [] ++ p :: c :: rest /\
    b_node p = Node "p" None [Node "c" (Some (Int 0)) []] /\
    b_node c = Node "c" (Some (Int 0)) [] /\
    b_y c = b_y p /\ b_h c = b_h p.
Proof.
  apply (only_child_fills_parent example_env "p" None
           (Node "c" (Some (Int 0)) []) 0 0 0 194 1000 []).
  vm_compute. reflexivity.
Defined.

End TreeWitnesses.

(** ** The loop over the components ([render.py]) *)

Section LoopFacts.
Import Render.

(** *** The z-order *)

Lemma insert_by_z_perm c l : insert_by_z c l ≡ₚ c :: l.
Proof.
  induction l as [|d l IH]; simpl; [reflexivity|].
  destruct (z_of c <=? z_of d); [reflexivity|].
  rewrite IH. apply Permutation_swap.
Qed.

Lemma insert_by_z_sorted c l :
  Sorted.StronglySorted (fun a b => z_of a <= z_of b) l ->
  Sorted.StronglySorted (fun a b => z_of a <= z_of b) (insert_by_z c l).
Proof.
  induction 1 as [|d l Hs IH Hd]; simpl.
  - repeat constructor.
  - destruct (z_of c <=? z_of d) eqn:E.
    + apply Z.leb_le in E. constructor; [constructor; assumption|].
      constructor; [exact E|].
      eapply Forall_impl; [exact Hd|]. simpl. intros; lia.
    + apply Z.leb_gt in E. constructor; [exact IH|].
      rewrite (insert_by_z_perm c l). constructor; [lia | exact Hd].
Qed.

Lemma insert_by_z_with_z z c l :
  Sorted.StronglySorted (fun a b => z_of a <= z_of b) l ->
  with_z z (insert_by_z c l) = with_z z (c :: l).
Proof.
  unfold with_z.
  induction 1 as [|d l Hs IH Hd]; simpl; [reflexivity|].
  destruct (z_of c <=? z_of d) eqn:E; [reflexivity|].
  apply Z.leb_gt in E. simpl. rewrite IH. simpl.
  destruct (z_of c =? z) eqn:Ec, (z_of d =? z) eqn:Ed; try reflexivity.
  apply Z.eqb_eq in Ec, Ed. lia.
Qed.

Lemma sort_by_z_sorted comps :
  Sorted.StronglySorted (fun a b => z_of a <= z_of b) (sort_by_z comps).
Proof.
  induction comps as [|c comps IH]; simpl;
    [constructor | apply insert_by_z_sorted; exact IH].
Qed.

Lemma sort_by_z_perm comps : sort_by_z comps ≡ₚ comps.
Proof.
  induction comps as [|c comps IH]; simpl; [reflexivity|].
  rewrite insert_by_z_perm, IH. reflexivity.
Qed.

(** X7: the z-order of a slide is a stable sort: the sorted list has
    the components of the slide, each as often as the slide has it, in
    ascending order of [z_index] (0 when absent), and the components
    with one and the same [z_index] keep the order they have in the
    slide. *)
Theorem sort_by_z_is_stable comps :
  sort_by_z comps ≡ₚ comps /\
  Sorted.StronglySorted (fun a b => z_of a <= z_of b) (sort_by_z comps) /\
  forall z, with_z z (sort_by_z comps) = with_z z comps.
Proof.
  split; [apply sort_by_z_perm|]. split; [apply sort_by_z_sorted|].
  intros z. induction comps as [|c comps IH]; simpl; [reflexivity|].
  rewrite insert_by_z_with_z by apply sort_by_z_sorted.
  unfold with_z in *. simpl. rewrite IH. reflexivity.
Qed.

(** X8: when the title component is added to a slide none of whose
    components has a [z_index] below -1000, it is the first component
    of the z-order, and the others follow in their own z-order. *)
Theorem auto_title_is_drawn_first spec slide_title :
  truthy (s_title spec) = Some slide_title ->
  existsb is_title_tool (s_components spec) = false ->
  (forall c, c ∈ s_components spec -> -1000 <= z_of c) ->
  sort_by_z (inject_title spec) =
  auto_title_comp slide_title :: sort_by_z (s_components spec).
Proof.
  intros Ht Hno Hz. unfold inject_title. rewrite Ht, Hno. simpl.
  assert (Hall : Forall (fun c => -1000 <= z_of c)
                   (sort_by_z (s_components spec))).
  { apply Forall_forall. intros c Hc. apply Hz.
    rewrite <- (sort_by_z_perm (s_components spec)). exact Hc. }
  destruct (sort_by_z (s_components spec)) as [|d l]; [reflexivity|].
  simpl. inversion Hall; subst.
  change (z_of (auto_title_comp slide_title)) with (-1000).
  assert ((-1000 <=? z_of d) = true) as -> by (apply Z.leb_le; assumption).
  reflexivity.
Qed.

(** *** Logical grouping *)

Lemma min_list_le d l : min_list d l <= d /\ Forall (fun x => min_list d l <= x) l.
Proof.
  unfold min_list. induction l as [|a l [IH1 IH2]]; simpl.
  - split; [lia | constructor].
  - split; [lia|]. constructor; [lia|].
    eapply Forall_impl; [exact IH2|]. simpl. intros; lia.
Qed.

Lemma max_list_ge d l : d <= max_list d l /\ Forall (fun x => x <= max_list d l) l.
Proof.
  unfold max_list. induction l as [|a l [IH1 IH2]]; simpl.
  - split; [lia | constructor].
  - split; [lia|]. constructor; [lia|].
    eapply Forall_impl; [exact IH2|]. simpl. intros; lia.
Qed.

Lemma min_list_attained d l : min_list d l = d \/ min_list d l ∈ l.
Proof.
  unfold min_list. induction l as [|a l IH]; simpl; [left; reflexivity|].
  destruct (Z.min_spec a (fold_right Z.min d l)) as [[_ ->]|[_ ->]].
  - right. left.
  - destruct IH as [IH|IH]; [left; exact IH | right; right; exact IH].
Qed.

Lemma max_list_attained d l : max_list d l = d \/ max_list d l ∈ l.
Proof.
  unfold max_list. induction l as [|a l IH]; simpl; [left; reflexivity|].
  destruct (Z.max_spec a (fold_right Z.max d l)) as [[_ ->]|[_ ->]].
  - destruct IH as [IH|IH]; [left; exact IH | right; right; exact IH].
  - right. left.
Qed.

Lemma attained_by {A} (f : A -> Z) (a0 : A) (l : list A) v :
  a0 ∈ l -> v = f a0 \/ v ∈ List.map f l -> exists a, a ∈ l /\ f a = v.
Proof.
  intros H0 [->|Hv]; [eauto|].
  apply list_elem_of_In, in_map_iff in Hv as (a & <- & Ha).
  exists a. split; [apply list_elem_of_In; exact Ha | reflexivity].
Qed.

(** X9: [_bbox] is [None] exactly for the empty list; for other lists
    it is the smallest box that holds every shape: each shape lies
    inside it, and each of its four sides is the side of some shape. *)
Theorem bbox_is_bounding_box shs :
  (_bbox shs = None <-> shs = []) /\
  forall g, _bbox shs = Some g ->
    (forall s, s ∈ shs -> encloses g s) /\
    (exists s, s ∈ shs /\ left (shape_box s) = left g) /\
    (exists s, s ∈ shs /\ top (shape_box s) = top g) /\
    (exists s, s ∈ shs /\ shape_right s = left g + width g) /\
    (exists s, s ∈ shs /\ shape_bottom s = top g + height g).
Proof.
  split.
  - destruct shs; simpl; split; intros; congruence.
  - intros g. destruct shs as [|s0 rest]; [discriminate|].
    set (shs := s0 :: rest). unfold _bbox. fold shs.
    set (lefts := List.map (fun s => left (shape_box s)) shs).
    set (tops := List.map (fun s => top (shape_box s)) shs).
    set (rights :=
           List.map (fun s => left (shape_box s) + width (shape_box s)) shs).
    set (bottoms :=
           List.map (fun s => top (shape_box s)
                              + height (shape_box s)) shs).
    set (gl := min_list (left (shape_box s0)) lefts).
    set (gt := min_list (top (shape_box s0)) tops).
    set (gr := max_list (left (shape_box s0) + width (shape_box s0)) rights).
    set (gb := max_list (top (shape_box s0)
                         + height (shape_box s0)) bottoms).
    cbv zeta. intros Hg.
    assert (Hg' : Geom gl gt (gr - gl) (gb - gt) = g)
      by exact (f_equal (fun o => match o with Some x => x | None => g end)
                  Hg).
    rewrite <- Hg'. clear Hg Hg'. cbn [left top width height].
    assert (H0 : s0 ∈ shs) by left.
    split; [|repeat split].
    + intros s Hs. unfold encloses, shape_right, shape_bottom.
      cbn [left top width height].
      destruct (min_list_le (left (shape_box s0)) lefts) as [_ Hl].
      destruct (min_list_le (top (shape_box s0)) tops) as [_ Ht].
      destruct (max_list_ge (left (shape_box s0) + width (shape_box s0))
                  rights) as [_ Hr].
      destruct (max_list_ge (top (shape_box s0)
                             + height (shape_box s0)) bottoms) as [_ Hb].
      fold gl in Hl. fold gt in Ht. fold gr in Hr. fold gb in Hb.
      rewrite Forall_forall in Hl, Ht, Hr, Hb.
      assert (Hin : forall f : shape -> Z, f s ∈ List.map f shs).
      { intros f. apply list_elem_of_In, in_map, list_elem_of_In. exact Hs. }
      specialize (Hl _ (Hin (fun s => left (shape_box s)))).
      specialize (Ht _ (Hin (fun s => top (shape_box s)))).
      specialize (Hr _ (Hin (fun s => left (shape_box s)
                                      + width (shape_box s)))).
      specialize (Hb _ (Hin (fun s => top (shape_box s)
                                      + height (shape_box s)))).
      cbv beta in *. lia.
    + apply (attained_by (fun s => left (shape_box s)) s0); [exact H0|].
      apply min_list_attained.
    + apply (attained_by (fun s => top (shape_box s)) s0);
        [exact H0|]. apply min_list_attained.
    + unfold shape_right.
      destruct (attained_by
                  (fun s => left (shape_box s) + width (shape_box s)) s0 shs
                  gr H0 (max_list_attained _ _)) as (s & Hs & Hv).
      exists s. split; [exact Hs|]. cbv beta in Hv. lia.
    + unfold shape_bottom.
      destruct (attained_by
                  (fun s => top (shape_box s) + height (shape_box s))
                  s0 shs gb H0 (max_list_attained _ _)) as (s & Hs & Hv).
      exists s. split; [exact Hs|]. cbv beta in Hv. lia.
Qed.

Lemma existsb_own_id sh shs :
  sh ∈ shs -> existsb (Z.eqb (shape_id sh)) (_snapshot_ids shs) = true.
Proof.
  intros H. apply existsb_exists. exists (shape_id sh).
  split; [|apply Z.eqb_refl].
  unfold _snapshot_ids. apply in_map, list_elem_of_In. exact H.
Qed.

(** X10: when a renderer appends shapes whose ids are not among the
    ids taken by [_snapshot_ids] before, [_new_shapes] returns exactly
    the appended shapes, in their order. *)
Theorem new_shapes_are_the_added_ones shs added :
  (forall s, s ∈ added -> shape_id s ∉ _snapshot_ids shs) ->
  _new_shapes (shs ++ added) (_snapshot_ids shs) = added.
Proof.
  intros Hfresh. unfold _new_shapes. rewrite List.filter_app.
  assert (H1 : List.filter
                 (fun sh => negb (existsb (Z.eqb (shape_id sh))
                                    (_snapshot_ids shs))) shs = []).
  { assert (Hsub : forall l, (forall s, s ∈ l -> s ∈ shs) ->
       List.filter (fun sh => negb (existsb (Z.eqb (shape_id sh))
                                      (_snapshot_ids shs))) l = []).
    { induction l as [|a l IH]; intros Hl; simpl; [reflexivity|].
      rewrite existsb_own_id by (apply Hl; left). simpl.
      apply IH. intros s Hs. apply Hl. right. exact Hs. }
    apply Hsub. auto. }
  rewrite H1. simpl.
  induction added as [|a added IH]; simpl; [reflexivity|].
  assert (Ha : existsb (Z.eqb (shape_id a)) (_snapshot_ids shs) = false).
  { destruct (existsb _ _) eqn:E; [|reflexivity]. exfalso.
    apply existsb_exists in E as (i & Hi & Hi').
    apply Z.eqb_eq in Hi'. subst i.
    apply (Hfresh a); [left|]. apply list_elem_of_In. exact Hi. }
  rewrite Ha. simpl. f_equal. apply IH.
  intros s Hs. apply Hfresh. right. exact Hs.
Qed.

(** *** The normalizer, applied twice *)

Lemma setdefault_present k v (d : gmap string value) :
  is_Some (d !! k) -> setdefault k v d = d.
Proof. intros [u Hu]. unfold setdefault. rewrite Hu. reflexivity. Qed.

Lemma normalize_complete d :
  is_Some (d !! "version") -> is_Some (d !! "meta") ->
  is_Some (d !! "theme") -> is_Some (d !! "slides") ->
  _normalize_ir (VDict d) = Ok (VDict d).
Proof.
  intros Hv Hm Ht [s Hs]. unfold _normalize_ir.
  rewrite (setdefault_present "version") by exact Hv.
  rewrite (setdefault_present "meta") by exact Hm.
  rewrite (setdefault_present "theme") by exact Ht.
  rewrite Hs. reflexivity.
Qed.

(** X11: [_normalize_ir] is idempotent: what it returns is returned
    unchanged when it is normalized again. *)
Theorem normalize_ir_is_idempotent ir v :
  _normalize_ir ir = Ok v -> _normalize_ir v = Ok v.
Proof.
  destruct ir as [| | | | |l|d]; try discriminate.
  - destruct (normalize_list l) as [s Hs]. rewrite Hs. intros [= <-].
    destruct (_mk_min_keys s) as (d & -> & Hv & Hm & Ht & Hsl).
    apply normalize_complete; assumption.
  - destruct (normalize_dict d) as (d' & Hd & (Hv & Hm & Ht & Hs) & _).
    rewrite Hd. intros [= <-]. apply normalize_complete; assumption.
Qed.

(** *** The registry of a slide *)

Variable schema_class : Type.
Variable model : Type.
Variable tool_module : Type.
Variable load_schema : string -> option schema_class.
Variable load_renderer : string -> option tool_module.
Variable load_tool : string -> option tool_module.
Variable validate : schema_class -> value -> option model.
Variable resolve : slide_spec -> component -> result geom.
Variable tool_render :
  tool_module -> payload model -> geom -> option Z -> list shape ->
  outcome.

Local Abbreviation dispatch' :=
  (dispatch model tool_module resolve tool_render).
Local Abbreviation render_component' :=
  (render_component schema_class model tool_module load_schema
     load_renderer load_tool validate resolve tool_render).
Local Abbreviation render_components' :=
  (render_components schema_class model tool_module load_schema
     load_renderer load_tool validate resolve tool_render).
Local Abbreviation render_slide' :=
  (render_slide schema_class model tool_module load_schema
     load_renderer load_tool validate resolve tool_render).
Local Abbreviation renders' :=
  (renders schema_class model tool_module load_schema load_renderer
     validate resolve tool_render).
Local Abbreviation written_for' := (written_for resolve).
Local Abbreviation given_up' :=
  (given_up schema_class model load_schema validate resolve).
Local Abbreviation leaves_key' :=
  (leaves_key schema_class model load_schema validate resolve).

Lemma dispatch_registry spec comp tool_name comp_id tl data st :
  truthy (c_tool comp) = Some tool_name ->
  registry (dispatch' spec comp tool_name comp_id tl data st) = registry st \/
  exists e,
    registry (dispatch' spec comp tool_name comp_id tl data st)
    = <[comp_id := e]> (registry st) /\
    written_for' spec comp tool_name e.
Proof.
  intros Ht. unfold dispatch.
  destruct (resolve spec comp) as [g|] eqn:Hr; [|left; reflexivity].
  destruct (String.eqb tool_name "table") eqn:Etab.
  - apply String.eqb_eq in Etab.
    destruct (raised _); [left; reflexivity|]. right.
    eexists. split; [reflexivity|].
    split; [exact Ht|]. split; [reflexivity|]. exists g.
    split; [exact Hr|]. left. exact Etab.
  - apply String.eqb_neq in Etab.
    destruct (c_group comp) as [[|]|] eqn:Eg.
    + destruct (_add_group_shape_compat (shapes st) g) as [shs gid].
      destruct (raised _); [left; reflexivity|]. right.
      eexists. split; [reflexivity|].
      split; [exact Ht|]. split; [reflexivity|]. exists g.
      split; [exact Hr|]. simpl. repeat split; congruence.
    + destruct (raised _); [left; reflexivity|]. right.
      eexists. split; [reflexivity|].
      split; [exact Ht|]. split; [reflexivity|]. exists g.
      split; [exact Hr|]. right. exact Eg.
    + destruct (_add_group_shape_compat (shapes st) g) as [shs gid].
      destruct (raised _); [left; reflexivity|]. right.
      eexists. split; [reflexivity|].
      split; [exact Ht|]. split; [reflexivity|]. exists g.
      split; [exact Hr|]. simpl. repeat split; congruence.
Qed.

(** A component that renders is written. *)
Lemma rendered_component_written spec slide_idx comp_idx comp tool_name st :
  renders' spec comp tool_name ->
  exists e,
    registry (render_component' spec slide_idx comp_idx comp st) =
    <[comp_id_of comp tool_name slide_idx comp_idx := e]> (registry st) /\
    written_for' spec comp tool_name e.
Proof.
  intros (sc & m & tl & g & Ht & Hs & Hv & Hl & Hr & Hok).
  unfold render_component. rewrite Ht, Hs, Hv, Hl.
  unfold dispatch. rewrite Hr.
  destruct (String.eqb tool_name "table") eqn:Etab.
  - apply String.eqb_eq in Etab. rewrite Hok.
    eexists. split; [reflexivity|].
    split; [exact Ht|]. split; [reflexivity|]. exists g.
    split; [exact Hr|]. left. exact Etab.
  - apply String.eqb_neq in Etab.
    destruct (c_group comp) as [[|]|] eqn:Eg.
    + destruct (_add_group_shape_compat (shapes st) g) as [shs gid].
      rewrite Hok. eexists. split; [reflexivity|].
      split; [exact Ht|]. split; [reflexivity|]. exists g.
      split; [exact Hr|]. simpl. repeat split; congruence.
    + rewrite Hok. eexists. split; [reflexivity|].
      split; [exact Ht|]. split; [reflexivity|]. exists g.
      split; [exact Hr|]. right. exact Eg.
    + destruct (_add_group_shape_compat (shapes st) g) as [shs gid].
      rewrite Hok. eexists. split; [reflexivity|].
      split; [exact Ht|]. split; [reflexivity|]. exists g.
      split; [exact Hr|]. simpl. repeat split; congruence.
Qed.

Lemma render_component_registry spec slide_idx comp_idx comp st :
  registry (render_component' spec slide_idx comp_idx comp st) = registry st \/
  exists tool_name e,
    registry (render_component' spec slide_idx comp_idx comp st)
    = <[comp_id_of comp tool_name slide_idx comp_idx := e]> (registry st) /\
    written_for' spec comp tool_name e.
Proof.
  unfold render_component.
  destruct (truthy (c_tool comp)) as [tool_name|] eqn:Ht; [|left; reflexivity].
  assert (Hd : forall tl data,
    registry (dispatch' spec comp tool_name
                (comp_id_of comp tool_name slide_idx comp_idx) tl data st)
    = registry st \/
    exists tool_name0 e,
      registry (dispatch' spec comp tool_name
                  (comp_id_of comp tool_name slide_idx comp_idx) tl data st)
      = <[comp_id_of comp tool_name0 slide_idx comp_idx := e]> (registry st) /\
      written_for' spec comp tool_name0 e).
  { intros tl data.
    destruct (dispatch_registry spec comp tool_name
                (comp_id_of comp tool_name slide_idx comp_idx) tl data st Ht)
      as [H|(e & H1 & H2)]; [left; exact H | right; eauto]. }
  destruct (load_schema tool_name) as [sc|].
  - destruct (validate sc (raw_data comp)) as [m|]; [|left; reflexivity].
    destruct (load_renderer tool_name) as [tl|]; [apply Hd|].
    destruct (load_tool tool_name) as [tl|]; [apply Hd | left; reflexivity].
  - destruct (load_tool tool_name) as [tl|]; [apply Hd | left; reflexivity].
Qed.

(** X12: every entry of the registry after the loop was there before
    or was written for a component of the list that has a tool and
    whose box the resolver found: its key is the id of the component
    or, without an id, [tool_slide_position], the position counted over
    all components of the z-order; it names the tool; a group entry has
    the resolved box as its [bbox] and is never written for a table or
    for a component with [group: false]. *)
Theorem registry_entries_come_from_components spec slide_idx comps :
  forall i st key e,
  registry (render_components' spec slide_idx i comps st) !! key = Some e ->
  registry st !! key = Some e \/
  exists j comp tool_name,
    comps !! j = Some comp /\
    key = comp_id_of comp tool_name slide_idx (i + j) /\
    written_for' spec comp tool_name e.
Proof.
  induction comps as [|c comps IH]; intros i st key e; simpl.
  - intros H. left. exact H.
  - intros H. apply IH in H as [H|(j & comp & tn & Hj & Hk & Hw)].
    + destruct (render_component_registry spec slide_idx i c st)
        as [Heq|(tn & e' & Heq & Hw)]; rewrite Heq in H.
      * left. exact H.
      * destruct (decide (comp_id_of c tn slide_idx i = key)) as [Hk|Hk].
        -- subst key. rewrite lookup_insert_eq in H. injection H as <-.
           right. exists 0%nat, c, tn. rewrite Nat.add_0_r. auto.
        -- rewrite lookup_insert_ne in H by exact Hk. left. exact H.
    + right. exists (S j), comp, tn.
      replace (i + S j)%nat with (S i + j)%nat by lia. auto.
Qed.

(** A component that is given up changes nothing. *)
Lemma given_up_skipped spec slide_idx comp_idx comp st :
  given_up' spec comp ->
  render_component' spec slide_idx comp_idx comp st = st.
Proof.
  intros [Hf|(e & Hr)]; [apply failing_component_skipped; exact Hf|].
  unfold render_component, dispatch. rewrite Hr.
  destruct (truthy (c_tool comp)) as [tool_name|]; [|reflexivity].
  destruct (load_schema tool_name) as [sc|].
  - destruct (validate sc (raw_data comp)) as [m|]; [|reflexivity].
    destruct (load_renderer tool_name) as [tl|]; [reflexivity|].
    destruct (load_tool tool_name) as [tl|]; reflexivity.
  - destruct (load_tool tool_name) as [tl|]; reflexivity.
Qed.

Lemma render_component_leaves_key spec slide_idx comp_idx key comp st :
  leaves_key' spec key slide_idx comp_idx comp ->
  registry (render_component' spec slide_idx comp_idx comp st) !! key
  = registry st !! key.
Proof.
  intros [Hg|Hk]; [rewrite given_up_skipped by exact Hg; reflexivity|].
  destruct (render_component_registry spec slide_idx comp_idx comp st)
    as [Heq|(tn & e' & Heq & Ht & _)]; rewrite Heq; [reflexivity|].
  apply lookup_insert_ne. apply Hk. exact Ht.
Qed.

Lemma render_components_leave_key spec slide_idx key post :
  forall i st,
  (forall j comp, post !! j = Some comp ->
     leaves_key' spec key slide_idx (i + j) comp) ->
  registry (render_components' spec slide_idx i post st) !! key
  = registry st !! key.
Proof.
  induction post as [|c post IH]; intros i st Hl; simpl; [reflexivity|].
  rewrite IH.
  - apply render_component_leaves_key.
    specialize (Hl 0%nat c eq_refl). rewrite Nat.add_0_r in Hl. exact Hl.
  - intros j comp Hj. replace (S i + j)%nat with (i + S j)%nat by lia.
    apply Hl. exact Hj.
Qed.

(** X13: the registry entry under an id belongs to the last component
    of the z-order that rendered under this id.  When a component
    renders and every later component either writes under another key
    or is given up (its data is rejected or its box is not resolved),
    then, whatever the registry held before and whatever the earlier
    components wrote, also under the same id, the entry found under
    the id after the loop is the one written for that component. *)
Theorem last_component_owns_entry spec slide_idx pre comp post i st
  tool_name :
  renders' spec comp tool_name ->
  let key := comp_id_of comp tool_name slide_idx (i + length pre) in
  (forall j c, post !! j = Some c ->
     leaves_key' spec key slide_idx (i + length pre + 1 + j) c) ->
  exists e,
    registry (render_components' spec slide_idx i (pre ++ comp :: post) st)
      !! key = Some e /\
    written_for' spec comp tool_name e.
Proof.
  intros Hr key Hpost.
  rewrite render_components_app. simpl.
  rewrite render_components_leave_key.
  2:{ intros j c Hj. replace (S (i + length pre) + j)%nat
        with (i + length pre + 1 + j)%nat by lia. apply Hpost. exact Hj. }
  destruct (rendered_component_written spec slide_idx (i + length pre) comp
              tool_name (render_components' spec slide_idx i pre st) Hr)
    as (e & Heq & Hw).
  exists e. rewrite Heq. split; [apply lookup_insert_eq | exact Hw].
Qed.

End LoopFacts.

Section LoopWitnesses.
Import Render.

Lemma auto_title_is_drawn_first_witness :
  sort_by_z (inject_title
               (SlideSpec (Some "Q1 Results") [valid_comp; broken_comp] ∅)) =
  auto_title_comp "Q1 Results" :: sort_by_z [valid_comp; broken_comp].
Proof.
  apply (auto_title_is_drawn_first
           (SlideSpec (Some "Q1 Results") [valid_comp; broken_comp] ∅)
           "Q1 Results").
  - reflexivity.
  - reflexivity.
  - intros c Hc. simpl in Hc.
    apply elem_of_cons in Hc as [->|Hc]; [vm_compute; discriminate|].
    apply elem_of_cons in Hc as [->|Hc]; [vm_compute; discriminate|].
    inversion Hc.
Defined.

Lemma new_shapes_are_the_added_ones_witness :
  _new_shapes
    ([Shape 1 (Geom 0 0 10 10) None] ++ [Shape 2 (Geom 5 5 10 10) None])
    (_snapshot_ids [Shape 1 (Geom 0 0 10 10) None])
  = [Shape 2 (Geom 5 5 10 10) None].
Proof.
  apply (new_shapes_are_the_added_ones [Shape 1 (Geom 0 0 10 10) None]
           [Shape 2 (Geom 5 5 10 10) None]).
  intros s Hs. apply elem_of_cons in Hs as [->|Hs]; [|inversion Hs].
  simpl. intros Hin. apply elem_of_cons in Hin as [Hin|Hin];
    [discriminate | inversion Hin].
Defined.

Lemma normalize_ir_is_idempotent_witness :
  _normalize_ir (_mk_min (VList [wrap_components (VList [])]))
  = Ok (_mk_min (VList [wrap_components (VList [])])).
Proof.
  apply (normalize_ir_is_idempotent (VList [])). reflexivity.
Defined.

Lemma registry_entries_come_from_components_witness :
  (∅ : gmap string entry) !! "valid_1_2"
  = Some (Entry "valid" [2] (Some (Geom 0 0 100 100)) true) \/
  exists j comp tool_name,
    [broken_comp; valid_comp] !! j = Some comp /\
    "valid_1_2" = comp_id_of comp tool_name 1 (1 + j) /\
    written_for demo_resolve demo_slide comp tool_name
      (Entry "valid" [2] (Some (Geom 0 0 100 100)) true).
Proof.
  apply (registry_entries_come_from_components bool value unit
           demo_load_schema demo_load_module demo_load_module demo_validate
           demo_resolve demo_render demo_slide 1 [broken_comp; valid_comp] 1
           (SlideState [] ∅)).
  vm_compute. reflexivity.
Defined.

(** The registry holds a stale entry under ["hero"], a group is drawn
    under that id and written, then [hero_flat] under the same id;
    of the two components after it one has the id and is rejected, the
    other writes under its own key. *)
Lemma last_component_owns_entry_witness :
  exists e,
    registry
      (render_components bool value unit demo_load_schema demo_load_module
         demo_load_module demo_validate demo_resolve demo_render demo_slide 1
         1 ([hero_group] ++ hero_flat :: [hero_broken; valid_comp])
         (SlideState [] {[ "hero" := stale_entry ]}))
      !! comp_id_of hero_flat "valid" 1 (1 + length [hero_group]) = Some e /\
    written_for demo_resolve demo_slide hero_flat "valid" e.
Proof.
  apply (last_component_owns_entry bool value unit demo_load_schema
           demo_load_module demo_load_module demo_validate demo_resolve
           demo_render demo_slide 1 [hero_group] hero_flat
           [hero_broken; valid_comp] 1
           (SlideState [] {[ "hero" := stale_entry ]}) "valid").
  - exists true, (VDict ∅), tt, (Geom 0 0 100 100). repeat split.
  - intros [|[|j]] c Hj; simpl in Hj; [| |discriminate].
    + injection Hj as <-. left. left. exists "broken", false. repeat split.
    + injection Hj as <-. right. intros tn Ht. injection Ht as <-.
      vm_compute. discriminate.
Defined.

(** The run of that scenario: the entry under ["hero"] is neither the
    stale one, of the tool ["old"], nor the group of the first
    component, but the entry of [hero_flat], which is no group. *)
Example last_writer_wins :
  option_map (fun e => (tool e, is_group e))
    (registry
       (render_components bool value unit demo_load_schema demo_load_module
          demo_load_module demo_validate demo_resolve demo_render demo_slide
          1 1 [hero_group; hero_flat; hero_broken; valid_comp]
          (SlideState [] {[ "hero" := stale_entry ]}) )
     !! "hero")
  = Some ("valid", false) /\
  option_map (fun e => (tool e, is_group e))
    (registry
       (render_components bool value unit demo_load_schema demo_load_module
          demo_load_module demo_validate demo_resolve demo_render demo_slide
          1 1 [hero_group] (SlideState [] {[ "hero" := stale_entry ]}))
     !! "hero")
  = Some ("valid", true).
Proof. split; vm_compute; reflexivity. Qed.

End LoopWitnesses.

Section BoxWitnesses.
Import Render.

Lemma bbox_is_bounding_box_witness :
  encloses (Geom 0 0 15 15) (Shape 2 (Geom 5 5 10 10) None) /\
  exists s,
    s ∈ [Shape 1 (Geom 0 0 10 10) None; Shape 2 (Geom 5 5 10 10) None] /\
    shape_right s = 15.
Proof.
  destruct (proj2 (bbox_is_bounding_box
                     [Shape 1 (Geom 0 0 10 10) None;
                      Shape 2 (Geom 5 5 10 10) None])
              (Geom 0 0 15 15) eq_refl) as (Hin & _ & _ & Hr & _).
  split; [|exact Hr].
  apply Hin. apply list_elem_of_In. simpl. tauto.
Defined.

End BoxWitnesses.

(** ** Module names ([render.py]) *)

Section CharFacts.
Import PyStr Strings.Ascii.

(** Every character is one of the 256 that [ascii_of_nat] gives. *)
Lemma ascii_cases (P : ascii -> bool) :
  forallb P (List.map ascii_of_nat (seq 0 256)) = true ->
  forall c, P c = true.
Proof.
  intros H c. rewrite forallb_forall in H. apply H.
  rewrite <- (ascii_nat_embedding c). apply in_map, in_seq.
  pose proof (nat_ascii_bounded c). lia.
Qed.

Lemma range_cases (P : Z -> bool) (lo : Z) (n : nat) :
  forallb (fun k => P (lo + Z.of_nat k)) (seq 0 n) = true ->
  forall v, lo <= v < lo + Z.of_nat n -> P v = true.
Proof.
  intros H v Hv. rewrite forallb_forall in H.
  replace v with (lo + Z.of_nat (Z.to_nat (v - lo))) by lia.
  apply H. apply in_seq. lia.
Qed.

End CharFacts.

Section LoaderFacts.
Import PyStr Loader Strings.Ascii.

Lemma all_chars_map (p : ascii -> bool) (f : ascii -> ascii) s :
  (forall c, p (f c) = true) -> all_chars p (map_chars f s) = true.
Proof.
  intros H. induction s as [|c s IH]; simpl; [reflexivity|].
  rewrite H, IH. reflexivity.
Qed.

Lemma map_chars_id (p : ascii -> bool) (f : ascii -> ascii) s :
  (forall c, p c = true -> f c = c) -> all_chars p s = true ->
  map_chars f s = s.
Proof.
  intros H. induction s as [|c s IH]; simpl; [reflexivity|].
  intros Hs. apply andb_true_iff in Hs as [Hc Hs].
  rewrite (H c Hc), (IH Hs). reflexivity.
Qed.

Lemma module_char_facts c :
  is_module_char c = true ->
  is_space c = false /\
  (if Ascii.eqb c "-" then "_"%char else c) = c /\
  (if Ascii.eqb c " " then "_"%char else c) = c /\
  (if is_word_char c then c else "_"%char) = c /\
  lower_char c = c.
Proof.
  pose proof (ascii_cases
    (fun c => implb (is_module_char c)
       (negb (is_space c)
        && Ascii.eqb (if Ascii.eqb c "-" then "_"%char else c) c
        && Ascii.eqb (if Ascii.eqb c " " then "_"%char else c) c
        && Ascii.eqb (if is_word_char c then c else "_"%char) c
        && Ascii.eqb (lower_char c) c))
    ltac:(vm_compute; reflexivity) c) as H.
  cbv beta in H. intros Hc. rewrite Hc in H. cbn [implb] in H.
  repeat (apply andb_true_iff in H as [H ?H]).
  apply negb_true_iff in H.
  repeat split; try assumption; apply Ascii.eqb_eq; assumption.
Qed.

Lemma lstrip_id s : all_chars is_module_char s = true -> lstrip s = s.
Proof.
  destruct s as [|c s]; simpl; [reflexivity|].
  intros H. apply andb_true_iff in H as [Hc _].
  destruct (module_char_facts c Hc) as (-> & _). reflexivity.
Qed.

Lemma rstrip_id s : all_chars is_module_char s = true -> rstrip s = s.
Proof.
  induction s as [|c s IH]; simpl; [reflexivity|].
  intros H. apply andb_true_iff in H as [Hc Hs].
  rewrite (IH Hs). destruct (module_char_facts c Hc) as (-> & _).
  destruct s; reflexivity.
Qed.

Lemma sanitized_chars name :
  all_chars is_module_char (_sanitize_module_name name) = true.
Proof.
  unfold _sanitize_module_name, lower.
  set (n := replace_char _ _ _).
  induction n as [|c n IH]; simpl; [reflexivity|].
  rewrite IH, andb_true_r.
  apply (ascii_cases
           (fun c => is_module_char
                       (lower_char (if is_word_char c then c else "_"%char)))).
  vm_compute. reflexivity.
Qed.

(** X14: a sanitized module name has only digits, lower-case letters
    and underscores, sanitizing it again does not change it, and the
    name of [None] is the empty string. *)
Theorem sanitize_module_name_is_idempotent name :
  all_chars is_module_char (_sanitize_module_name name) = true /\
  _sanitize_module_name (Some (_sanitize_module_name name))
  = _sanitize_module_name name /\
  _sanitize_module_name None = EmptyString.
Proof.
  split; [apply sanitized_chars|]. split; [|reflexivity].
  pose proof (sanitized_chars name) as H.
  set (m := _sanitize_module_name name) in *.
  unfold _sanitize_module_name, strip, lower, replace_char.
  rewrite lstrip_id, rstrip_id by exact H.
  rewrite (map_chars_id is_module_char
             (fun c => if Ascii.eqb c "-" then "_"%char else c) m)
    by (exact H || (intros c Hc; apply (module_char_facts c Hc))).
  rewrite (map_chars_id is_module_char
             (fun c => if Ascii.eqb c " " then "_"%char else c) m)
    by (exact H || (intros c Hc; apply (module_char_facts c Hc))).
  rewrite (map_chars_id is_module_char
             (fun c => if is_word_char c then c else "_"%char) m)
    by (exact H || (intros c Hc; apply (module_char_facts c Hc))).
  apply (map_chars_id is_module_char); [|exact H].
  intros c Hc. apply (module_char_facts c Hc).
Qed.

End LoaderFacts.

(** ** Colours ([tools/utils.py]) *)

Section ColorFacts.
Import PyStr Colors Strings.Ascii.

Lemma clamp_byte_range v : 0 <= clamp_byte v <= 255.
Proof. unfold clamp_byte. lia. Qed.

Lemma clamp_byte_id v : 0 <= v <= 255 -> clamp_byte v = v.
Proof. unfold clamp_byte. lia. Qed.

(** *** Writing a colour *)

Lemma format_02X_chars v :
  0 <= v <= 255 ->
  exists h l, format_02X v = String h (String l EmptyString) /\
    is_upper_hex h = true /\ is_upper_hex l = true /\
    Ascii.eqb h "#" = false.
Proof.
  intros Hv. eexists _, _. split; [reflexivity|].
  assert (H : (is_upper_hex (hex_digit (v / 16))
               && is_upper_hex (hex_digit (v mod 16))
               && negb (Ascii.eqb (hex_digit (v / 16)) "#")) = true).
  { apply (range_cases
             (fun v => is_upper_hex (hex_digit (v / 16))
                       && is_upper_hex (hex_digit (v mod 16))
                       && negb (Ascii.eqb (hex_digit (v / 16)) "#")) 0 256);
      [vm_compute; reflexivity | lia]. }
  apply andb_true_iff in H as [H H3]. apply andb_true_iff in H as [H1 H2].
  apply negb_true_iff in H3. auto.
Qed.

Lemma int_base16_format v :
  0 <= v <= 255 -> int_base16 (format_02X v) = Ok v.
Proof.
  intros Hv.
  assert (H : (match int_base16 (format_02X v) with
               | Ok u => u =? v
               | Raise _ => false
               end) = true).
  { apply (range_cases
             (fun v => match int_base16 (format_02X v) with
                       | Ok u => u =? v
                       | Raise _ => false
                       end) 0 256);
      [vm_compute; reflexivity | lia]. }
  destruct (int_base16 (format_02X v)) as [u|]; [|discriminate].
  apply Z.eqb_eq in H. subst. reflexivity.
Qed.

Lemma lstrip_hash_other c r :
  Ascii.eqb c "#" = false -> lstrip_hash (String c r) = String c r.
Proof.
  destruct c as [[] [] [] [] [] [] [] []]; try reflexivity; discriminate.
Qed.

Lemma rgb_to_hex_ints r g b :
  rgb_to_hex (Int r) (Int g) (Int b) =
  Ok ("#" +:+ format_02X (clamp_byte r) +:+ format_02X (clamp_byte g)
          +:+ format_02X (clamp_byte b)).
Proof. reflexivity. Qed.

Lemma to_int_errors x e :
  to_int x = Raise e -> e = OverflowError \/ e = ValueError.
Proof.
  destruct x as [z|f]; simpl; [discriminate|].
  destruct f; simpl; intros [= <-]; auto.
Qed.

(** X15: whatever the numbers, what [rgb_to_hex] returns is [#] and six
    digits of base 16 in upper case; it raises only [OverflowError] and
    [ValueError] (for a float that is infinite or not a number), and
    never for integers. *)
Theorem rgb_to_hex_is_well_formed r g b :
  (forall s, rgb_to_hex r g b = Ok s -> well_formed s = true) /\
  (forall e, rgb_to_hex r g b = Raise e ->
             e = OverflowError \/ e = ValueError) /\
  (forall r' g' b', r = Int r' -> g = Int g' -> b = Int b' ->
     exists s, rgb_to_hex r g b = Ok s).
Proof.
  split; [|split].
  - intros s. unfold rgb_to_hex. intros H.
    apply bind_ok in H as (r' & _ & H).
    apply bind_ok in H as (g' & _ & H).
    apply bind_ok in H as (b' & _ & H). injection H as <-.
    destruct (format_02X_chars _ (clamp_byte_range r'))
      as (h1 & l1 & -> & H1 & H2 & _).
    destruct (format_02X_chars _ (clamp_byte_range g'))
      as (h2 & l2 & -> & H3 & H4 & _).
    destruct (format_02X_chars _ (clamp_byte_range b'))
      as (h3 & l3 & -> & H5 & H6 & _).
    simpl. rewrite H1, H2, H3, H4, H5, H6. reflexivity.
  - intros e. unfold rgb_to_hex.
    destruct (to_int r) as [r'|e1] eqn:Er;
      [|simpl; intros [= <-]; eapply to_int_errors; eauto].
    destruct (to_int g) as [g'|e1] eqn:Eg;
      [|simpl; intros [= <-]; eapply to_int_errors; eauto].
    destruct (to_int b) as [b'|e1] eqn:Eb;
      [|simpl; intros [= <-]; eapply to_int_errors; eauto].
    discriminate.
  - intros r' g' b' -> -> ->. rewrite rgb_to_hex_ints. eauto.
Qed.

(** *** Reading it back *)

Lemma hex_to_rgb_formatted r g b :
  0 <= r <= 255 -> 0 <= g <= 255 -> 0 <= b <= 255 ->
  hex_to_rgb ("#" +:+ format_02X r +:+ format_02X g +:+ format_02X b)
  = Ok (r, g, b).
Proof.
  intros Hr Hg Hb.
  pose proof (int_base16_format r Hr) as Ir.
  pose proof (int_base16_format g Hg) as Ig.
  pose proof (int_base16_format b Hb) as Ib.
  destruct (format_02X_chars r Hr) as (h1 & l1 & E1 & _ & _ & Hh).
  destruct (format_02X_chars g Hg) as (h2 & l2 & E2 & _).
  destruct (format_02X_chars b Hb) as (h3 & l3 & E3 & _).
  rewrite E1, E2, E3 in *. unfold hex_to_rgb.
  change (lstrip_hash ("#" +:+ String h1 (String l1 EmptyString)
                       +:+ String h2 (String l2 EmptyString)
                       +:+ String h3 (String l3 EmptyString)))
    with (lstrip_hash (String h1 (String l1 (String h2 (String l2
            (String h3 (String l3 EmptyString))))))).
  rewrite lstrip_hash_other by exact Hh.
  change (slice (String h1 (String l1 (String h2 (String l2
            (String h3 (String l3 EmptyString)))))) 0 2)
    with (String h1 (String l1 EmptyString)).
  change (slice (String h1 (String l1 (String h2 (String l2
            (String h3 (String l3 EmptyString)))))) 2 4)
    with (String h2 (String l2 EmptyString)).
  change (slice (String h1 (String l1 (String h2 (String l2
            (String h3 (String l3 EmptyString)))))) 4 6)
    with (String h3 (String l3 EmptyString)).
  rewrite Ir, Ig, Ib. reflexivity.
Qed.

(** X16: [hex_to_rgb] reads what [rgb_to_hex] wrote: the channels it
    returns are the integer parts of the three numbers, each brought
    into the range from 0 to 255. *)
Theorem hex_to_rgb_reads_rgb_to_hex r g b s :
  rgb_to_hex r g b = Ok s ->
  exists r' g' b',
    to_int r = Ok r' /\ to_int g = Ok g' /\ to_int b = Ok b' /\
    hex_to_rgb s = Ok (clamp_byte r', clamp_byte g', clamp_byte b').
Proof.
  unfold rgb_to_hex. intros H.
  apply bind_ok in H as (r' & Hr & H).
  apply bind_ok in H as (g' & Hg & H).
  apply bind_ok in H as (b' & Hb & H). injection H as <-.
  exists r', g', b'. repeat split; try assumption.
  apply hex_to_rgb_formatted; apply clamp_byte_range.
Qed.

Lemma pairs_ok a b : pair_ok a b = true.
Proof.
  revert b. apply ascii_cases. revert a.
  apply (ascii_cases
           (fun a => forallb (pair_ok a) (List.map ascii_of_nat (seq 0 256)))).
  vm_compute. reflexivity.
Qed.

Lemma int_base16_pair a b :
  is_hex_digit a = true -> is_hex_digit b = true ->
  exists v, int_base16 (String a (String b EmptyString)) = Ok v /\
    0 <= v <= 255 /\
    format_02X v = String (upper_digit a) (String (upper_digit b) EmptyString).
Proof.
  intros Ha Hb. pose proof (pairs_ok a b) as H. unfold pair_ok in H.
  rewrite Ha, Hb in H. cbn [andb] in H.
  destruct (int_base16 _) as [v|]; [|discriminate].
  apply andb_true_iff in H as [H H3]. apply andb_true_iff in H as [H1 H2].
  apply String.eqb_eq in H3. exists v. repeat split; [lia | lia | exact H3].
Qed.

Lemma is_hex_digit_not_hash c :
  is_hex_digit c = true -> Ascii.eqb c "#" = false.
Proof.
  pose proof (ascii_cases
    (fun c => implb (is_hex_digit c) (negb (Ascii.eqb c "#")))
    ltac:(vm_compute; reflexivity) c) as H. simpl in H.
  destruct (is_hex_digit c); [|discriminate].
  intros _. apply negb_true_iff. exact H.
Qed.

(** X17: a string of six digits of base 16, with or without a leading
    [#], is read as three channels between 0 and 255, and [rgb_to_hex]
    writes them back as [#] and the same six digits in upper case. *)
Theorem rgb_to_hex_writes_upper_case s :
  is_hex6 s = true ->
  exists r g b,
    hex_to_rgb s = Ok (r, g, b) /\
    hex_to_rgb ("#" +:+ s) = Ok (r, g, b) /\
    (0 <= r <= 255 /\ 0 <= g <= 255 /\ 0 <= b <= 255) /\
    rgb_to_hex (Int r) (Int g) (Int b) = Ok ("#" +:+ map_chars upper_digit s).
Proof.
  unfold is_hex6. intros H. apply andb_true_iff in H as [Hlen Hall].
  apply Nat.eqb_eq in Hlen.
  destruct s as [|c1 [|c2 [|c3 [|c4 [|c5 [|c6 [|c7 s]]]]]]];
    simpl in Hlen; try lia.
  simpl in Hall.
  repeat (apply andb_true_iff in Hall as [?H Hall]).
  destruct (int_base16_pair c1 c2) as (r & Hr & Rr & Fr); try assumption.
  destruct (int_base16_pair c3 c4) as (g & Hg & Rg & Fg); try assumption.
  destruct (int_base16_pair c5 c6) as (b & Hb & Rb & Fb); try assumption.
  assert (Hs : hex_to_rgb
                 (String c1 (String c2 (String c3 (String c4
                    (String c5 (String c6 EmptyString))))))
               = Ok (r, g, b)).
  { unfold hex_to_rgb.
    rewrite lstrip_hash_other by (apply is_hex_digit_not_hash; assumption).
    change (slice (String c1 (String c2 (String c3 (String c4
              (String c5 (String c6 EmptyString)))))) 0 2)
      with (String c1 (String c2 EmptyString)).
    change (slice (String c1 (String c2 (String c3 (String c4
              (String c5 (String c6 EmptyString)))))) 2 4)
      with (String c3 (String c4 EmptyString)).
    change (slice (String c1 (String c2 (String c3 (String c4
              (String c5 (String c6 EmptyString)))))) 4 6)
      with (String c5 (String c6 EmptyString)).
    rewrite Hr, Hg, Hb. reflexivity. }
  exists r, g, b. split; [exact Hs|]. split; [exact Hs|].
  split; [auto|].
  rewrite rgb_to_hex_ints, !clamp_byte_id by assumption.
  rewrite Fr, Fg, Fb. reflexivity.
Qed.

(** *** What [hex_to_rgb] rejects and what it does not read *)

Lemma int_base16_errors s e : int_base16 s = Raise e -> e = ValueError.
Proof.
  unfold int_base16. destruct (skip_sign (skip_spaces s)) as [negative s1].
  destruct (skip_prefix s1) as [|c r] eqn:E2.
  - simpl. congruence.
  - assert (H : forall x : result Z,
      match scan_digits (String c r) false 0 0 with
      | Some (v, S _, rest) =>
          match skip_spaces rest with
          | EmptyString => Ok (if negative then - v else v)
          | _ => Raise ValueError
          end
      | _ => Raise ValueError
      end = Raise e -> e = ValueError).
    { intros _. destruct (scan_digits _ _ _ _) as [[[v [|n]] rest]|];
        try congruence.
      destruct (skip_spaces rest); congruence. }
    destruct c as [[] [] [] [] [] [] [] []]; try (apply H; exact (Ok 0));
      congruence.
Qed.

Lemma shorts_ok s : (String.length s <= 2)%nat -> short_ok s = true.
Proof.
  destruct s as [|a [|b [|c s]]]; simpl; try lia; intros _.
  - reflexivity.
  - revert a. apply ascii_cases. vm_compute. reflexivity.
  - revert b. apply ascii_cases. revert a.
    apply (ascii_cases
             (fun a => forallb (fun b => short_ok
                                  (String a (String b EmptyString)))
                         (List.map ascii_of_nat (seq 0 256)))).
    vm_compute. reflexivity.
Qed.

Lemma substring_length n m s : (String.length (String.substring n m s) <= m)%nat.
Proof.
  revert n m. induction s as [|c s IH]; intros [|n] [|m]; simpl; try lia.
  - specialize (IH 0%nat m). lia.
  - apply (IH n 0%nat).
  - apply (IH n (S m)).
Qed.

Lemma substring_beyond n m s :
  (String.length s <= n)%nat -> String.substring n m s = EmptyString.
Proof.
  revert n m. induction s as [|c s IH]; intros [|n] [|m]; simpl;
    try reflexivity; try lia; intros H; apply IH; lia.
Qed.

Lemma slice_range s i j v :
  (j - i <= 2)%nat -> int_base16 (slice s i j) = Ok v -> -15 <= v <= 255.
Proof.
  intros Hij Hv.
  assert (H : short_ok (slice s i j) = true).
  { apply shorts_ok. unfold slice.
    pose proof (substring_length i (j - i) s). lia. }
  unfold short_ok in H. rewrite Hv in H. lia.
Qed.

Lemma hex_to_rgb_edge_cases_aux hex_color :
  (forall e, hex_to_rgb hex_color = Raise e -> e = ValueError) /\
  ((String.length (lstrip_hash hex_color) < 5)%nat ->
   hex_to_rgb hex_color = Raise ValueError) /\
  (forall r g b, hex_to_rgb hex_color = Ok (r, g, b) ->
     -15 <= r <= 255 /\ -15 <= g <= 255 /\ -15 <= b <= 255).
Proof.
  unfold hex_to_rgb. set (s := lstrip_hash hex_color).
  assert (Herr : forall e,
    (r <- int_base16 (slice s 0 2) ;;
     g <- int_base16 (slice s 2 4) ;;
     b <- int_base16 (slice s 4 6) ;; Ok (r, g, b)) = Raise e ->
    e = ValueError).
  { intros e.
    destruct (int_base16 (slice s 0 2)) as [r|e1] eqn:Er;
      [|simpl; intros [= <-]; eapply int_base16_errors; eauto].
    destruct (int_base16 (slice s 2 4)) as [g|e1] eqn:Eg;
      [|simpl; intros [= <-]; eapply int_base16_errors; eauto].
    destruct (int_base16 (slice s 4 6)) as [b|e1] eqn:Eb;
      [|simpl; intros [= <-]; eapply int_base16_errors; eauto].
    discriminate. }
  split; [exact Herr|]. split.
  - intros Hlen.
    destruct (r <- int_base16 (slice s 0 2) ;;
              g <- int_base16 (slice s 2 4) ;;
              b <- int_base16 (slice s 4 6) ;; Ok (r, g, b))
      as [[[r g] b]|e] eqn:E.
    + exfalso.
      apply bind_ok in E as (r' & _ & E).
      apply bind_ok in E as (g' & _ & E).
      apply bind_ok in E as (b' & Hb & E).
      unfold slice in Hb. rewrite substring_beyond in Hb by lia.
      discriminate.
    + f_equal. apply Herr. reflexivity.
  - intros r g b H.
    apply bind_ok in H as (r' & Hr & H).
    apply bind_ok in H as (g' & Hg & H).
    apply bind_ok in H as (b' & Hb & H). injection H as <- <- <-.
    apply slice_range in Hr; [|simpl; lia].
    apply slice_range in Hg; [|simpl; lia].
    apply slice_range in Hb; [|simpl; lia]. auto.
Qed.

(** X18: [hex_to_rgb] raises only [ValueError]; it raises it whenever
    fewer than five characters follow the leading [#] characters; and a
    channel it returns is between -15 and 255, a sign or a space being
    accepted in the place of a digit. *)
Theorem hex_to_rgb_edge_cases hex_color :
  (forall e, hex_to_rgb hex_color = Raise e -> e = ValueError) /\
  ((String.length (lstrip_hash hex_color) < 5)%nat ->
   hex_to_rgb hex_color = Raise ValueError) /\
  (forall r g b, hex_to_rgb hex_color = Ok (r, g, b) ->
     -15 <= r <= 255 /\ -15 <= g <= 255 /\ -15 <= b <= 255).
Proof. apply hex_to_rgb_edge_cases_aux. Qed.

(** Signs, short strings and a string of five characters. *)
Example hex_to_rgb_odd_inputs :
  hex_to_rgb "-f-f-f" = Ok (-15, -15, -15) /\
  hex_to_rgb "#FFF" = Raise ValueError /\
  hex_to_rgb "#FFFFF" = Ok (255, 255, 15) /\
  hex_to_rgb "## 0 1+2" = Ok (0, 1, 2).
Proof. repeat split; vm_compute; reflexivity. Qed.

Lemma lstrip_hash_hashes h s :
  hashes h = true -> lstrip_hash (h +:+ s) = lstrip_hash s.
Proof.
  induction h as [|c h IH]; simpl; [reflexivity|].
  intros H. apply andb_true_iff in H as [Hc Hh].
  apply Ascii.eqb_eq in Hc. subst c. apply IH. exact Hh.
Qed.

Lemma substring_app n m s t :
  (n + m <= String.length s)%nat ->
  String.substring n m (s +:+ t) = String.substring n m s.
Proof.
  revert n m. induction s as [|c s IH]; intros n m; simpl.
  - intros H. assert (n = 0%nat) by lia. assert (m = 0%nat) by lia.
    subst. destruct t; reflexivity.
  - destruct n as [|n], m as [|m]; simpl; intros H; try reflexivity.
    + f_equal. apply IH. lia.
    + apply IH. lia.
    + apply IH. lia.
Qed.

(** X19: [hex_to_rgb] skips every leading [#] and reads six
    characters: what follows them, an alpha channel for instance, is
    ignored. *)
Theorem hex_to_rgb_reads_six_characters h s t :
  hashes h = true -> lstrip_hash s = s -> String.length s = 6%nat ->
  hex_to_rgb (h +:+ s +:+ t) = hex_to_rgb s.
Proof.
  intros Hh Hs Hlen. unfold hex_to_rgb.
  rewrite lstrip_hash_hashes by exact Hh. rewrite Hs.
  assert (Hst : lstrip_hash (s +:+ t) = s +:+ t).
  { destruct s as [|c s']; [discriminate|]. simpl in *.
    destruct c as [[] [] [] [] [] [] [] []]; try reflexivity.
    exfalso. apply (f_equal String.length) in Hs. simpl in Hs.
    assert (Hle : forall u, (String.length (lstrip_hash u)
                             <= String.length u)%nat).
    { induction u as [|d u IH]; simpl; [lia|].
      destruct d as [[] [] [] [] [] [] [] []]; simpl; lia. }
    specialize (Hle s'). lia. }
  rewrite Hst. unfold slice.
  rewrite !substring_app by (rewrite Hlen; simpl; lia). reflexivity.
Qed.

(** *** Tints *)

Lemma blend_cases (P : Z -> bool) :
  forallb (fun k => P (-15 + Z.of_nat k)) (seq 0 271) = true ->
  forall c, -15 <= c <= 255 -> P c = true.
Proof. intros H c Hc. apply (range_cases P (-15) 271 H). lia. Qed.

Lemma res_is_ok r v : res_is r v = true -> r = Ok v.
Proof.
  destruct r as [u|]; simpl; [|discriminate].
  intros H. apply Z.eqb_eq in H. subst. reflexivity.
Qed.

Lemma blend_neutral c :
  -15 <= c <= 255 -> _blend (Float fzero) c 255 = Ok (clamp_byte c).
Proof.
  intros Hc. apply res_is_ok.
  apply (blend_cases (fun c => res_is (_blend (Float fzero) c 255)
                                 (clamp_byte c)));
    [vm_compute; reflexivity | exact Hc].
Qed.

Lemma blend_full c :
  -15 <= c <= 255 ->
  _blend (Float f1_0) c 255 = Ok 255 /\
  _blend (Float (SFopp f1_0)) c 0 = Ok 0.
Proof.
  intros Hc. split; apply res_is_ok.
  - apply (blend_cases (fun c => res_is (_blend (Float f1_0) c 255) 255));
      [vm_compute; reflexivity | exact Hc].
  - apply (blend_cases (fun c => res_is (_blend (Float (SFopp f1_0)) c 0) 0));
      [vm_compute; reflexivity | exact Hc].
Qed.

Lemma tint_color_parsed s factor r g b :
  hex_to_rgb s = Ok (r, g, b) ->
  tint_color s factor =
  (let toward := if ge_zero factor then 255 else 0 in
   nr <- _blend factor r toward ;;
   ng <- _blend factor g toward ;;
   nb <- _blend factor b toward ;;
   rgb_to_hex (Int nr) (Int ng) (Int nb)).
Proof.
  unfold hex_to_rgb, tint_color. intros H.
  apply bind_ok in H as (r' & Hr & H).
  apply bind_ok in H as (g' & Hg & H).
  apply bind_ok in H as (b' & Hb & H). injection H as <- <- <-.
  rewrite Hr, Hg, Hb. reflexivity.
Qed.

Lemma blend_errors factor c toward e :
  _blend factor c toward = Raise e -> e = OverflowError \/ e = ValueError.
Proof.
  unfold _blend. destruct factor as [k|f]; simpl; [discriminate|].
  unfold mul_int_float, add_int_float.
  destruct (float_of_int (toward - c)) as [x|e1] eqn:E1; simpl;
    [|intros [= <-]; apply float_of_int_raises in E1; auto].
  destruct (float_of_int c) as [y|e1] eqn:E2; simpl;
    [|intros [= <-]; apply float_of_int_raises in E2; auto].
  destruct (round _) as [v|e1] eqn:E3; simpl; [discriminate|].
  intros [= <-]. destruct (fadd y (fmul x (fabs f))); simpl in E3;
    try discriminate; injection E3 as <-; auto.
Qed.

(** X20: what [tint_color] returns is a colour in the form of
    [rgb_to_hex]; it raises only [OverflowError] and [ValueError]; for a
    colour that [hex_to_rgb] reads, the factor 0 gives the colour itself
    in that form, the factor 1.0 gives white and the factor -1.0
    black. *)
Theorem tint_color_behaviour hex_color factor :
  (forall s, tint_color hex_color factor = Ok s -> well_formed s = true) /\
  (forall e, tint_color hex_color factor = Raise e ->
             e = OverflowError \/ e = ValueError) /\
  (forall r g b, hex_to_rgb hex_color = Ok (r, g, b) ->
     (factor = Float fzero \/ factor = Int 0 ->
      tint_color hex_color factor = rgb_to_hex (Int r) (Int g) (Int b)) /\
     (factor = Float f1_0 -> tint_color hex_color factor = Ok "#FFFFFF") /\
     (factor = Float (SFopp f1_0) ->
      tint_color hex_color factor = Ok "#000000")).
Proof.
  split; [|split].
  - intros s. unfold tint_color. intros H.
    apply bind_ok in H as (r & _ & H).
    apply bind_ok in H as (g & _ & H).
    apply bind_ok in H as (b & _ & H).
    apply bind_ok in H as (nr & _ & H).
    apply bind_ok in H as (ng & _ & H).
    apply bind_ok in H as (nb & _ & H). injection H as <-.
    destruct (format_02X_chars _ (clamp_byte_range nr))
      as (h1 & l1 & -> & H1 & H2 & _).
    destruct (format_02X_chars _ (clamp_byte_range ng))
      as (h2 & l2 & -> & H3 & H4 & _).
    destruct (format_02X_chars _ (clamp_byte_range nb))
      as (h3 & l3 & -> & H5 & H6 & _).
    simpl. rewrite H1, H2, H3, H4, H5, H6. reflexivity.
  - intros e. unfold tint_color.
    destruct (int_base16 _) as [r|e1] eqn:Er;
      [|simpl; intros [= <-]; apply int_base16_errors in Er; auto].
    destruct (int_base16 (slice _ 2 4)) as [g|e1] eqn:Eg;
      [|simpl; intros [= <-]; apply int_base16_errors in Eg; auto].
    destruct (int_base16 (slice _ 4 6)) as [b|e1] eqn:Eb;
      [|simpl; intros [= <-]; apply int_base16_errors in Eb; auto].
    cbn [bind].
    destruct (_blend factor r _) as [nr|e1] eqn:Br;
      [|simpl; intros [= <-]; eapply blend_errors; eauto].
    destruct (_blend factor g _) as [ng|e1] eqn:Bg;
      [|simpl; intros [= <-]; eapply blend_errors; eauto].
    destruct (_blend factor b _) as [nb|e1] eqn:Bb;
      [|simpl; intros [= <-]; eapply blend_errors; eauto].
    discriminate.
  - intros r g b Hp.
    destruct (proj2 (proj2 (hex_to_rgb_edge_cases_aux hex_color)) _ _ _ Hp)
      as (Rr & Rg & Rb).
    rewrite (tint_color_parsed _ _ _ _ _ Hp).
    split; [|split].
    + intros [->| ->].
      * cbn [ge_zero]. change (fle fzero fzero) with true. cbv zeta iota.
        rewrite !blend_neutral by assumption. cbn [bind].
        rewrite !rgb_to_hex_ints.
        rewrite !(clamp_byte_id (clamp_byte _)) by apply clamp_byte_range.
        reflexivity.
      * unfold _blend. cbn [ge_zero bind]. change (0 <=? 0) with true.
        cbv zeta iota. change (Z.abs 0) with 0. rewrite !Z.mul_0_r, !Z.add_0_r.
        rewrite !rgb_to_hex_ints.
        rewrite !(clamp_byte_id (clamp_byte _)) by apply clamp_byte_range.
        reflexivity.
    + intros ->. cbn [ge_zero]. change (fle fzero f1_0) with true.
      cbv zeta iota.
      rewrite (proj1 (blend_full r Rr)), (proj1 (blend_full g Rg)),
        (proj1 (blend_full b Rb)). reflexivity.
    + intros ->. cbn [ge_zero]. change (fle fzero (SFopp f1_0)) with false.
      cbv zeta iota.
      rewrite (proj2 (blend_full r Rr)), (proj2 (blend_full g Rg)),
        (proj2 (blend_full b Rb)). reflexivity.
Qed.

(** *** Mixing with white *)

Lemma toward_white_ends c :
  -15 <= c <= 255 ->
  (exists x, toward_white (Float fzero) c = Ok x /\ to_int x = Ok c) /\
  (exists x, toward_white (Float f1_0) c = Ok x /\ to_int x = Ok 255).
Proof.
  intros Hc. split.
  - assert (H : num_is (toward_white (Float fzero) c) c = true).
    { apply (blend_cases (fun c => num_is (toward_white (Float fzero) c) c));
        [vm_compute; reflexivity | exact Hc]. }
    unfold num_is in H. destruct (toward_white _ c) as [x|]; [|discriminate].
    exists x. split; [reflexivity | apply res_is_ok; exact H].
  - assert (H : num_is (toward_white (Float f1_0) c) 255 = true).
    { apply (blend_cases (fun c => num_is (toward_white (Float f1_0) c) 255));
        [vm_compute; reflexivity | exact Hc]. }
    unfold num_is in H. destruct (toward_white _ c) as [x|]; [|discriminate].
    exists x. split; [reflexivity | apply res_is_ok; exact H].
Qed.

(** X21: for a colour that [hex_to_rgb] reads, [mix_with_white] with
    the ratio 0.0 returns the colour itself in the form of [rgb_to_hex],
    with the ratio 1.0 it returns white, and whatever the ratio, what it
    returns has that form. *)
Theorem mix_with_white_ends hex_color r g b :
  hex_to_rgb hex_color = Ok (r, g, b) ->
  mix_with_white hex_color (Float fzero) = rgb_to_hex (Int r) (Int g) (Int b) /\
  mix_with_white hex_color (Float f1_0) = Ok "#FFFFFF" /\
  (forall ratio s, mix_with_white hex_color ratio = Ok s ->
                   well_formed s = true).
Proof.
  intros Hp.
  destruct (proj2 (proj2 (hex_to_rgb_edge_cases_aux hex_color)) _ _ _ Hp)
    as (Rr & Rg & Rb).
  unfold mix_with_white. rewrite Hp. cbn [bind].
  split; [|split].
  - destruct (proj1 (toward_white_ends r Rr)) as (x1 & -> & H1).
    destruct (proj1 (toward_white_ends g Rg)) as (x2 & -> & H2).
    destruct (proj1 (toward_white_ends b Rb)) as (x3 & -> & H3).
    cbn [bind]. unfold rgb_to_hex. rewrite H1, H2, H3. reflexivity.
  - destruct (proj2 (toward_white_ends r Rr)) as (x1 & -> & H1).
    destruct (proj2 (toward_white_ends g Rg)) as (x2 & -> & H2).
    destruct (proj2 (toward_white_ends b Rb)) as (x3 & -> & H3).
    cbn [bind]. unfold rgb_to_hex. rewrite H1, H2, H3. reflexivity.
  - intros ratio s H.
    apply bind_ok in H as (r' & _ & H).
    apply bind_ok in H as (g' & _ & H).
    apply bind_ok in H as (b' & _ & H).
    unfold rgb_to_hex in H.
    apply bind_ok in H as (r2 & _ & H).
    apply bind_ok in H as (g2 & _ & H).
    apply bind_ok in H as (b2 & _ & H). injection H as <-.
    destruct (format_02X_chars _ (clamp_byte_range r2))
      as (h1 & l1 & -> & H1 & H2 & _).
    destruct (format_02X_chars _ (clamp_byte_range g2))
      as (h2 & l2 & -> & H3 & H4 & _).
    destruct (format_02X_chars _ (clamp_byte_range b2))
      as (h3 & l3 & -> & H5 & H6 & _).
    simpl. rewrite H1, H2, H3, H4, H5, H6. reflexivity.
Qed.

(** *** Contrast *)

Lemma mul_float_int_small f c :
  -15 <= c <= 255 -> exists x, mul_float_int f c = Ok x.
Proof.
  intros Hc. unfold mul_float_int.
  assert (H : has_float (float_of_int c) = true).
  { apply (blend_cases (fun c => has_float (float_of_int c)));
      [vm_compute; reflexivity | exact Hc]. }
  destruct (float_of_int c) as [x|]; [|discriminate]. simpl. eauto.
Qed.

(** X22: [get_contrast_color] fails, with [ValueError], exactly when
    [hex_to_rgb] fails; otherwise it returns black or white; for a grey
    with [v] on each channel it returns black from [v = 128] on and
    white below. *)
Theorem get_contrast_color_is_black_or_white hex_bg_color :
  (forall e, hex_to_rgb hex_bg_color = Raise e ->
             get_contrast_color hex_bg_color = Raise ValueError) /\
  (forall c, hex_to_rgb hex_bg_color = Ok c ->
             get_contrast_color hex_bg_color = Ok black \/
             get_contrast_color hex_bg_color = Ok white) /\
  (forall v, 0 <= v <= 255 ->
     get_contrast_color (grey v) = Ok (if 128 <=? v then black else white)).
Proof.
  split; [|split].
  - intros e He. unfold get_contrast_color. rewrite He. simpl.
    f_equal. eapply hex_to_rgb_edge_cases_aux. exact He.
  - intros [[r g] b] Hp.
    destruct (proj2 (proj2 (hex_to_rgb_edge_cases_aux hex_bg_color)) _ _ _ Hp)
      as (Rr & Rg & Rb).
    unfold get_contrast_color. rewrite Hp. cbn [bind].
    destruct (mul_float_int_small (lit 2126 10000) r Rr) as (lr & ->).
    destruct (mul_float_int_small (lit 7152 10000) g Rg) as (lg & ->).
    destruct (mul_float_int_small (lit 722 10000) b Rb) as (lb & ->).
    cbn [bind].
    destruct (float_of_int 255) as [f255|] eqn:E255;
      [|vm_compute in E255; discriminate].
    assert (Hz : is_zero f255 = false)
      by (vm_compute in E255; injection E255 as <-; reflexivity).
    cbn [bind]. unfold fdiv. rewrite Hz. cbn [bind].
    destruct (flt _ _); auto.
  - intros v Hv.
    assert (H : grey_ok v = true).
    { apply (range_cases grey_ok 0 256); [vm_compute; reflexivity | lia]. }
    unfold grey_ok in H.
    destruct (get_contrast_color (grey v)) as [[[r g] b]|]; [|discriminate].
    destruct (128 <=? v);
      apply andb_true_iff in H as [H H3]; apply andb_true_iff in H as [H1 H2];
      apply Z.eqb_eq in H1, H2, H3; subst; reflexivity.
Qed.

End ColorFacts.

Section LaneFacts.
Import PyStr Colors WeightedProcessTimeline Strings.Ascii.

(** X23: a lane without a colour (or with the empty string) is given
    a colour of the palette, the same one six lanes further on; the
    colour has the form of [rgb_to_hex], and its contrast colour is
    black, the colour [_render_process] uses for the text. *)
Theorem default_lane_colours lane_color lane_idx :
  lane_color = None \/ lane_color = Some EmptyString ->
  exists c,
    _get_lane_color lane_color lane_idx = Ok c /\
    c ∈ light_colors /\
    _get_lane_color lane_color (lane_idx + 6) = Ok c /\
    well_formed c = true /\
    get_contrast_color c = Ok black.
Proof.
  intros Hl.
  assert (H : exists c,
    DecomposeBoxes.index light_colors (lane_idx mod 6) = Ok c /\
    c ∈ light_colors /\ well_formed c = true /\
    get_contrast_color c = Ok black).
  { pose proof (Nat.mod_upper_bound lane_idx 6) as Hm.
    destruct (lane_idx mod 6)%nat as [|[|[|[|[|[|k]]]]]]; try lia;
      (eexists; split; [reflexivity|]);
      (split; [apply list_elem_of_In; simpl; tauto|]);
      split; vm_compute; reflexivity. }
  destruct H as (c & Hc & Hin & Hw & Hb). exists c.
  assert (H6 : ((lane_idx + 6) mod 6 = lane_idx mod 6)%nat).
  { replace (lane_idx + 6)%nat with (lane_idx + 1 * 6)%nat by lia.
    apply Nat.Div0.mod_add. }
  destruct Hl as [-> | ->]; unfold _get_lane_color;
    change (length light_colors) with 6%nat; rewrite H6, Hc; auto.
Qed.

End LaneFacts.

Section ColorWitnesses.
Import PyStr Colors WeightedProcessTimeline Strings.Ascii.

Lemma hex_to_rgb_reads_rgb_to_hex_witness :
  exists r' g' b',
    to_int (Int 300) = Ok r' /\ to_int (Float (lit 127 10)) = Ok g' /\
    to_int (Int (-4)) = Ok b' /\
    hex_to_rgb "#FF0C00" = Ok (clamp_byte r', clamp_byte g', clamp_byte b').
Proof.
  apply (hex_to_rgb_reads_rgb_to_hex (Int 300) (Float (lit 127 10))
           (Int (-4)) "#FF0C00").
  vm_compute. reflexivity.
Defined.

Lemma rgb_to_hex_writes_upper_case_witness :
  exists r g b,
    hex_to_rgb "ff7f0a" = Ok (r, g, b) /\
    hex_to_rgb ("#" +:+ "ff7f0a") = Ok (r, g, b) /\
    (0 <= r <= 255 /\ 0 <= g <= 255 /\ 0 <= b <= 255) /\
    rgb_to_hex (Int r) (Int g) (Int b)
    = Ok ("#" +:+ map_chars upper_digit "ff7f0a").
Proof.
  apply (rgb_to_hex_writes_upper_case "ff7f0a"). reflexivity.
Defined.

Lemma hex_to_rgb_reads_six_characters_witness :
  hex_to_rgb ("##" +:+ "A1b2C3" +:+ "FF") = hex_to_rgb "A1b2C3".
Proof.
  apply (hex_to_rgb_reads_six_characters "##" "A1b2C3" "FF"); reflexivity.
Defined.

Lemma mix_with_white_ends_witness :
  mix_with_white "#336699" (Float fzero)
  = rgb_to_hex (Int 51) (Int 102) (Int 153) /\
  mix_with_white "#336699" (Float f1_0) = Ok "#FFFFFF" /\
  (forall ratio s, mix_with_white "#336699" ratio = Ok s ->
                   well_formed s = true).
Proof.
  apply (mix_with_white_ends "#336699" 51 102 153). vm_compute. reflexivity.
Defined.

Lemma default_lane_colours_witness :
  exists c,
    _get_lane_color None 7 = Ok c /\
    c ∈ light_colors /\
    _get_lane_color None (7 + 6) = Ok c /\
    well_formed c = true /\
    get_contrast_color c = Ok black.
Proof.
  apply (default_lane_colours None 7). left. reflexivity.
Defined.

End ColorWitnesses.

Section ColorEdgeWitnesses.
Import PyStr Colors Strings.Ascii.

Lemma rgb_to_hex_is_well_formed_witness :
  well_formed "#FF0C00" = true /\
  exists s, rgb_to_hex (Int 300) (Int 12) (Int (-4)) = Ok s.
Proof.
  split.
  - apply (proj1 (rgb_to_hex_is_well_formed (Int 300) (Float (lit 127 10))
                    (Int (-4)))).
    vm_compute. reflexivity.
  - apply (proj2 (proj2 (rgb_to_hex_is_well_formed (Int 300) (Int 12)
                           (Int (-4)))) 300 12 (-4)); reflexivity.
Defined.

Lemma hex_to_rgb_edge_cases_witness :
  hex_to_rgb "#FFF" = Raise ValueError /\
  (-15 <= 0 <= 255 /\ -15 <= 1 <= 255 /\ -15 <= -15 <= 255).
Proof.
  split.
  - apply (proj1 (proj2 (hex_to_rgb_edge_cases "#FFF"))). simpl. lia.
  - apply (proj2 (proj2 (hex_to_rgb_edge_cases "## 0 1-f")) 0 1 (-15)).
    vm_compute. reflexivity.
Defined.

Lemma tint_color_behaviour_witness :
  well_formed "#ADC2D6" = true /\
  tint_color "#336699" (Float f1_0) = Ok "#FFFFFF" /\
  tint_color "#336699" (Float (SFopp f1_0)) = Ok "#000000".
Proof.
  split.
  - apply (proj1 (tint_color_behaviour "#336699" (Float (lit 6 10)))).
    vm_compute. reflexivity.
  - destruct (proj2 (proj2 (tint_color_behaviour "#336699" (Float f1_0)))
                51 102 153 eq_refl) as (_ & Hw & _).
    destruct (proj2 (proj2 (tint_color_behaviour "#336699"
                              (Float (SFopp f1_0))))
                51 102 153 eq_refl) as (_ & _ & Hb).
    split; [apply Hw | apply Hb]; reflexivity.
Defined.

Lemma get_contrast_color_is_black_or_white_witness :
  get_contrast_color "#GGGGGG" = Raise ValueError /\
  get_contrast_color (grey 200) = Ok black /\
  get_contrast_color (grey 127) = Ok white.
Proof.
  split; [|split].
  - apply (proj1 (get_contrast_color_is_black_or_white "#GGGGGG") ValueError).
    vm_compute. reflexivity.
  - apply (proj2 (proj2 (get_contrast_color_is_black_or_white "") ) 200). lia.
  - apply (proj2 (proj2 (get_contrast_color_is_black_or_white "") ) 127). lia.
Defined.

End ColorEdgeWitnesses.

(** ** The cases of the router ([tools/renderers/component_diagram.py]) *)

Section RouteCases.
Import ComponentDiagram.

Lemma route_cases A B margin :
  match _calc_conn_points_and_sites A B margin with
  | Ok ((start, stop), sites, STRAIGHT) =>
      straight_between A B margin start stop sites
  | Ok ((start, stop), sites, ELBOW) => elbow_between A B start stop sites
  | Raise e => e = OverflowError
  end.
Proof.
  unfold _calc_conn_points_and_sites. cbv zeta.
  destruct (centre (x A) (w A)) as [ax|e] eqn:E1;
    [|cbn [bind]; eapply centre_raises; eauto].
  destruct (centre (y A) (h A)) as [ay|e] eqn:E2;
    [|cbn [bind]; eapply centre_raises; eauto].
  destruct (centre (x B) (w B)) as [bx|e] eqn:E3;
    [|cbn [bind]; eapply centre_raises; eauto].
  destruct (centre (y B) (h B)) as [by_|e] eqn:E4;
    [|cbn [bind]; eapply centre_raises; eauto].
  cbn [bind].
  destruct (int_truediv (h A + h B) 4) as [qh|e] eqn:E5;
    [|cbn [bind]; eapply int_truediv_raises; [|eauto]; lia].
  destruct (int_truediv (w A + w B) 4) as [qw|e] eqn:E6;
    [|cbn [bind]; eapply int_truediv_raises; [|eauto]; lia].
  cbn [bind].
  destruct (flt (fabs (fsub by_ ay)) qh);
    destruct (flt (fabs (fsub bx ax)) qw);
    cbn [andb];
    destruct (Z.leb_spec (x A + w A) (x B));
    destruct (Z.leb_spec (x B + w B) (x A));
    destruct (Z.leb_spec (y A + h A) (y B));
    destruct (Z.leb_spec (y B + h B) (y A));
    cbn [orb andb];
    repeat match goal with
           | |- context [if ?c then _ else _] => destruct c
           end;
    first
      [ exists ax, ay, bx, by_; repeat (split; [assumption|]);
        first [ left; repeat split; assumption
              | right; left; repeat split; assumption
              | right; right; left; repeat split; assumption
              | right; right; right; repeat split; assumption ]
      | exists ax, ay, bx, by_; repeat (split; [assumption|]);
        split; [reflexivity|]; split; [reflexivity|];
        unfold site_pairs; apply list_elem_of_In; simpl; tauto ].
Qed.

(** X24: the router raises only [OverflowError]; a straight connector
    joins two facing sides, the second box lying wholly beyond the side
    of the first that the connector leaves, at the heights (or
    abscissas) of the two centres; an elbow connector runs from centre
    to centre, between one of the four pairs of opposite sites; and two
    boxes whose interiors meet are never joined by a straight
    connector. *)
Theorem straight_means_separated A B margin :
  (forall e, _calc_conn_points_and_sites A B margin = Raise e ->
             e = OverflowError) /\
  (forall start stop sites,
     _calc_conn_points_and_sites A B margin
     = Ok ((start, stop), sites, STRAIGHT) ->
     straight_between A B margin start stop sites) /\
  (forall start stop sites,
     _calc_conn_points_and_sites A B margin
     = Ok ((start, stop), sites, ELBOW) ->
     elbow_between A B start stop sites) /\
  (overlap A B ->
   forall pts sites style,
     _calc_conn_points_and_sites A B margin = Ok (pts, sites, style) ->
     style = ELBOW).
Proof.
  pose proof (route_cases A B margin) as H.
  split; [|split; [|split]].
  - intros e He. rewrite He in H. exact H.
  - intros start stop sites He. rewrite He in H. exact H.
  - intros start stop sites He. rewrite He in H. exact H.
  - intros (O1 & O2 & O3 & O4) [start stop] sites style He.
    rewrite He in H. destruct style; [|reflexivity].
    destruct H as (ax & ay & bx & by_ & _ & _ & _ & _ & Hc).
    destruct Hc as [Hc|[Hc|[Hc|Hc]]]; destruct Hc as (_ & Hc & _); lia.
Qed.

End RouteCases.

Section RouteWitnesses.
Import ComponentDiagram.

Lemma straight_means_separated_witness :
  (exists start stop sites,
     straight_between (NodeGeom 0 0 100 50) (NodeGeom 300 20 100 50) 5
       start stop sites) /\
  (exists start stop sites,
     elbow_between (NodeGeom 0 0 100 50) (NodeGeom 50 25 100 50)
       start stop sites).
Proof.
  split.
  - eexists _, _, _.
    apply (proj1 (proj2 (straight_means_separated (NodeGeom 0 0 100 50)
                           (NodeGeom 300 20 100 50) 5))).
    vm_compute. reflexivity.
  - eexists _, _, _.
    apply (proj1 (proj2 (proj2 (straight_means_separated
                                  (NodeGeom 0 0 100 50)
                                  (NodeGeom 50 25 100 50) 5)))).
    vm_compute. reflexivity.
Defined.

End RouteWitnesses.

(** ** Exact conversions ([tools/utils.py], [_rel_to_abs]) *)

Section ExactFacts.

Lemma iter_pos_nat {A} (f : A -> A) n : forall x,
  SpecFloat.iter_pos f n x = Nat.iter (Pos.to_nat n) f x.
Proof.
  induction n as [n IH|n IH|]; intros x; simpl SpecFloat.iter_pos.
  - rewrite !IH, Pos2Nat.inj_xI.
    replace (S (2 * Pos.to_nat n)) with (Pos.to_nat n + (Pos.to_nat n + 1))%nat
      by lia.
    rewrite !Nat.iter_add. reflexivity.
  - rewrite !IH, Pos2Nat.inj_xO.
    replace (2 * Pos.to_nat n)%nat with (Pos.to_nat n + Pos.to_nat n)%nat
      by lia.
    rewrite Nat.iter_add. reflexivity.
  - reflexivity.
Qed.

Lemma shr_doubled k : forall m,
  Nat.iter k shr_1 (Build_shr_record (Z.pos (Nat.iter k xO m)) false false)
  = Build_shr_record (Z.pos m) false false.
Proof.
  induction k as [|k IH]; intros m; [reflexivity|].
  rewrite Nat.iter_succ_r.
  change (Nat.iter (S k) xO m) with (xO (Nat.iter k xO m)).
  change (shr_1 (Build_shr_record (Z.pos (xO (Nat.iter k xO m))) false false))
    with (Build_shr_record (Z.pos (Nat.iter k xO m)) false false).
  apply IH.
Qed.

Lemma digits_doubled k m :
  Z.pos (digits2_pos (Nat.iter k xO m))
  = Z.pos (digits2_pos m) + Z.of_nat k.
Proof.
  induction k as [|k IH]; [simpl; lia|].
  simpl Nat.iter. simpl digits2_pos. rewrite Pos2Z.inj_succ, IH. lia.
Qed.

Lemma value_doubled k m : Z.pos (Nat.iter k xO m) = Z.pos m * 2 ^ Z.of_nat k.
Proof.
  induction k as [|k IH]; [simpl; lia|].
  simpl Nat.iter. rewrite Pos2Z.inj_xO, IH, Nat2Z.inj_succ.
  rewrite Z.pow_succ_r by lia. lia.
Qed.

(** A mantissa in normal form, with [k] zero bits below it, is rounded
    to itself. *)
Lemma binary_round_aux_exact s m k e :
  normal m e ->
  binary_round_aux prec emax s (Z.pos (Nat.iter k xO m)) (e - Z.of_nat k)
    loc_Exact
  = S754_finite s m e.
Proof.
  intros [Hd [He1 He2]]. unfold binary_round_aux.
  assert (Hf : fexp prec emax (prec + e) = e).
  { unfold fexp, emin64 in *. lia. }
  assert (H1 : shr_fexp prec emax (Z.pos (Nat.iter k xO m)) (e - Z.of_nat k)
                 loc_Exact
               = (Build_shr_record (Z.pos m) false false, e)).
  { unfold shr_fexp. simpl Zdigits2. rewrite digits_doubled, Hd.
    replace (prec + Z.of_nat k + (e - Z.of_nat k)) with (prec + e) by lia.
    rewrite Hf. replace (e - (e - Z.of_nat k)) with (Z.of_nat k) by lia.
    unfold shr. destruct (Z.of_nat k) as [|q|q] eqn:Ek; try lia.
    - assert (k = 0%nat) as -> by lia. simpl. f_equal. lia.
    - rewrite iter_pos_nat. replace (Pos.to_nat q) with k by lia.
      simpl shr_record_of_loc. rewrite shr_doubled. f_equal. lia. }
  rewrite H1. simpl shr_m. simpl loc_of_shr_record.
  simpl round_nearest_even.
  assert (H2 : shr_fexp prec emax (Z.pos m) e loc_Exact
               = (Build_shr_record (Z.pos m) false false, e)).
  { unfold shr_fexp. simpl Zdigits2. rewrite Hd, Hf, Z.sub_diag.
    reflexivity. }
  rewrite H2. simpl shr_m.
  assert ((e <=? emax - prec) = true) as -> by (apply Z.leb_le; lia).
  reflexivity.
Qed.

Lemma binary_round_aux_normal s m e :
  normal m e ->
  binary_round_aux prec emax s (Z.pos m) e loc_Exact = S754_finite s m e.
Proof.
  intros Hn. pose proof (binary_round_aux_exact s m 0 e Hn) as H.
  change (Nat.iter 0 xO m) with m in H. change (Z.of_nat 0) with 0 in H.
  rewrite Z.sub_0_r in H. exact H.
Qed.

Lemma pos_iter_nat {A} (f : A -> A) (x : A) p :
  Pos.iter f x p = Nat.iter (Pos.to_nat p) f x.
Proof. apply Pos2Nat.inj_iter. Qed.

(** [float(z)] is exact below [2^53]. *)
Lemma float_of_int_exact p :
  Z.pos p < 2 ^ 53 ->
  exists m e,
    float_of_int (Z.pos p) = Ok (S754_finite false m e) /\
    normal m e /\ -52 <= e <= 0 /\ Z.pos m = Z.pos p * 2 ^ (- e).
Proof.
  intros Hp. pose proof (digits2_pos_lower p) as Hd.
  set (d := Z.pos (digits2_pos p)) in *.
  assert (Hd53 : d <= 53).
  { destruct (Z.le_gt_cases d 53) as [H|H]; [exact H|]. exfalso.
    assert (2 ^ 53 <= 2 ^ (d - 1)) by (apply Z.pow_le_mono_r; lia). lia. }
  assert (Hd1 : 1 <= d) by (unfold d; lia).
  unfold float_of_int, binary_normalize, binary_round. fold d.
  assert (Hf : fexp prec emax (d + 0) = d - 53).
  { unfold fexp, SpecFloat.emin, prec, emax. lia. }
  rewrite Hf. unfold shl_align.
  destruct (d - 53 - 0) as [|q|q] eqn:Hq; try lia.
  - assert (Hn : normal p 0).
    { unfold normal, emin64, SpecFloat.emin, prec, emax. fold d. lia. }
    rewrite (binary_round_aux_normal _ _ _ Hn).
    exists p, 0. split; [reflexivity|]. split; [exact Hn|].
    split; [lia|]. simpl. lia.
  - rewrite pos_iter_nat.
    assert (Hn : normal (Nat.iter (Pos.to_nat q) xO p) (d - 53)).
    { unfold normal. rewrite digits_doubled. fold d.
      rewrite positive_nat_Z.
      unfold emin64, SpecFloat.emin, prec, emax. lia. }
    rewrite (binary_round_aux_normal _ _ _ Hn).
    exists (Nat.iter (Pos.to_nat q) xO p), (d - 53).
    split; [reflexivity|]. split; [exact Hn|]. split; [lia|].
    rewrite value_doubled, positive_nat_Z. f_equal. f_equal. lia.
Qed.

(** Multiplying by [1.0] changes nothing. *)
Lemma fmul_one s m e :
  normal m e -> fmul (S754_finite s m e) f1_0 = S754_finite s m e.
Proof.
  intros Hn. unfold fmul, f1_0, SFmul.
  rewrite xorb_false_r.
  replace (Z.pos (m * 4503599627370496)) with (Z.pos (Nat.iter 52 xO m)).
  2:{ rewrite value_doubled. rewrite Pos2Z.inj_mul. reflexivity. }
  change (e + -52) with (e - Z.of_nat 52).
  apply binary_round_aux_exact. exact Hn.
Qed.

Lemma int_of_float_exact s m e p :
  -52 <= e <= 0 -> Z.pos m = Z.pos p * 2 ^ (- e) ->
  int_of_float (S754_finite s m e) = Ok (cond_Zopp s (Z.pos p)).
Proof.
  intros He Hm. unfold int_of_float. f_equal. f_equal.
  rewrite Z.shiftl_div_pow2 by lia. rewrite Hm.
  apply Z.div_mul. apply Z.pow_nonzero; lia.
Qed.

(** *** The ends of the percent scale *)

Lemma scaled_by_zero total q :
  0 <= total < 2 ^ 53 -> is_zero q = true ->
  (v <- mul_int_float total q ;; int_of_float v) = Ok 0.
Proof.
  intros Ht Hq. unfold mul_int_float.
  destruct total as [|p|p]; try lia.
  - destruct q; try discriminate. reflexivity.
  - destruct (float_of_int_exact p) as (m & e & -> & _); [lia|].
    destruct q; try discriminate. reflexivity.
Qed.

Lemma scaled_by_one total :
  0 <= total < 2 ^ 53 ->
  (v <- mul_int_float total f1_0 ;; int_of_float v) = Ok total.
Proof.
  intros Ht. unfold mul_int_float.
  destruct total as [|p|p]; try lia; [reflexivity|].
  destruct (float_of_int_exact p) as (m & e & -> & Hn & He & Hm); [lia|].
  cbn [bind]. rewrite fmul_one by exact Hn.
  apply (int_of_float_exact false m e p He Hm).
Qed.

Lemma percent_scale_ends total :
  0 <= total < 2 ^ 53 ->
  Utils.pct_to_emu (Int 0) total = Ok 0 /\
  Utils.pct_to_emu (Float fzero) total = Ok 0 /\
  Utils.pct_to_emu (Int 100) total = Ok total /\
  Utils.pct_to_emu (Float f100_0) total = Ok total /\
  ComponentDiagram.rel_part total fzero = Ok 0 /\
  ComponentDiagram.rel_part total f100_0 = Ok total.
Proof.
  intros Ht. unfold Utils.pct_to_emu, ComponentDiagram.rel_part.
  assert (H0 : forall pct, pct = Int 0 \/ pct = Float fzero ->
            (p <- to_float pct ;; fdiv p f100_0) = Ok fzero)
    by (intros pct [-> | ->]; vm_compute; reflexivity).
  assert (H1 : forall pct, pct = Int 100 \/ pct = Float f100_0 ->
            (p <- to_float pct ;; fdiv p f100_0) = Ok f1_0)
    by (intros pct [-> | ->]; vm_compute; reflexivity).
  assert (Hb : forall pct q,
            (p <- to_float pct ;; fdiv p f100_0) = Ok q ->
            (p <- to_float pct ;; q <- fdiv p f100_0 ;;
             v <- mul_int_float total q ;; int_of_float v)
            = (v <- mul_int_float total q ;; int_of_float v)).
  { intros pct q H. apply bind_ok in H as (p & -> & H). cbn [bind].
    rewrite H. reflexivity. }
  repeat split.
  - rewrite (Hb _ _ (H0 _ (or_introl eq_refl))).
    apply scaled_by_zero; [exact Ht | reflexivity].
  - rewrite (Hb _ _ (H0 _ (or_intror eq_refl))).
    apply scaled_by_zero; [exact Ht | reflexivity].
  - rewrite (Hb _ _ (H1 _ (or_introl eq_refl))).
    apply scaled_by_one. exact Ht.
  - rewrite (Hb _ _ (H1 _ (or_intror eq_refl))).
    apply scaled_by_one. exact Ht.
  - change (fdiv fzero f100_0) with (Ok fzero). cbn [bind].
    apply scaled_by_zero; [exact Ht | reflexivity].
  - change (fdiv f100_0 f100_0) with (Ok f1_0). cbn [bind].
    apply scaled_by_one. exact Ht.
Qed.

End ExactFacts.

Section ConversionFacts.
Import DecomposeBoxes Utils ComponentDiagram.

Lemma fdiv_by_100_errors p : raises_only conversion_errors (fdiv p f100_0).
Proof. intros e. change (fdiv p f100_0) with (Ok (SFdiv prec emax p f100_0)).
  discriminate. Qed.

Lemma pct_to_emu_errors pct total :
  raises_only conversion_errors (pct_to_emu pct total).
Proof.
  unfold pct_to_emu. apply raises_only_bind.
  { destruct pct as [z|f]; simpl;
      [apply float_of_int_errors | apply raises_only_ok]. }
  intros p _. apply raises_only_bind; [apply fdiv_by_100_errors|].
  intros q _. apply raises_only_bind; [apply mul_int_float_errors|].
  intros v _. apply int_of_float_errors.
Qed.

Lemma rel_part_errors extent pct :
  raises_only conversion_errors (rel_part extent pct).
Proof.
  unfold rel_part. apply raises_only_bind; [apply fdiv_by_100_errors|].
  intros q _. apply raises_only_bind; [apply mul_int_float_errors|].
  intros v _. apply int_of_float_errors.
Qed.

Lemma only_conversion_errors {A} (r : result A) e :
  raises_only conversion_errors r -> r = Raise e ->
  e = OverflowError \/ e = ValueError.
Proof.
  intros H He. apply H in He. unfold conversion_errors in He.
  apply elem_of_cons in He as [->|He]; [left; reflexivity|].
  apply elem_of_cons in He as [->|He]; [right; reflexivity|].
  inversion He.
Qed.

(** X26: [pct_to_emu], [parse_geom] and [_rel_to_abs] raise only
    [OverflowError] and [ValueError], as for an infinite percentage and
    for one that is not a number; they never divide by zero. *)
Theorem percent_conversions_raise_only_conversion_errors :
  (forall pct total e, pct_to_emu pct total = Raise e ->
     e = OverflowError \/ e = ValueError) /\
  (forall pos slide_width slide_height e,
     parse_geom pos slide_width slide_height = Raise e ->
     e = OverflowError \/ e = ValueError) /\
  (forall g rel e, _rel_to_abs g rel = Raise e ->
     e = OverflowError \/ e = ValueError) /\
  pct_to_emu (Float S754_nan) 9144000 = Raise ValueError /\
  pct_to_emu (Float (S754_infinity false)) 9144000 = Raise OverflowError.
Proof.
  split; [|split; [|split; [|split; reflexivity]]].
  - intros pct total e. apply only_conversion_errors, pct_to_emu_errors.
  - intros pos W H e. apply only_conversion_errors. unfold parse_geom.
    repeat (apply raises_only_bind; [apply pct_to_emu_errors|]; intros ? _).
    apply raises_only_ok.
  - intros g rel e. apply only_conversion_errors. unfold _rel_to_abs.
    repeat (apply raises_only_bind; [apply rel_part_errors|]; intros ? _).
    apply raises_only_ok.
Qed.

(** X25: the ends of the percent scale are exact for extents below
    [2^53]: [parse_geom] turns the box [{x: 0, y: 0, w: 100, h: 100}]
    into the whole slide, and [_rel_to_abs] turns it into the whole
    parent box. *)
Theorem full_percent_box_is_exact g :
  0 <= width g < 2 ^ 53 -> 0 <= height g < 2 ^ 53 ->
  parse_geom full_pos (width g) (height g)
  = Ok (Geom 0 0 (width g) (height g)) /\
  _rel_to_abs g full_position
  = Ok (NodeGeom (left g) (top g) (width g) (height g)).
Proof.
  intros Hw Hh.
  destruct (percent_scale_ends (width g) Hw) as (W1 & _ & W2 & _ & W3 & W4).
  destruct (percent_scale_ends (height g) Hh) as (H1 & _ & H2 & _ & H3 & H4).
  split.
  - unfold parse_geom, full_pos. simpl Utils.x. simpl Utils.y.
    simpl Utils.w. simpl Utils.h. rewrite W1, H1, W2, H2. reflexivity.
  - unfold _rel_to_abs, full_position. simpl rel_x. simpl rel_y.
    simpl rel_w. simpl rel_h. rewrite W3, H3, W4, H4. cbn [bind].
    f_equal. f_equal; lia.
Qed.

End ConversionFacts.

Section ConversionWitnesses.
Import Utils ComponentDiagram.

Lemma full_percent_box_is_exact_witness :
  parse_geom full_pos 9144000 5143500 = Ok (Geom 0 0 9144000 5143500) /\
  _rel_to_abs (Geom 457200 342900 9144000 5143500) full_position
  = Ok (NodeGeom 457200 342900 9144000 5143500).
Proof.
  apply (full_percent_box_is_exact (Geom 457200 342900 9144000 5143500));
    simpl; split; [lia | reflexivity | lia | reflexivity].
Defined.

End ConversionWitnesses.

Section PercentWitnesses.
Import Utils ComponentDiagram.

Lemma percent_conversions_raise_only_conversion_errors_witness :
  OverflowError = OverflowError \/ OverflowError = ValueError.
Proof.
  apply (proj1 percent_conversions_raise_only_conversion_errors
           (Float (S754_infinity false)) 9144000 OverflowError).
  vm_compute. reflexivity.
Defined.

End PercentWitnesses.
